(** * Blind adaptive echo cancellation: the signal pipeline of [audioWorker.ts]

    A shallow embedding of the [AudioProcessor] class of
    [src/lib/audioWorker.ts] and the properties of its echo synthesizer,
    emphasis filter pair, Kalman denoiser, NLMS canceller and metrics engine.

    Numbers.  JavaScript numbers and [Float32Array] elements are modelled by
    the real numbers of the Standard Library: all arithmetic is exact, no
    rounding to binary32/binary64 takes place, and there is neither NaN nor
    an infinity.  [Math.log10] is [ln x / ln 10].  What is proved of this
    model holds of the program up to the rounding of the values computed;
    where a statement is about a value bit for bit (which sample an echo is
    taken from, what is stored in a [Float32Array]), the function is
    modelled a second time in module [IEEE], in the binary64 and binary32
    arithmetic of the program, with [NaN], the infinities and the
    [undefined] of a read past the end of an array.

    Arrays.  A [Float32Array] is a [list R] of fixed length.  A write
    [a[i] = v] is stdpp's [<[i:=v]> a], which like a typed array ignores a
    write past the end.  A read [a[i]] is the total lookup [a !!! i]; the
    source reads past the end of an array (getting [undefined]) only in
    [input[0]] on an empty input, where the value is immediately stored past
    the end and so dropped, and in [addEcho] under a negative echo delay;
    the model answers such a read with [0].

    Time.  [performance.now()] answers from a time source [now]: its [k]-th
    call (counted in the run-time state) returns [now k]. *)

From Stdlib Require Import Reals Lra Lia ZArith String Ascii.
From Stdlib Require Import Floats.SpecFloat.
From stdpp Require Import base list.

Local Open Scope R_scope.

#[global] Instance R_inhabited : Inhabited R := populate 0.
#[global] Instance Rlt_decision (x y : R) : Decision (x < y) := Rlt_dec x y.
#[global] Instance Rgt_decision (x y : R) : Decision (x > y) := Rgt_dec x y.

(** ** Loops *)

Section Loops.
Context {St : Type}.

(** [for (let k = lo; k < hi; k++) body(k)] *)
Definition for_range (lo hi : nat) (body : nat -> St -> St) (s : St) : St :=
  fold_left (fun acc k => body k acc) (seq lo (hi - lo)) s.

(** [for (let i = i0; i < hi; i += stride) body(i)]; [fuel] bounds the
    number of iterations, and [hi - i0] of it is enough for a stride of at
    least one (lemma [for_stride_fuel]). *)
Fixpoint for_stride (fuel : nat) (i hi stride : nat)
         (body : nat -> St -> St) (s : St) : St :=
  match fuel with
  | O => s
  | S fuel' =>
      if (i <? hi)%nat
      then for_stride fuel' (i + stride)%nat hi stride body (body i s)
      else s
  end.
End Loops.

(** ** Arrays *)

(** [new Float32Array(n)] *)
Definition new_Float32Array (n : nat) : list R := replicate n 0.

(** [a.copyWithin(1, 0)]: every element moves one place up, the last one is
    dropped and the first one stays. *)
Definition copyWithin_1_0 (a : list R) : list R :=
  match a with
  | [] => []
  | a0 :: _ => a0 :: take (length a - 1) a
  end.

(** ** The processor and its run-time state *)

Definition kalmanGain : R := 0.05.
Definition nlmsStepSize : R := 0.8.
Definition filterLength : nat := 1024.
Definition echoIntensity : R := 50.
Definition overlapFactor : nat := 4.

Record Metrics := mkMetrics {
  erle : R;
  snr : R;
  rea : R;
  latency : R;
  convergence : R
}.

Record AudioProcessor := mkAudioProcessor {
  echoDelay : R;
  metrics : Metrics
}.

(** [new AudioProcessor()] *)
Definition new_AudioProcessor : AudioProcessor :=
  {| echoDelay := 100;
     metrics := {| erle := 0; snr := 0; rea := 0; latency := 0; convergence := 0 |} |}.

(** The processor together with the number of [performance.now()] calls
    made so far. *)
Record Runtime := mkRuntime {
  this : AudioProcessor;
  perf_reads : nat
}.

Definition set_erle (v : R) (m : Metrics) : Metrics :=
  {| erle := v; snr := snr m; rea := rea m; latency := latency m; convergence := convergence m |}.
Definition set_snr (v : R) (m : Metrics) : Metrics :=
  {| erle := erle m; snr := v; rea := rea m; latency := latency m; convergence := convergence m |}.
Definition set_rea (v : R) (m : Metrics) : Metrics :=
  {| erle := erle m; snr := snr m; rea := v; latency := latency m; convergence := convergence m |}.
Definition set_latency (v : R) (m : Metrics) : Metrics :=
  {| erle := erle m; snr := snr m; rea := rea m; latency := v; convergence := convergence m |}.
Definition set_convergence (v : R) (m : Metrics) : Metrics :=
  {| erle := erle m; snr := snr m; rea := rea m; latency := latency m; convergence := v |}.

(** [this.metrics.f = v] *)
Definition update_metrics (f : Metrics -> Metrics) (rt : Runtime) : Runtime :=
  {| this := {| echoDelay := echoDelay (this rt); metrics := f (metrics (this rt)) |};
     perf_reads := perf_reads rt |}.


Definition getMetrics (rt : Runtime) : Metrics := metrics (this rt).

Definition log10 (x : R) : R := ln x / ln 10.

(** ** Metrics engine *)

(** The sums of squares are exact.  The sums of the program are rounded to
    binary64 at every addition, so a term far below the sum it is added to
    is absorbed; and the frame test of [calculateSNR] is decided on the
    rounded sum, which can fall on the other side of the threshold when
    the exact sum is within a rounding error of [0.005]. *)
Definition calculateERLE (original processed : list R) : R :=
  let chunkSize := 256%nat in
  let '(sumOriginalSquared, sumProcessedSquared) :=
    for_stride (length original) 0 (length original) chunkSize
      (fun i =>
         let end_ := Nat.min (i + chunkSize) (length original) in
         for_range i end_
           (fun j '(sumO, sumP) =>
              let origVal := original !!! j in
              let procVal := processed !!! j in
              (sumO + origVal * origVal, sumP + procVal * procVal)))
      (0, 0) in
  let noiseFloor := 1e-12 in
  10 * log10 ((sumOriginalSquared + noiseFloor) / (sumProcessedSquared + noiseFloor)).

Definition calculateSNR (signal : list R) : R :=
  let frameSize := 128%nat in
  let '(signalPower, noisePower) :=
    for_stride (length signal) 0 (length signal) frameSize
      (fun i '(signalPower, noisePower) =>
         let end_ := Nat.min (i + frameSize) (length signal) in
         let framePower :=
           for_range i end_ (fun j fp => fp + signal !!! j * signal !!! j) 0 in
         if bool_decide (framePower > 0.005)
         then (signalPower + framePower, noisePower)
         else (signalPower, noisePower + framePower))
      (0, 0) in
  10 * log10 ((signalPower + 1e-10) / (noisePower + 1e-10)).

(** The accumulators are kept in the order the source declares them:
    [(sumProcessedSquared, sumOriginalSquared)]. *)
Definition calculateREA (original processed : list R) : R :=
  let chunkSize := 256%nat in
  let '(sumProcessedSquared, sumOriginalSquared) :=
    for_stride (length original) 0 (length original) chunkSize
      (fun i =>
         let end_ := Nat.min (i + chunkSize) (length original) in
         for_range i end_
           (fun j '(sumP, sumO) =>
              let origVal := original !!! j in
              let procVal := processed !!! j in
              (sumP + procVal * procVal, sumO + origVal * origVal)))
      (0, 0) in
  let noiseFloor := 1e-12 in
  20 * log10 ((sumOriginalSquared + noiseFloor) / (sumProcessedSquared + noiseFloor)).

(** ** Echo synthesizer *)

(** In exact arithmetic: the floor is that of the exact product, and the
    sum stored is the exact sum.  The program floors the product rounded to
    binary64 and stores the sum rounded to binary32; module [IEEE] has the
    synthesizer with these roundings. *)
Definition delayInSamples (delay : R) : Z := Zfloor (delay * 44.1).

Definition addEcho_sample (audioData : list R) (delay : Z) (intensity : R)
           (j : nat) (output : list R) : list R :=
  let output := <[j := audioData !!! j]> output in
  if (delay <=? Z.of_nat j)%Z
  then <[j := output !!! j
              + audioData !!! Z.to_nat (Z.of_nat j - delay) * intensity]> output
  else output.

Definition addEcho_output (delay : R) (audioData : list R) : list R :=
  let delayInSamples := delayInSamples delay in
  let intensity := echoIntensity / 100 in
  let output := new_Float32Array (length audioData) in
  let chunkSize := 256%nat in
  for_stride (length audioData) 0 (length audioData) chunkSize
    (fun i =>
       let end_ := Nat.min (i + chunkSize) (length audioData) in
       for_range i end_ (addEcho_sample audioData delayInSamples intensity))
    output.

(** ** Emphasis filter pair *)

Definition alpha : R := 0.95.

Definition applyPreProcessing (input : list R) : list R :=
  let output := new_Float32Array (length input) in
  let output := <[0%nat := input !!! 0%nat]> output in
  for_range 1 (length input)
    (fun i output => <[i := input !!! i - alpha * input !!! (i - 1)%nat]> output)
    output.

Definition applyPostProcessing (input : list R) : list R :=
  let output := new_Float32Array (length input) in
  let output := <[0%nat := input !!! 0%nat]> output in
  for_range 1 (length input)
    (fun i output => <[i := input !!! i + alpha * output !!! (i - 1)%nat]> output)
    output.

(** ** Kalman denoiser *)

Record Kalman := mkKalman {
  k_output : list R;
  estimate : R;
  errorCovariance : R
}.

Definition processNoise : R := 0.00001.

(** [errorCovariance += processNoise] *)
Definition kalman_predict (errorCovariance : R) : R := errorCovariance + processNoise.

Definition kalman_sample (input : list R) (j : nat) (st : Kalman) : Kalman :=
  let prediction := estimate st in
  let errorCovariance := kalman_predict (errorCovariance st) in
  let gain := errorCovariance / (errorCovariance + kalmanGain) in
  let estimate := prediction + gain * (input !!! j - prediction) in
  let errorCovariance := (1 - gain) * errorCovariance in
  {| k_output := <[j := estimate]> (k_output st);
     estimate := estimate;
     errorCovariance := errorCovariance |}.

Definition kalman_init (input : list R) : Kalman :=
  {| k_output := new_Float32Array (length input);
     estimate := 0;
     errorCovariance := 0.1 |}.

Definition kalman_run (input : list R) : Kalman :=
  let chunkSize := 256%nat in
  for_stride (length input) 0 (length input) chunkSize
    (fun i =>
       let end_ := Nat.min (i + chunkSize) (length input) in
       for_range i end_ (kalman_sample input))
    (kalman_init input).

Definition applyKalmanFilter (input : list R) : list R := k_output (kalman_run input).

(** ** NLMS canceller *)

Definition convergenceThreshold : R := 0.0005.
Definition stabilityFactor : R := 1e-8.
Definition chunkSize : nat := 128.

(** [for (k = 0; k < filterLength; k++) y += weights[k] * buffer[k]] *)
Definition nlms_predict (weights buffer : list R) : R :=
  for_range 0 filterLength (fun k y => y + weights !!! k * buffer !!! k) 0.

(** [for (k = 0; k < filterLength; k++) powerSpectrum += buffer[k] * buffer[k]] *)
Definition nlms_power (buffer : list R) : R :=
  for_range 0 filterLength (fun k p => p + buffer !!! k * buffer !!! k) 0.

(** [for (k = 0; k < filterLength; k++)
       weights[k] += normalizedStepSize * error * buffer[k]] *)
Definition nlms_adapt (normalizedStepSize error : R) (buffer weights : list R) : list R :=
  for_range 0 filterLength
    (fun k weights => <[k := weights !!! k + normalizedStepSize * error * buffer !!! k]> weights)
    weights.

(** The locals of one [applyNLMSFilter] call; [nlms_rt] is the processor,
    whose [metrics.convergence] the loop writes. *)
Record NLMS := mkNLMS {
  output : list R;
  weights : list R;
  buffer : list R;
  converged : bool;
  processingBuffer : list R;
  nlms_rt : Runtime
}.

(** [buffer.copyWithin(1, 0); buffer[0] = processingBuffer[j]] *)
Definition shifted_buffer (st : NLMS) (j : nat) : list R :=
  <[0%nat := processingBuffer st !!! j]> (copyWithin_1_0 (buffer st)).

(** The prediction [y] of the step at [j]. *)
Definition sample_y (st : NLMS) (j : nat) : R :=
  nlms_predict (weights st) (shifted_buffer st j).

(** [const error = processingBuffer[j] - y] *)
Definition sample_error (st : NLMS) (j : nat) : R :=
  processingBuffer st !!! j - sample_y st j.

(** The divisor [powerSpectrum + stabilityFactor] of the step at [j]. *)
Definition sample_denominator (st : NLMS) (j : nat) : R :=
  nlms_power (shifted_buffer st j) + stabilityFactor.

Section Timed.
(** [now k] is what the [k]-th call of [performance.now()] returns. *)
Variable now : nat -> R.

Definition performance_now (rt : Runtime) : R * Runtime :=
  (now (perf_reads rt), {| this := this rt; perf_reads := S (perf_reads rt) |}).

(** The body of the loop over [j] in [applyNLMSFilter]. *)
Definition nlms_sample (startTime : R) (i j : nat) (st : NLMS) : NLMS :=
  let buffer := shifted_buffer st j in
  let y := sample_y st j in
  let error := sample_error st j in
  let output := <[(i + j)%nat := y]> (output st) in
  let normalizedStepSize := nlmsStepSize / sample_denominator st j in
  let weights := nlms_adapt normalizedStepSize error buffer (weights st) in
  if negb (converged st) && bool_decide (Rabs error < convergenceThreshold)
  then
    let '(t, rt) := performance_now (nlms_rt st) in
    {| output := output; weights := weights; buffer := buffer;
       converged := true;
       processingBuffer := processingBuffer st;
       nlms_rt := update_metrics (set_convergence (t - startTime)) rt |}
  else
    {| output := output; weights := weights; buffer := buffer;
       converged := converged st;
       processingBuffer := processingBuffer st;
       nlms_rt := nlms_rt st |}.

(** [processingBuffer.fill(0)] and the copy of [input[i .. end)] into it. *)
Definition fill_processingBuffer (input : list R) (i end_ : nat)
           (processingBuffer : list R) : list R :=
  for_range 0 (end_ - i)
    (fun j pb => <[j := input !!! (i + j)%nat]> pb)
    (replicate (length processingBuffer) 0).

(** The body of the loop over [i] in [applyNLMSFilter]. *)
Definition nlms_chunk (startTime : R) (input : list R) (i : nat) (st : NLMS) : NLMS :=
  let end_ := Nat.min (i + chunkSize) (length input) in
  let st :=
    {| output := output st; weights := weights st; buffer := buffer st;
       converged := converged st;
       processingBuffer := fill_processingBuffer input i end_ (processingBuffer st);
       nlms_rt := nlms_rt st |} in
  for_range 0 chunkSize (nlms_sample startTime i) st.

Definition nlms_init (input : list R) (rt : Runtime) : NLMS :=
  {| output := new_Float32Array (length input);
     weights := replicate filterLength 0;
     buffer := replicate filterLength 0;
     converged := false;
     processingBuffer := new_Float32Array (chunkSize + filterLength);
     nlms_rt := rt |}.

(** The state when the loop over [i] has ended. *)
Definition nlms_run (startTime : R) (input : list R) (rt : Runtime) : NLMS :=
  let overlapSize := (chunkSize / overlapFactor)%nat in
  for_stride (length input) 0 (length input) (chunkSize - overlapSize)
    (nlms_chunk startTime input) (nlms_init input rt).

Definition applyNLMSFilter (input : list R) (rt : Runtime) : list R * Runtime :=
  let '(startTime, rt) := performance_now rt in
  let st := nlms_run startTime input rt in
  let rt :=
    if converged st then nlms_rt st
    else
      let '(t, rt) := performance_now (nlms_rt st) in
      update_metrics (set_convergence (t - startTime)) rt in
  (output st, rt).

(** ** Top-level operations *)

Definition addEcho (audioData : list R) (rt : Runtime) : list R * Runtime :=
  let '(startTime, rt) := performance_now rt in
  let output := addEcho_output (echoDelay (this rt)) audioData in
  let '(t, rt) := performance_now rt in
  (output, update_metrics (set_latency (t - startTime)) rt).

Definition removeEcho (audioData : list R) (rt : Runtime) : list R * Runtime :=
  let '(startTime, rt) := performance_now rt in
  let preProcessed := applyPreProcessing audioData in
  let '(processed, rt) := applyNLMSFilter preProcessed rt in
  let postProcessed := applyPostProcessing processed in
  let erle := calculateERLE audioData postProcessed in
  let rea := calculateREA audioData postProcessed in
  let rt := update_metrics (set_erle erle) rt in
  let rt := update_metrics (set_rea rea) rt in
  let '(t, rt) := performance_now rt in
  (postProcessed, update_metrics (set_latency (t - startTime)) rt).

Definition processNoiseAndEcho (audioData : list R) (rt : Runtime) : list R * Runtime :=
  let '(startTime, rt) := performance_now rt in
  let preProcessed := applyPreProcessing audioData in
  let denoised := applyKalmanFilter preProcessed in
  let '(processed, rt) := applyNLMSFilter denoised rt in
  let postProcessed := applyPostProcessing processed in
  let snr := calculateSNR audioData in
  let erle := calculateERLE audioData postProcessed in
  let rea := calculateREA audioData postProcessed in
  let rt := update_metrics (set_snr snr) rt in
  let rt := update_metrics (set_erle erle) rt in
  let rt := update_metrics (set_rea rea) rt in
  let '(t, rt) := performance_now rt in
  (postProcessed, update_metrics (set_latency (t - startTime)) rt).
End Timed.

(** ** The per-sample recursion in the specification's words

    Section 4.4 of the specification, steps 1 to 6, on lists: the state is
    the weight vector and the tapped delay line, most recent sample first. *)

(** [Σ_k u[k] · v[k]] *)
Definition dot (u v : list R) : R := foldr Rplus 0 (zip_with Rmult u v).

Record AdaptiveFilterState := mkAdaptive {
  af_weights : list R;
  af_buffer : list R
}.

Definition adaptive_init : AdaptiveFilterState :=
  {| af_weights := replicate filterLength 0; af_buffer := replicate filterLength 0 |}.

(** What one sample yields: the prediction [y] and the error [x - y]. *)
Record Prediction := mkPrediction {
  p_y : R;
  p_error : R
}.

Definition lms_step (x : R) (s : AdaptiveFilterState) : Prediction * AdaptiveFilterState :=
  (* 1. shift the buffer right by one, insert [x] at position 0 *)
  let buffer := x :: take (length (af_buffer s) - 1) (af_buffer s) in
  (* 2. the filter prediction *)
  let y := dot (af_weights s) buffer in
  (* 3. the prediction error *)
  let error := x - y in
  (* 4. the input power *)
  let power := dot buffer buffer in
  (* 5. the normalized step size *)
  let stepSize := nlmsStepSize / (power + stabilityFactor) in
  (* 6. the weight update *)
  let weights := zip_with (fun w b => w + stepSize * error * b) (af_weights s) buffer in
  ({| p_y := y; p_error := error |}, {| af_weights := weights; af_buffer := buffer |}).

(** The state after the samples [xs], each taken once and in order. *)
Definition lms_state (s : AdaptiveFilterState) (xs : list R) : AdaptiveFilterState :=
  fold_left (fun s x => (lms_step x s).2) xs s.

(** The samples emitted for [input], each taken once and in order. *)
Fixpoint lms_recursion (emit : Prediction -> R) (s : AdaptiveFilterState)
         (input : list R) : list R :=
  match input with
  | [] => []
  | x :: rest => emit (lms_step x s).1 :: lms_recursion emit (lms_step x s).2 rest
  end.

(** The recursion as the specification has it: step 3 emits the error. *)
Definition recursion_errors (input : list R) : list R :=
  lms_recursion p_error adaptive_init input.

(** The same recursion emitting the prediction [y]. *)
Definition recursion_predictions (input : list R) : list R :=
  lms_recursion p_y adaptive_init input.

(** The weights and the delay line of the canceller's state. *)
Definition adaptive_state (st : NLMS) : AdaptiveFilterState :=
  {| af_weights := weights st; af_buffer := buffer st |}.

(** The [chunkSize] samples one pass of the outer loop runs through: the
    input from [i] on, followed by zeros where the input has ended. *)
Definition window (input : list R) (i : nat) : list R :=
  take chunkSize (drop i input ++ replicate chunkSize 0).

(** ** Notions the statements use *)

(** A processor just constructed, before any [performance.now()]. *)
Definition fresh_runtime : Runtime :=
  {| this := new_AudioProcessor; perf_reads := 0 |}.

(** The state of the denoiser when [j] is [k]: before the step at [k] and
    after the one at [k - 1]. *)
Definition kalman_state_at (input : list R) (k : nat) : Kalman :=
  for_range 0 k (kalman_sample input) (kalman_init input).

(** The two sums of squares of [calculateERLE]. *)
Definition energy_sums (original processed : list R) : R * R :=
  for_range 0 (length original)
    (fun j '(sumO, sumP) =>
       (sumO + original !!! j * original !!! j,
        sumP + processed !!! j * processed !!! j))
    (0, 0).

(** The shape of the arrays never changes. *)
Definition nlms_shape (n : nat) (st : NLMS) : Prop :=
  length (output st) = n /\
  length (weights st) = filterLength /\
  length (buffer st) = filterLength /\
  length (processingBuffer st) = (chunkSize + filterLength)%nat.

(** Every element read from [v] is zero. *)
Definition all_zero (v : list R) : Prop := forall k, v !!! k = 0.

(** The canceller's state on a silent signal: all of it is zero. *)
Definition nlms_silent (n : nat) (st : NLMS) : Prop :=
  nlms_shape n st /\
  all_zero (weights st) /\ all_zero (buffer st) /\
  all_zero (output st) /\ all_zero (processingBuffer st).

(** Ninety-six zeros and then a one: the shortest kind of signal whose
    last sample the outer loop runs through twice. *)
Definition impulse_at_stride : list R := replicate 96 0 ++ [1].

(** The step size of a step whose delay line holds a single one. *)
Definition unit_step_size : R := nlmsStepSize / (1 + stabilityFactor).

(** The zero-initialized state of a filter of length [m]. *)
Definition zero_state (m : nat) : AdaptiveFilterState :=
  mkAdaptive (replicate m 0) (replicate m 0).

(** The state after the impulse: one weight has moved. *)
Definition after_impulse (b : list R) : AdaptiveFilterState :=
  mkAdaptive (unit_step_size :: replicate (filterLength - 1) 0) b.

(** The state in which the first per-sample step of a run on [input]
    starts: the initial state, the processing buffer filled. *)
Definition first_step_state (input : list R) (rt : Runtime) : NLMS :=
  let st := nlms_init input rt in
  mkNLMS (output st) (weights st) (buffer st) (converged st)
    (fill_processingBuffer input 0 (Nat.min (0 + chunkSize) (length input))
       (processingBuffer st))
    (nlms_rt st).

(** ** Energies *)

(** [Σ_j l[j]²] *)
Definition energy (l : list R) : R := foldr Rplus 0 ((fun x => x * x) <$> l).

(** The energy of the samples [lo .. hi) the way the loops add it up. *)
Definition partial_energy (signal : list R) (lo hi : nat) : R :=
  for_range lo hi (fun j fp => fp + signal !!! j * signal !!! j) 0.

(** [signalPower] and [noisePower] when the loop of [calculateSNR] ends. *)
Definition snr_powers (signal : list R) : R * R :=
  let frameSize := 128%nat in
  for_stride (length signal) 0 (length signal) frameSize
    (fun i '(signalPower, noisePower) =>
       let end_ := Nat.min (i + frameSize) (length signal) in
       let framePower :=
         for_range i end_ (fun j fp => fp + signal !!! j * signal !!! j) 0 in
       if bool_decide (framePower > 0.005)
       then (signalPower + framePower, noisePower)
       else (signalPower, noisePower + framePower))
    (0, 0).

(** ** The passes of a strided loop *)

(** The counters [i], [i + stride], ... below [hi]: where a strided loop
    runs its body. *)
Definition stride_starts (i hi stride : nat) : list nat :=
  (fun q => (i + q * stride)%nat) <$> seq 0 ((hi - i + stride - 1) / stride).

(** All the samples the NLMS stage runs through its filter, in order: the
    windows of its passes, one after the other. *)
Definition nlms_feed (input : list R) : list R :=
  concat (window input <$>
            stride_starts 0 (length input) (chunkSize - chunkSize / overlapFactor)).

(** ** The WAV encoder of [AudioProcessor.tsx]

    An [ArrayBuffer] is the list of its bytes, each an integer of
    [0 .. 255].  The setters of a [DataView] raise a [RangeError] when the
    write would pass the end of the buffer: they return [None] then.  An
    [Int16Array] over the buffer stores in the byte order of the platform,
    taken to be little-endian here, and like every typed array ignores a
    write past its end. *)

(** What [audioBufferToWav] reads of an [AudioBuffer]; [buffer.length] is
    the length of channel 0. *)
Record AudioBuffer := mkAudioBuffer {
  numberOfChannels : nat;
  sampleRate : R;
  channelData0 : list R
}.

(** Truncation toward zero, the first step of the conversion of a number
    to an integer type. *)
Definition truncate (x : R) : Z :=
  if Rlt_dec x 0 then (- Zfloor (- x))%Z else Zfloor x.

(** [ToUint8], [ToUint16], [ToUint32] *)
Definition ToUint (bits : Z) (x : R) : Z := (truncate x mod 2 ^ bits)%Z.

Definition ToInt16 (x : R) : Z :=
  let u := ToUint 16 x in
  if (u <? 32768)%Z then u else (u - 65536)%Z.

(** The [count] low bytes of [u], lowest first. *)
Definition le_bytes (count : nat) (u : Z) : list Z :=
  (fun k => (u / 256 ^ Z.of_nat k) mod 256)%Z <$> seq 0 count.

(** The bytes an unsigned little-endian field of [size] bytes holds for the
    number [v]. *)
Definition field_bytes (size : nat) (v : R) : list Z :=
  le_bytes size (ToUint (8 * Z.of_nat size) v).

(** [view.setUint8(offset, v)], [view.setUint16(offset, v, true)] and
    [view.setUint32(offset, v, true)] for [size] 1, 2 and 4. *)
Definition DataView_set (size offset : nat) (v : R) (buf : list Z) : option (list Z) :=
  if (offset + size <=? length buf)%nat
  then Some (list_inserts offset (field_bytes size v) buf)
  else None.

(** [string.charCodeAt(i)] for [i] below the length of the string. *)
Definition charCodeAt (str : string) (i : nat) : R :=
  match String.get i str with
  | Some c => IZR (Z.of_nat (nat_of_ascii c))
  | None => 0
  end.

Definition writeString (offset : nat) (str : string) (buf : list Z) : option (list Z) :=
  for_range 0 (String.length str)
    (fun i acc => acc ≫= DataView_set 1 (offset + i) (charCodeAt str i))
    (Some buf).

(** [data[i] = v] for [data = new Int16Array(wav, byteOffset)]. *)
Definition Int16Array_set (byteOffset i : nat) (v : R) (buf : list Z) : list Z :=
  if (i <? (length buf - byteOffset) / 2)%nat
  then list_inserts (byteOffset + 2 * i) (le_bytes 2 (ToInt16 v mod 65536)%Z) buf
  else buf.

(** Clipping to [-1, 1] and scaling to the 16-bit range. *)
Definition pcm_scale (x : R) : R :=
  let sample := Rmax (-1) (Rmin 1 x) in
  if Rlt_dec sample 0 then sample * 32768 else sample * 32767.

Definition audioBufferToWav (buffer : AudioBuffer) : option (list Z) :=
  let numChannels := numberOfChannels buffer in
  let sampleRate := sampleRate buffer in
  let format := 1 in
  let bitDepth := 16%nat in
  let bytesPerSample := (bitDepth / 8)%nat in
  let blockAlign := (numChannels * bytesPerSample)%nat in
  let buffer_length := length (channelData0 buffer) in
  let wav := replicate (44 + buffer_length * blockAlign) 0%Z in
  wav ← writeString 0 "RIFF" wav;
  wav ← DataView_set 4 4 (IZR (Z.of_nat (36 + buffer_length * blockAlign))) wav;
  wav ← writeString 8 "WAVE" wav;
  wav ← writeString 12 "fmt " wav;
  wav ← DataView_set 4 16 16 wav;
  wav ← DataView_set 2 20 format wav;
  wav ← DataView_set 2 22 (IZR (Z.of_nat numChannels)) wav;
  wav ← DataView_set 4 24 sampleRate wav;
  wav ← DataView_set 4 28 (sampleRate * IZR (Z.of_nat blockAlign)) wav;
  wav ← DataView_set 2 32 (IZR (Z.of_nat blockAlign)) wav;
  wav ← DataView_set 2 34 (IZR (Z.of_nat bitDepth)) wav;
  wav ← writeString 36 "data" wav;
  wav ← DataView_set 4 40 (IZR (Z.of_nat (buffer_length * blockAlign))) wav;
  let offset := 44%nat in
  (* new Int16Array(wav, offset) needs an even number of bytes from offset on *)
  if negb ((length wav - offset) mod 2 =? 0)%nat || negb (offset <=? length wav)%nat
  then None
  else
    Some (for_range 0 buffer_length
            (fun i wav => Int16Array_set offset i (pcm_scale (channelData0 buffer !!! i)) wav)
            wav).

(** The bytes [writeString] stores for [str]. *)
Definition string_bytes (str : string) : list Z :=
  concat ((fun i => field_bytes 1 (charCodeAt str i)) <$> seq 0 (String.length str)).

(** The 44 bytes of the header. *)
Definition wav_header (buffer : AudioBuffer) : list Z :=
  let blockAlign := (numberOfChannels buffer * 2)%nat in
  let dataBytes := (length (channelData0 buffer) * blockAlign)%nat in
  string_bytes "RIFF"
  ++ field_bytes 4 (IZR (Z.of_nat (36 + dataBytes)))
  ++ string_bytes "WAVE"
  ++ string_bytes "fmt "
  ++ field_bytes 4 16
  ++ field_bytes 2 1
  ++ field_bytes 2 (IZR (Z.of_nat (numberOfChannels buffer)))
  ++ field_bytes 4 (sampleRate buffer)
  ++ field_bytes 4 (sampleRate buffer * IZR (Z.of_nat blockAlign))
  ++ field_bytes 2 (IZR (Z.of_nat blockAlign))
  ++ field_bytes 2 (IZR (Z.of_nat 16))
  ++ string_bytes "data"
  ++ field_bytes 4 (IZR (Z.of_nat dataBytes)).

(** The two bytes of every sample of channel 0, in order. *)
Definition wav_samples (buffer : AudioBuffer) : list Z :=
  concat ((fun x => le_bytes 2 (ToInt16 (pcm_scale x) mod 65536)%Z)
            <$> channelData0 buffer).

(** The integer a sequence of bytes stands for, lowest byte first. *)
Definition le_value (bytes : list Z) : Z :=
  foldr (fun b acc => b + 256 * acc)%Z 0%Z bytes.

(** The 16-bit sample [audioBufferToWav] stores for [x]. *)
Definition pcm16 (x : R) : Z := ToInt16 (pcm_scale x).

(** ** The handlers of [AudioProcessor.tsx]

    What [handleAddEcho] and [handleProcess] compute between the decoding
    of the audio (the [AudioBuffer] they get from [decodeAudioData]) and
    the update of the display: the calls on a processor constructed for
    the occasion, the encoding of the result, and the metrics read back.
    An exception is caught by the handler, which then sets nothing:
    [None].  [reads] is the number of [performance.now()] calls the worker
    has made before. *)

Inductive Mode := mode_echo | mode_noise_echo.


Definition handleProcess (now : nat -> R) (reads : nat) (mode : Mode)
           (audioBuffer : AudioBuffer) : option (list Z * Metrics) :=
  let audioData := channelData0 audioBuffer in
  let processor := {| this := new_AudioProcessor; perf_reads := reads |} in
  let '(processedData, processor) :=
    match mode with
    | mode_echo => removeEcho now audioData processor
    | mode_noise_echo => processNoiseAndEcho now audioData processor
    end in
  let processedBuffer :=
    {| numberOfChannels := 1; sampleRate := sampleRate audioBuffer;
       channelData0 := processedData |} in
  processedWav ← audioBufferToWav processedBuffer;
  let newMetrics := getMetrics processor in
  Some (processedWav, newMetrics).

(** ** Reading a file back *)

(** A byte of an [ArrayBuffer]. *)
Definition is_byte (b : Z) : Prop := (0 <= b < 256)%Z.

(** The [size] bytes of a file from [offset] on. *)
Definition wav_field (offset size : nat) (wav : list Z) : list Z :=
  take size (drop offset wav).

(** The signed 16-bit integer two bytes stand for, lowest byte first. *)
Definition int16_value (bytes : list Z) : Z :=
  let u := le_value bytes in
  if (u <? 32768)%Z then u else (u - 65536)%Z.

(** * The echo synthesizer in the arithmetic of the program

    [addEcho] once more, this time bit for bit.  A number is a
    floating-point datum of the Standard Library's [SpecFloat]: a signed
    zero, a signed infinity, NaN, or a sign, a mantissa and an exponent,
    [(-1)^s * m * 2^e].  The operators of JavaScript are the operations of
    binary64 (53 bits of mantissa, exponents below 1024), which round to
    nearest, ties to even.  An element of a [Float32Array] is a binary32
    datum (24 bits, exponents below 128): reading it widens it to binary64,
    which is exact, and storing a number rounds it to binary32
    ([Math.fround]).  The [undefined] of a read past the end of an array
    becomes NaN in arithmetic, and so does the missing element of the
    total lookup [!!!]. *)

Module IEEE.

Definition float : Type := spec_float.

#[global] Instance float_inhabited : Inhabited float := populate S754_nan.

(** [x * y], [x + y], [x / y] *)
Definition mul : float -> float -> float := SFmul 53 1024.
Definition add : float -> float -> float := SFadd 53 1024.
Definition div : float -> float -> float := SFdiv 53 1024.

(** An integer literal. *)
Definition of_Z (z : Z) : float := binary_normalize 53 1024 z 0 false.

(** The number read from an element of a [Float32Array]. *)
Definition widen (x : float) : float :=
  match x with
  | S754_finite s m e => binary_round 53 1024 s m e
  | _ => x
  end.

(** The element a [Float32Array] stores for a number: [Math.fround]. *)
Definition fround (x : float) : float :=
  match x with
  | S754_finite s m e => binary_round 24 128 s m e
  | _ => x
  end.

(** The data a [Float32Array] can hold: what is stored unchanged. *)
Definition float32 (x : float) : Prop := fround (widen x) = x.

(** The real number a datum stands for ([0] for what stands for none). *)
Definition value (x : float) : R :=
  match x with
  | S754_finite s m e =>
      IZR (cond_Zopp s (Zpos m))
      * (if (0 <=? e)%Z then IZR (2 ^ e) else / IZR (2 ^ (- e)))
  | _ => 0
  end.

(** [0.5], and the decimal literal [44.1], which denotes the binary64
    number nearest to it, the correctly rounded quotient [441 / 10]. *)
Definition half : float := S754_finite false 4503599627370496 (-53).
Definition literal_44_1 : float := div (of_Z 441) (of_Z 10).

Definition echoIntensity : float := of_Z 50.

(** A number that is finite and not negative. *)
Definition finite_nonneg (x : float) : Prop :=
  match x with
  | S754_zero _ | S754_finite false _ _ => True
  | _ => False
  end.

(** The result of [Math.floor], as far as it is used: an integer, an
    infinity or NaN. *)
Inductive Delay :=
| delay_samples (d : Z)
| delay_infinite (negative : bool)
| delay_nan.

Definition Math_floor (x : float) : Delay :=
  match x with
  | S754_zero _ => delay_samples 0
  | S754_infinity s => delay_infinite s
  | S754_nan => delay_nan
  | S754_finite s m e =>
      delay_samples
        (if (0 <=? e)%Z
         then cond_Zopp s (Zpos m) * 2 ^ e
         else cond_Zopp s (Zpos m) / 2 ^ (- e))%Z
  end.

Definition delayInSamples (echoDelay : float) : Delay :=
  Math_floor (mul echoDelay literal_44_1).

(** [j >= delayInSamples] *)
Definition reached (j : nat) (delay : Delay) : bool :=
  match delay with
  | delay_samples d => (d <=? Z.of_nat j)%Z
  | delay_infinite negative => negative
  | delay_nan => false
  end.

(** [audioData[j - delayInSamples]], evaluated only where
    [j >= delayInSamples]: the element if there is one, and [undefined]
    past the end of the array or at no index at all. *)
Definition delayed (audioData : list float) (j : nat) (delay : Delay) : float :=
  match delay with
  | delay_samples d => widen (audioData !!! Z.to_nat (Z.of_nat j - d))
  | _ => S754_nan
  end.

Definition addEcho_sample (audioData : list float) (delay : Delay) (intensity : float)
           (j : nat) (output : list float) : list float :=
  let output := <[j := fround (widen (audioData !!! j))]> output in
  if reached j delay
  then <[j := fround (add (widen (output !!! j))
                          (mul (delayed audioData j delay) intensity))]> output
  else output.

(** The signal [addEcho] returns when [this.echoDelay] is [echoDelay]. *)
Definition addEcho_output (echoDelay : float) (audioData : list float) : list float :=
  let delayInSamples := delayInSamples echoDelay in
  let intensity := div echoIntensity (of_Z 100) in
  let output := replicate (length audioData) (S754_zero false) in
  let chunkSize := 256%nat in
  for_stride (length audioData) 0 (length audioData) chunkSize
    (fun i =>
       let end_ := Nat.min (i + chunkSize) (length audioData) in
       for_range i end_ (addEcho_sample audioData delayInSamples intensity))
    output.

(** A decimal literal [n * 10^-k] of at most 15 digits. *)
Definition decimal (n : Z) (k : positive) : float :=
  div (of_Z n) (of_Z (10 ^ Zpos k)).

End IEEE.

(** * Properties *)

(** ** The loops *)

Section LoopFacts.
Context {St : Type}.
Implicit Types (body : nat -> St -> St) (s : St).

Lemma for_range_empty lo hi body s :
  (hi <= lo)%nat -> for_range lo hi body s = s.
Proof.
  intros Hle. unfold for_range.
  replace (hi - lo)%nat with 0%nat by lia. reflexivity.
Qed.

Lemma for_range_last lo hi body s :
  (lo <= hi)%nat ->
  for_range lo (S hi) body s = body hi (for_range lo hi body s).
Proof.
  intros Hle. unfold for_range.
  replace (S hi - lo)%nat with (S (hi - lo)) by lia.
  rewrite seq_S, fold_left_app. simpl.
  replace (lo + (hi - lo))%nat with hi by lia. reflexivity.
Qed.

Lemma for_range_first lo hi body s :
  (lo < hi)%nat ->
  for_range lo hi body s = for_range (S lo) hi body (body lo s).
Proof.
  intros Hlt. unfold for_range.
  replace (hi - lo)%nat with (S (hi - S lo)) by lia. reflexivity.
Qed.

Lemma for_range_split lo mid hi body s :
  (lo <= mid)%nat -> (mid <= hi)%nat ->
  for_range lo hi body s = for_range mid hi body (for_range lo mid body s).
Proof.
  intros H1 H2. unfold for_range.
  replace (hi - lo)%nat with ((mid - lo) + (hi - mid))%nat by lia.
  rewrite seq_app, fold_left_app.
  replace (lo + (mid - lo))%nat with mid by lia. reflexivity.
Qed.

(** The loop invariant rule: [P k] holds of the state when the counter
    is [k]. *)
Lemma for_range_ind (P : nat -> St -> Prop) lo hi body s :
  (lo <= hi)%nat ->
  P lo s ->
  (forall k t, (lo <= k < hi)%nat -> P k t -> P (S k) (body k t)) ->
  P hi (for_range lo hi body s).
Proof.
  intros Hle H0 Hstep. induction hi as [|hi IH].
  - replace lo with 0%nat in * by lia. rewrite for_range_empty by lia. exact H0.
  - destruct (decide (lo = S hi)) as [->|Hne].
    + rewrite for_range_empty by lia. exact H0.
    + rewrite for_range_last by lia. apply Hstep; [lia|].
      apply IH; [lia|]. intros k t Hk. apply Hstep. lia.
Qed.

Lemma for_range_ext lo hi body body' s :
  (forall k t, (lo <= k < hi)%nat -> body k t = body' k t) ->
  for_range lo hi body s = for_range lo hi body' s.
Proof.
  intros Hext. destruct (le_lt_dec lo hi) as [Hle|Hlt].
  - apply (for_range_ind
             (fun k t => t = for_range lo k body' s) lo hi body s Hle).
    + rewrite for_range_empty by lia. reflexivity.
    + intros k t Hk ->. rewrite for_range_last by lia. apply Hext, Hk.
  - rewrite !for_range_empty by lia. reflexivity.
Qed.

(** With a stride of at least one, [hi - i] iterations are enough: the
    loop has left through its test, and more fuel changes nothing. *)
Lemma for_stride_fuel fuel fuel' i hi stride body s :
  (0 < stride)%nat -> (hi - i <= fuel)%nat -> (hi - i <= fuel')%nat ->
  for_stride fuel i hi stride body s = for_stride fuel' i hi stride body s.
Proof.
  intros Hs. revert fuel' i s.
  induction fuel as [|fuel IH]; intros fuel' i s Hf Hf'.
  - destruct fuel' as [|fuel']; [reflexivity|]. simpl.
    destruct (Nat.ltb_spec i hi); [lia|reflexivity].
  - destruct fuel' as [|fuel']; simpl.
    + destruct (Nat.ltb_spec i hi); [lia|reflexivity].
    + destruct (Nat.ltb_spec i hi); [|reflexivity].
      apply IH; lia.
Qed.

Lemma for_stride_done fuel i hi stride body s :
  (hi <= i)%nat -> for_stride fuel i hi stride body s = s.
Proof.
  intros Hle. destruct fuel as [|fuel]; [reflexivity|]. simpl.
  destruct (Nat.ltb_spec i hi); [lia|reflexivity].
Qed.

Lemma for_stride_step fuel i hi stride body s :
  (i < hi)%nat ->
  for_stride (S fuel) i hi stride body s =
  for_stride fuel (i + stride) hi stride body (body i s).
Proof.
  intros Hlt. simpl. destruct (Nat.ltb_spec i hi); [reflexivity|lia].
Qed.

(** A loop over chunks of [c] indices whose body is the loop over the
    indices of the chunk visits every index of [i .. hi) once, in order. *)
Lemma for_stride_flat fuel i hi c body s :
  (0 < c)%nat -> (hi - i <= fuel)%nat ->
  for_stride fuel i hi c
    (fun i0 => for_range i0 (Nat.min (i0 + c) hi) body) s =
  for_range i hi body s.
Proof.
  intros Hc. revert i s. induction fuel as [|fuel IH]; intros i s Hf.
  - simpl. rewrite for_range_empty by lia. reflexivity.
  - destruct (le_lt_dec hi i) as [Hle|Hlt].
    + rewrite for_stride_done, for_range_empty by lia. reflexivity.
    + rewrite for_stride_step by lia.
      destruct (le_lt_dec hi (i + c)) as [Hend|Hend].
      * rewrite for_stride_done by lia.
        replace (Nat.min (i + c) hi) with hi by lia. reflexivity.
      * rewrite IH by lia.
        replace (Nat.min (i + c) hi) with (i + c)%nat by lia.
        symmetry. apply for_range_split; lia.
Qed.

(** The invariant rule of the strided loop; the body only runs at indices
    of [i .. hi). *)
Lemma for_stride_ind (P : St -> Prop) fuel i hi stride body s :
  P s ->
  (forall k t, (i <= k < hi)%nat -> P t -> P (body k t)) ->
  P (for_stride fuel i hi stride body s).
Proof.
  intros H0 Hstep. revert i s H0 Hstep.
  induction fuel as [|fuel IH]; intros i s H0 Hstep; simpl; [exact H0|].
  destruct (Nat.ltb_spec i hi); [|exact H0].
  apply IH; [apply Hstep; [lia|exact H0]|].
  intros k t Hk. apply Hstep. lia.
Qed.
End LoopFacts.

(** ** Echo synthesizer *)

Lemma addEcho_output_flat delay audioData :
  addEcho_output delay audioData =
  for_range 0 (length audioData)
    (addEcho_sample audioData (delayInSamples delay) (echoIntensity / 100))
    (new_Float32Array (length audioData)).
Proof. unfold addEcho_output. apply for_stride_flat; lia. Qed.

Lemma addEcho_sample_length audioData d c j out :
  length (addEcho_sample audioData d c j out) = length out.
Proof.
  unfold addEcho_sample. destruct (d <=? Z.of_nat j)%Z;
    rewrite ?length_insert; reflexivity.
Qed.

Lemma addEcho_sample_other audioData d c j out i :
  i <> j -> addEcho_sample audioData d c j out !!! i = out !!! i.
Proof.
  intros Hne. unfold addEcho_sample. destruct (d <=? Z.of_nat j)%Z;
    rewrite ?list_lookup_total_insert_ne by congruence; reflexivity.
Qed.

Lemma addEcho_sample_here audioData d c j out :
  (j < length out)%nat ->
  addEcho_sample audioData d c j out !!! j =
  if (d <=? Z.of_nat j)%Z
  then audioData !!! j + audioData !!! Z.to_nat (Z.of_nat j - d) * c
  else audioData !!! j.
Proof.
  intros Hj. unfold addEcho_sample. destruct (d <=? Z.of_nat j)%Z.
  - rewrite !list_lookup_total_insert_eq by (rewrite ?length_insert; lia).
    reflexivity.
  - rewrite list_lookup_total_insert_eq by lia. reflexivity.
Qed.

Lemma addEcho_output_spec delay audioData :
  let out := addEcho_output delay audioData in
  let d := delayInSamples delay in
  length out = length audioData /\
  forall i, (i < length audioData)%nat ->
    out !!! i =
    if (d <=? Z.of_nat i)%Z
    then audioData !!! i + audioData !!! Z.to_nat (Z.of_nat i - d) * (echoIntensity / 100)
    else audioData !!! i.
Proof.
  intros out d. subst out. rewrite addEcho_output_flat. fold d.
  set (n := length audioData).
  apply (for_range_ind
    (fun k out => length out = n /\
       forall i, (i < k)%nat ->
         out !!! i =
         if (d <=? Z.of_nat i)%Z
         then audioData !!! i
              + audioData !!! Z.to_nat (Z.of_nat i - d) * (echoIntensity / 100)
         else audioData !!! i)); [lia| |].
  - split; [apply length_replicate|]. intros i Hi. lia.
  - intros k t Hk [Hlen Hdone]. split.
    + rewrite addEcho_sample_length. exact Hlen.
    + intros i Hi. destruct (decide (i = k)) as [->|Hne].
      * apply addEcho_sample_here. lia.
      * rewrite addEcho_sample_other by exact Hne. apply Hdone. lia.
Qed.


(** ** Echo synthesizer, bit for bit *)

Lemma ieee_addEcho_output_flat (echoDelay : IEEE.float) (audioData : list IEEE.float) :
  IEEE.addEcho_output echoDelay audioData =
  for_range 0 (length audioData)
    (IEEE.addEcho_sample audioData (IEEE.delayInSamples echoDelay)
       (IEEE.div IEEE.echoIntensity (IEEE.of_Z 100)))
    (replicate (length audioData) (S754_zero false)).
Proof. unfold IEEE.addEcho_output. apply for_stride_flat; lia. Qed.

Lemma ieee_intensity : IEEE.div IEEE.echoIntensity (IEEE.of_Z 100) = IEEE.half.
Proof. vm_compute. reflexivity. Qed.

Lemma ieee_literal_44_1 :
  IEEE.literal_44_1 = S754_finite false 6206523236469965 (-47).
Proof. vm_compute. reflexivity. Qed.

Lemma ieee_addEcho_sample_length audioData delay c j (out : list IEEE.float) :
  length (IEEE.addEcho_sample audioData delay c j out) = length out.
Proof.
  unfold IEEE.addEcho_sample. destruct (IEEE.reached j delay);
    rewrite ?length_insert; reflexivity.
Qed.

Lemma ieee_addEcho_sample_other audioData delay c j (out : list IEEE.float) i :
  i <> j -> IEEE.addEcho_sample audioData delay c j out !!! i = out !!! i.
Proof.
  intros Hne. unfold IEEE.addEcho_sample. destruct (IEEE.reached j delay);
    rewrite ?list_lookup_total_insert_ne by congruence; reflexivity.
Qed.

Lemma ieee_addEcho_sample_here audioData delay c j (out : list IEEE.float) :
  (j < length out)%nat ->
  IEEE.addEcho_sample audioData delay c j out !!! j =
  if IEEE.reached j delay
  then IEEE.fround
         (IEEE.add (IEEE.widen (IEEE.fround (IEEE.widen (audioData !!! j))))
                   (IEEE.mul (IEEE.delayed audioData j delay) c))
  else IEEE.fround (IEEE.widen (audioData !!! j)).
Proof.
  intros Hj. unfold IEEE.addEcho_sample. destruct (IEEE.reached j delay).
  - rewrite !list_lookup_total_insert_eq by (rewrite ?length_insert; lia).
    reflexivity.
  - rewrite list_lookup_total_insert_eq by lia. reflexivity.
Qed.

(** Every sample of the output, whatever the delay. *)
Lemma ieee_addEcho_output_spec (echoDelay : IEEE.float) (audioData : list IEEE.float) :
  let out := IEEE.addEcho_output echoDelay audioData in
  let delay := IEEE.delayInSamples echoDelay in
  length out = length audioData /\
  forall i, (i < length audioData)%nat ->
    out !!! i =
    if IEEE.reached i delay
    then IEEE.fround
           (IEEE.add (IEEE.widen (IEEE.fround (IEEE.widen (audioData !!! i))))
                     (IEEE.mul (IEEE.delayed audioData i delay) IEEE.half))
    else IEEE.fround (IEEE.widen (audioData !!! i)).
Proof.
  intros out delay. subst out. rewrite ieee_addEcho_output_flat, ieee_intensity.
  fold delay. set (n := length audioData).
  apply (for_range_ind
    (fun k (out : list IEEE.float) => length out = n /\
       forall i, (i < k)%nat ->
         out !!! i =
         if IEEE.reached i delay
         then IEEE.fround
                (IEEE.add (IEEE.widen (IEEE.fround (IEEE.widen (audioData !!! i))))
                          (IEEE.mul (IEEE.delayed audioData i delay) IEEE.half))
         else IEEE.fround (IEEE.widen (audioData !!! i)))); [lia| |].
  - split; [apply length_replicate|]. intros i Hi. lia.
  - intros k t Hk [Hlen Hdone]. split.
    + rewrite ieee_addEcho_sample_length. exact Hlen.
    + intros i Hi. destruct (decide (i = k)) as [->|Hne].
      * apply ieee_addEcho_sample_here. lia.
      * rewrite ieee_addEcho_sample_other by exact Hne. apply Hdone. lia.
Qed.

Lemma float32_lookup (audioData : list IEEE.float) (i : nat) :
  Forall IEEE.float32 audioData -> (i < length audioData)%nat ->
  IEEE.fround (IEEE.widen (audioData !!! i)) = audioData !!! i.
Proof.
  intros Hall Hi. apply (Forall_lookup_1 _ _ i (audioData !!! i)) in Hall;
    [exact Hall|]. apply list_lookup_lookup_total_lt, Hi.
Qed.

(** Rounding keeps the sign: the shifts and the rounding of a mantissa
    that is not negative give one that is not negative. *)
Lemma shr_1_nonneg (mrs : shr_record) :
  (0 <= shr_m mrs)%Z -> (0 <= shr_m (shr_1 mrs))%Z.
Proof.
  destruct mrs as [m r s]. cbn [shr_m]. intros Hm. unfold shr_1.
  destruct m as [|[p|p|]|p]; cbn [shr_m]; lia.
Qed.

Lemma iter_pos_shr_1_nonneg (p : positive) (mrs : shr_record) :
  (0 <= shr_m mrs)%Z -> (0 <= shr_m (SpecFloat.iter_pos shr_1 p mrs))%Z.
Proof.
  revert mrs. induction p as [p IH|p IH|]; intros mrs Hm; cbn [SpecFloat.iter_pos].
  - apply IH, IH, shr_1_nonneg, Hm.
  - apply IH, IH, Hm.
  - apply shr_1_nonneg, Hm.
Qed.

Lemma shr_fexp_nonneg (prec emax m e : Z) (l : location) :
  (0 <= m)%Z -> (0 <= shr_m (shr_fexp prec emax m e l).1)%Z.
Proof.
  intros Hm. unfold shr_fexp, shr.
  assert (H0 : (0 <= shr_m (shr_record_of_loc m l))%Z)
    by (destruct l as [|[]]; exact Hm).
  destruct (fexp prec emax (Zdigits2 m + e) - e)%Z; cbn [fst]; [exact H0| |exact H0].
  apply iter_pos_shr_1_nonneg, H0.
Qed.

Lemma binary_round_aux_sign (prec emax : Z) (s : bool) (m e : Z) (l : location) :
  (0 <= m)%Z ->
  match binary_round_aux prec emax s m e l with
  | S754_zero s' | S754_infinity s' | S754_finite s' _ _ => s' = s
  | S754_nan => False
  end.
Proof.
  intros Hm. unfold binary_round_aux.
  pose proof (shr_fexp_nonneg prec emax m e l Hm) as H1.
  destruct (shr_fexp prec emax m e l) as [mrs' e']. cbn [fst] in H1.
  assert (H2 : (0 <= round_nearest_even (shr_m mrs') (loc_of_shr_record mrs'))%Z).
  { unfold round_nearest_even.
    destruct (loc_of_shr_record mrs') as [|[]]; [lia| |lia|lia].
    destruct (Z.even (shr_m mrs')); lia. }
  pose proof (shr_fexp_nonneg prec emax _ e' loc_Exact H2) as H3.
  destruct (shr_fexp prec emax _ e' loc_Exact) as [mrs'' e'']. cbn [fst] in H3.
  destruct (shr_m mrs'') as [|p|p]; [reflexivity| |lia].
  destruct (e'' <=? emax - prec)%Z; reflexivity.
Qed.

(** A finite echo delay that is not negative is a whole number of samples
    that is not negative, or the product has overflowed. *)
Lemma ieee_delay_nonneg (echoDelay : IEEE.float) :
  IEEE.finite_nonneg echoDelay ->
  (exists d : nat, IEEE.delayInSamples echoDelay = IEEE.delay_samples (Z.of_nat d)) \/
  IEEE.delayInSamples echoDelay = IEEE.delay_infinite false.
Proof.
  intros Hd. unfold IEEE.delayInSamples. rewrite ieee_literal_44_1.
  destruct echoDelay as [s|s| |[|] m e]; cbn [IEEE.finite_nonneg] in Hd;
    try contradiction.
  - left. exists 0%nat. reflexivity.
  - unfold IEEE.mul, SFmul. cbn [xorb].
    pose proof (binary_round_aux_sign 53 1024 false
                  (Z.pos (m * 6206523236469965)) (e + -47) loc_Exact ltac:(lia)) as Hs.
    destruct (binary_round_aux 53 1024 false _ _ loc_Exact) as [s'|s'| |s' m' e'];
      try contradiction; subst s'.
    + left. exists 0%nat. reflexivity.
    + right. reflexivity.
    + left. cbn [IEEE.Math_floor cond_Zopp].
      destruct (Z.leb_spec 0 e').
      * exists (Z.to_nat (Z.pos m' * 2 ^ e')). f_equal.
        rewrite Z2Nat.id; [reflexivity|]. apply Z.mul_nonneg_nonneg; [lia|].
        apply Z.pow_nonneg. lia.
      * exists (Z.to_nat (Z.pos m' / 2 ^ (- e'))). f_equal.
        rewrite Z2Nat.id; [reflexivity|]. apply Z.div_pos; [lia|].
        apply Z.pow_pos_nonneg; lia.
Qed.

(** The floor is that of the rounded product.  The binary64 number
    nearest to [10.113378684807255], times the binary64 number nearest to
    [44.1], is a little less than [446]; the product rounds to [446], and
    that is what [Math.floor] sees. *)
Example delay_of_rounded_product :
  let echoDelay := S754_finite false 5693326059544334 (-49) in
  IEEE.delayInSamples echoDelay = IEEE.delay_samples 446 /\
  Zfloor (IEEE.value echoDelay * IEEE.value IEEE.literal_44_1) = 445%Z.
Proof.
  split; [vm_compute; reflexivity|].
  rewrite ieee_literal_44_1. apply Zfloor_eq.
  cbn [IEEE.value cond_Zopp Z.leb Z.compare].
  change (2 ^ (- (-49)))%Z with 562949953421312%Z.
  change (2 ^ (- (-47)))%Z with 140737488355328%Z.
  lra.
Qed.

(** C3. The signal [addEcho] returns for a [Float32Array] has the length of
    its input.  With [delaySamples = floor(echoDelay * 44.1)], the product
    being rounded to binary64 before the floor is taken, sample [i] is
    [input[i]] below [delaySamples], and from there on it is the binary32
    rounding of [input[i] + input[i - delaySamples] * 0.5], a sum and a
    product of binary64: what the store into the [Float32Array] makes of
    the number the right-hand side evaluates to.  A delay of 100 ms is 4410
    samples, and every finite echo delay that is not negative has such a
    [delaySamples], unless the product overflows. *)
Theorem addEcho_echo_formula (echoDelay : IEEE.float) (delaySamples : nat)
        (audioData : list IEEE.float) :
  Forall IEEE.float32 audioData ->
  IEEE.delayInSamples echoDelay = IEEE.delay_samples (Z.of_nat delaySamples) ->
  let out := IEEE.addEcho_output echoDelay audioData in
  length out = length audioData /\
  (forall i, (i < length audioData)%nat -> (i < delaySamples)%nat ->
     out !!! i = audioData !!! i) /\
  (forall i, (i < length audioData)%nat -> (delaySamples <= i)%nat ->
     out !!! i =
     IEEE.fround
       (IEEE.add (IEEE.widen (audioData !!! i))
                 (IEEE.mul (IEEE.widen (audioData !!! (i - delaySamples)%nat))
                           IEEE.half))) /\
  IEEE.value IEEE.half = 0.5 /\
  IEEE.delayInSamples (IEEE.of_Z 100) = IEEE.delay_samples 4410 /\
  (forall configured : IEEE.float,
     IEEE.finite_nonneg configured ->
     (exists d : nat,
        IEEE.delayInSamples configured = IEEE.delay_samples (Z.of_nat d)) \/
     IEEE.delayInSamples configured = IEEE.delay_infinite false).
Proof.
  intros Hf32 Hd out.
  destruct (ieee_addEcho_output_spec echoDelay audioData) as [Hlen Hval].
  fold out in Hlen, Hval. rewrite Hd in Hval.
  split; [exact Hlen|]. split; [|split; [|split; [|split]]];
    [| | | |exact ieee_delay_nonneg].
  - intros i Hi Hik. rewrite Hval by exact Hi. cbn [IEEE.reached].
    destruct (Z.leb_spec (Z.of_nat delaySamples) (Z.of_nat i)); [lia|].
    apply float32_lookup; assumption.
  - intros i Hi Hik. rewrite Hval by exact Hi. cbn [IEEE.reached IEEE.delayed].
    destruct (Z.leb_spec (Z.of_nat delaySamples) (Z.of_nat i)); [|lia].
    rewrite float32_lookup by assumption.
    replace (Z.to_nat (Z.of_nat i - Z.of_nat delaySamples))
      with (i - delaySamples)%nat by lia.
    reflexivity.
  - unfold IEEE.value, IEEE.half. cbn [cond_Zopp Z.leb Z.compare].
    change (2 ^ (- (-53)))%Z with 9007199254740992%Z. lra.
  - vm_compute. reflexivity.
Qed.

Lemma addEcho_echo_formula_witness :
  let audioData := [IEEE.fround (IEEE.decimal 3 1); IEEE.fround (IEEE.decimal 1 1)] in
  let out := IEEE.addEcho_output (IEEE.decimal 3 2) audioData in
  length out = 2%nat /\
  (forall i, (i < 2)%nat -> (i < 1)%nat -> out !!! i = audioData !!! i) /\
  (forall i, (i < 2)%nat -> (1 <= i)%nat ->
     out !!! i =
     IEEE.fround
       (IEEE.add (IEEE.widen (audioData !!! i))
                 (IEEE.mul (IEEE.widen (audioData !!! (i - 1)%nat)) IEEE.half))) /\
  IEEE.value IEEE.half = 0.5 /\
  IEEE.delayInSamples (IEEE.of_Z 100) = IEEE.delay_samples 4410 /\
  (forall configured : IEEE.float,
     IEEE.finite_nonneg configured ->
     (exists d : nat,
        IEEE.delayInSamples configured = IEEE.delay_samples (Z.of_nat d)) \/
     IEEE.delayInSamples configured = IEEE.delay_infinite false).
Proof.
  apply (addEcho_echo_formula (IEEE.decimal 3 2) 1
           [IEEE.fround (IEEE.decimal 3 1); IEEE.fround (IEEE.decimal 1 1)]).
  - repeat constructor; vm_compute; reflexivity.
  - vm_compute. reflexivity.
Defined.

(** C3, counterexample.  On the samples [0.3] and [0.1] (the binary32 data
    nearest to them) and a delay of 0.03 ms, which is one sample, sample 1
    of the output is [0.25] exactly, whereas [input[1] + input[0] * 0.5] is
    [0.25 + 2^-27]: the sum is not representable in binary32 and the store
    rounds it, so the output does not equal the unrounded right-hand
    side, neither as a real number nor under the [==] of the program. *)
Lemma addEcho_unrounded_sum_counterexample :
  let audioData := [IEEE.fround (IEEE.decimal 3 1); IEEE.fround (IEEE.decimal 1 1)] in
  let out := IEEE.addEcho_output (IEEE.decimal 3 2) audioData in
  Forall IEEE.float32 audioData /\
  IEEE.delayInSamples (IEEE.decimal 3 2) = IEEE.delay_samples 1 /\
  out = [S754_finite false 10066330 (-25); S754_finite false 8388608 (-25)] /\
  IEEE.value (out !!! 1%nat) = 0.25 /\
  IEEE.value (audioData !!! 1%nat) + IEEE.value (audioData !!! 0%nat) * 0.5
    = 0.25 + / 134217728 /\
  IEEE.value (out !!! 1%nat)
    <> IEEE.value (audioData !!! 1%nat) + IEEE.value (audioData !!! 0%nat) * 0.5 /\
  SFeqb (IEEE.widen (out !!! 1%nat))
        (IEEE.add (IEEE.widen (audioData !!! 1%nat))
                  (IEEE.mul (IEEE.widen (audioData !!! 0%nat)) IEEE.half)) = false.
Proof.
  intros audioData out.
  assert (Hout : out = [S754_finite false 10066330 (-25); S754_finite false 8388608 (-25)])
    by (vm_compute; reflexivity).
  assert (Hin : audioData = [S754_finite false 10066330 (-25); S754_finite false 13421773 (-27)])
    by (vm_compute; reflexivity).
  assert (H1 : IEEE.value (out !!! 1%nat) = 0.25).
  { rewrite Hout. cbn [lookup_total list_lookup_total IEEE.value cond_Zopp Z.leb Z.compare].
    change (2 ^ (- (-25)))%Z with 33554432%Z. lra. }
  assert (H2 : IEEE.value (audioData !!! 1%nat) + IEEE.value (audioData !!! 0%nat) * 0.5
               = 0.25 + / 134217728).
  { rewrite Hin. cbn [lookup_total list_lookup_total IEEE.value cond_Zopp Z.leb Z.compare].
    change (2 ^ (- (-25)))%Z with 33554432%Z.
    change (2 ^ (- (-27)))%Z with 134217728%Z. lra. }
  split; [repeat constructor; vm_compute; reflexivity|].
  split; [vm_compute; reflexivity|].
  split; [exact Hout|]. split; [exact H1|]. split; [exact H2|].
  split; [rewrite H1, H2; lra|].
  vm_compute. reflexivity.
Qed.

(** C7. [addEcho] writes the [latency] field only: [snr], [erle], [rea],
    [convergence] (and the echo delay) are what they were before the call,
    all of them are [0] on a fresh processor, and [getMetrics] after
    [addEcho] reports the earlier [snr]. *)
Theorem addEcho_frame (now : nat -> R) (audioData : list R) (rt : Runtime) :
  let rt' := (addEcho now audioData rt).2 in
  snr (getMetrics rt') = snr (getMetrics rt) /\
  erle (getMetrics rt') = erle (getMetrics rt) /\
  rea (getMetrics rt') = rea (getMetrics rt) /\
  convergence (getMetrics rt') = convergence (getMetrics rt) /\
  echoDelay (this rt') = echoDelay (this rt) /\
  latency (getMetrics rt') = now (S (perf_reads rt)) - now (perf_reads rt) /\
  getMetrics fresh_runtime = mkMetrics 0 0 0 0 0 /\
  snr (getMetrics (addEcho now audioData fresh_runtime).2) = 0.
Proof. repeat split. Qed.

(** ** Emphasis filter pair *)

Lemma list_eq_total (l1 l2 : list R) :
  length l1 = length l2 ->
  (forall i, (i < length l1)%nat -> l1 !!! i = l2 !!! i) ->
  l1 = l2.
Proof.
  intros Hlen Hval. apply (list_eq_same_length l1 l2 (length l1)); [lia..|].
  intros i x y Hi Hx Hy. specialize (Hval i Hi).
  rewrite (list_lookup_total_correct _ _ _ Hx) in Hval.
  rewrite (list_lookup_total_correct _ _ _ Hy) in Hval. exact Hval.
Qed.

Lemma applyPreProcessing_spec (input : list R) :
  length (applyPreProcessing input) = length input /\
  forall i, (i < length input)%nat ->
    applyPreProcessing input !!! i =
    match i with
    | O => input !!! 0%nat
    | S i' => input !!! i - alpha * input !!! i'
    end.
Proof.
  unfold applyPreProcessing. set (n := length input).
  destruct (decide (n = 0%nat)) as [Hn|Hn].
  - rewrite for_range_empty by lia. rewrite length_insert.
    unfold new_Float32Array. rewrite length_replicate. split; [reflexivity|lia].
  - apply (for_range_ind
      (fun k out => length out = n /\
         forall i, (i < k)%nat ->
           out !!! i = match i with
                       | O => input !!! 0%nat
                       | S i' => input !!! i - alpha * input !!! i'
                       end)); [lia| |].
    + rewrite length_insert. unfold new_Float32Array. rewrite length_replicate.
      split; [reflexivity|]. intros i Hi. replace i with 0%nat by lia.
      apply list_lookup_total_insert_eq. rewrite length_replicate. lia.
    + intros k t Hk [Hlen Hdone]. rewrite length_insert. split; [exact Hlen|].
      intros i Hi. destruct (decide (i = k)) as [->|Hne].
      * rewrite list_lookup_total_insert_eq by lia.
        destruct k as [|k']; [lia|]. replace (S k' - 1)%nat with k' by lia.
        reflexivity.
      * rewrite list_lookup_total_insert_ne by congruence. apply Hdone. lia.
Qed.

Lemma applyPostProcessing_length (input : list R) :
  length (applyPostProcessing input) = length input.
Proof.
  unfold applyPostProcessing. set (n := length input).
  destruct (le_lt_dec 1 n) as [Hn|Hn].
  - apply (for_range_ind (fun _ out => length out = n)); [lia| |].
    + rewrite length_insert. apply length_replicate.
    + intros k t _ Hlen. rewrite length_insert. exact Hlen.
  - rewrite for_range_empty by lia. rewrite length_insert. apply length_replicate.
Qed.

(** C4. De-emphasis undoes pre-emphasis: for every signal [x],
    [applyPostProcessing (applyPreProcessing x) = x] in exact arithmetic. *)
Theorem emphasis_round_trip (x : list R) :
  applyPostProcessing (applyPreProcessing x) = x.
Proof.
  destruct (applyPreProcessing_spec x) as [Hlen Hpre].
  apply list_eq_total.
  { rewrite applyPostProcessing_length. exact Hlen. }
  rewrite applyPostProcessing_length, Hlen.
  unfold applyPostProcessing. rewrite Hlen. set (n := length x) in *.
  destruct (decide (n = 0%nat)) as [Hn|Hn]; [intros i Hi; lia|].
  apply (for_range_ind
    (fun k out => length out = n /\
       forall i, (i < k)%nat -> out !!! i = x !!! i)); [lia| |].
  - rewrite length_insert. unfold new_Float32Array. rewrite length_replicate.
    split; [reflexivity|]. intros i Hi. replace i with 0%nat by lia.
    rewrite list_lookup_total_insert_eq by (rewrite length_replicate; lia).
    apply (Hpre 0%nat). lia.
  - intros k t Hk [Hlen' Hdone]. rewrite length_insert. split; [exact Hlen'|].
    intros i Hi. destruct (decide (i = k)) as [->|Hne].
    + rewrite list_lookup_total_insert_eq by lia.
      rewrite (Hpre k) by lia. destruct k as [|k']; [lia|].
      replace (S k' - 1)%nat with k' by lia.
      rewrite (Hdone k') by lia. lra.
    + rewrite list_lookup_total_insert_ne by congruence. apply Hdone. lia.
Qed.

(** ** Kalman denoiser *)

Lemma kalman_run_flat (input : list R) :
  kalman_run input =
  for_range 0 (length input) (kalman_sample input) (kalman_init input).
Proof. unfold kalman_run. apply for_stride_flat; lia. Qed.

Lemma kalman_predict_pos (p : R) : 0 <= p -> 0 < kalman_predict p.
Proof. unfold kalman_predict, processNoise. lra. Qed.

Lemma kalman_sample_covariance (input : list R) (j : nat) (st : Kalman) :
  0 <= errorCovariance st -> 0 <= errorCovariance (kalman_sample input j st).
Proof.
  intros Hp. apply kalman_predict_pos in Hp. simpl.
  set (p := kalman_predict (errorCovariance st)) in *.
  replace ((1 - p / (p + kalmanGain)) * p)
    with (kalmanGain * p / (p + kalmanGain))
    by (unfold kalmanGain; field; lra).
  unfold kalmanGain.
  apply Rmult_le_pos; [nra|]. apply Rlt_le, Rinv_0_lt_compat. lra.
Qed.

(** C6. Starting from [0.1], the error covariance of the Kalman denoiser
    is non-negative before and after every per-sample step of every run:
    at every state the loop goes through, among them the last, and at
    every step after the process noise is added, where it is positive and
    so is the divisor of the gain. *)
Theorem kalman_covariance_nonneg (input : list R) :
  errorCovariance (kalman_init input) = 0.1 /\
  kalman_state_at input 0 = kalman_init input /\
  kalman_run input = kalman_state_at input (length input) /\
  (forall k, (k <= length input)%nat ->
     0 <= errorCovariance (kalman_state_at input k)) /\
  (forall k, (k < length input)%nat ->
     kalman_state_at input (S k) = kalman_sample input k (kalman_state_at input k) /\
     0 < kalman_predict (errorCovariance (kalman_state_at input k)) + kalmanGain).
Proof.
  assert (Hinv : forall k, 0 <= errorCovariance (kalman_state_at input k)).
  { intros k. unfold kalman_state_at.
    apply (for_range_ind (fun _ st => 0 <= errorCovariance st)); [lia| |].
    - simpl. lra.
    - intros j t _. apply kalman_sample_covariance. }
  split; [reflexivity|]. split; [reflexivity|]. split; [apply kalman_run_flat|].
  split; [intros k _; apply Hinv|].
  intros k Hk. split.
  - unfold kalman_state_at. apply for_range_last. lia.
  - pose proof (kalman_predict_pos _ (Hinv k)). unfold kalmanGain. lra.
Qed.

(** ** Metrics engine *)

Lemma log10_1 : log10 1 = 0.
Proof. unfold log10. rewrite ln_1. unfold Rdiv. apply Rmult_0_l. Qed.

Lemma log10_floor_ratio (e : R) : 0 < e -> log10 ((0 + e) / (0 + e)) = 0.
Proof.
  intros He. replace ((0 + e) / (0 + e)) with 1 by (field; lra). apply log10_1.
Qed.

Lemma calculateERLE_sums (original processed : list R) :
  calculateERLE original processed =
  10 * log10 (((energy_sums original processed).1 + 1e-12)
              / ((energy_sums original processed).2 + 1e-12)).
Proof.
  unfold calculateERLE, energy_sums. rewrite for_stride_flat by lia.
  destruct (for_range _ _ _ _) as [sumO sumP]. reflexivity.
Qed.

Lemma calculateREA_sums (original processed : list R) :
  calculateREA original processed =
  20 * log10 (((energy_sums original processed).1 + 1e-12)
              / ((energy_sums original processed).2 + 1e-12)).
Proof.
  unfold calculateREA, energy_sums. rewrite for_stride_flat by lia.
  set (n := length original).
  assert (Hswap :
    for_range 0 n
      (fun j '(sumP, sumO) =>
         (sumP + processed !!! j * processed !!! j,
          sumO + original !!! j * original !!! j)) (0, 0) =
    let t := for_range 0 n
      (fun j '(sumO, sumP) =>
         (sumO + original !!! j * original !!! j,
          sumP + processed !!! j * processed !!! j)) (0, 0) in
    (t.2, t.1)).
  { set (bodyE := fun (j : nat) '(sumO, sumP) =>
         (sumO + original !!! j * original !!! j,
          sumP + processed !!! j * processed !!! j)).
    apply (for_range_ind
      (fun k t => t = ((for_range 0 k bodyE (0, 0)).2,
                       (for_range 0 k bodyE (0, 0)).1))); [lia|reflexivity|].
    intros k t _ ->. rewrite for_range_last by lia.
    destruct (for_range 0 k bodyE (0, 0)) as [sumO sumP]. reflexivity. }
  simpl in Hswap. rewrite Hswap.
  destruct (for_range 0 n _ _) as [sumO sumP]. reflexivity.
Qed.

Lemma calculateREA_twice_ERLE (original processed : list R) :
  calculateREA original processed = 2 * calculateERLE original processed.
Proof. rewrite calculateREA_sums, calculateERLE_sums. lra. Qed.

(** C8. [calculateREA] accumulates the two sums of squares of
    [calculateERLE] and reports their guarded ratio at [20 * log10] where
    ERLE has [10 * log10]: for all signals it is twice [calculateERLE], and
    after every [removeEcho] and [processNoiseAndEcho] the [rea] metric is
    twice the [erle] metric. *)
Theorem rea_is_twice_erle (now : nat -> R) (original processed : list R) (rt : Runtime) :
  calculateREA original processed = 2 * calculateERLE original processed /\
  rea (getMetrics (removeEcho now original rt).2)
  = 2 * erle (getMetrics (removeEcho now original rt).2) /\
  rea (getMetrics (processNoiseAndEcho now original rt).2)
  = 2 * erle (getMetrics (processNoiseAndEcho now original rt).2).
Proof.
  split; [apply calculateREA_twice_ERLE|]. split.
  - cbv beta iota zeta delta [removeEcho performance_now].
    destruct (applyNLMSFilter now _ _) as [out rt1].
    cbv beta iota zeta delta [update_metrics getMetrics set_erle set_rea set_latency
                              snd this metrics rea erle].
    apply calculateREA_twice_ERLE.
  - cbv beta iota zeta delta [processNoiseAndEcho performance_now].
    destruct (applyNLMSFilter now _ _) as [out rt1].
    cbv beta iota zeta delta [update_metrics getMetrics set_erle set_rea set_snr set_latency
                              snd this metrics rea erle].
    apply calculateREA_twice_ERLE.
Qed.

(** ** NLMS canceller: the per-sample step *)

(** A loop that adds [f k] for every [k] of [0 .. n). *)
Lemma sum_loop_zero (f : nat -> R) (n : nat) (a : R) :
  (forall k, (k < n)%nat -> f k = 0) ->
  for_range 0 n (fun k y => y + f k) a = a.
Proof.
  intros Hz. apply (for_range_ind (fun _ t => t = a)); [lia|reflexivity|].
  intros k t Hk ->. rewrite Hz by lia. lra.
Qed.

Lemma sum_loop_nonneg (f : nat -> R) (n : nat) :
  (forall k, (k < n)%nat -> 0 <= f k) ->
  0 <= for_range 0 n (fun k y => y + f k) 0.
Proof.
  intros Hp. apply (for_range_ind (fun _ t => 0 <= t)); [lia|lra|].
  intros k t Hk Ht. specialize (Hp k ltac:(lia)). lra.
Qed.

Lemma sum_loop_two (f : nat -> R) (n k1 k2 : nat) :
  (k1 < k2 < n)%nat ->
  (forall k, (k < n)%nat -> k <> k1 -> k <> k2 -> f k = 0) ->
  for_range 0 n (fun k y => y + f k) 0 = f k1 + f k2.
Proof.
  intros Hk Hz.
  rewrite (for_range_split 0 k1 n) by lia.
  rewrite sum_loop_zero by (intros k Hlt; apply Hz; lia).
  rewrite (for_range_first k1) by lia.
  rewrite (for_range_split (S k1) k2 n) by lia.
  rewrite (for_range_first k2) by lia.
  replace (for_range (S k1) k2 (fun k y => y + f k) (0 + f k1)) with (0 + f k1).
  - replace (for_range (S k2) n (fun k y => y + f k) (0 + f k1 + f k2))
      with (0 + f k1 + f k2); [lra|].
    symmetry. apply (for_range_ind (fun _ t => t = 0 + f k1 + f k2)); [lia|reflexivity|].
    intros k t Hlt ->. rewrite (Hz k) by lia. lra.
  - symmetry. apply (for_range_ind (fun _ t => t = 0 + f k1)); [lia|reflexivity|].
    intros k t Hlt ->. rewrite (Hz k) by lia. lra.
Qed.

Lemma sum_loop_one (f : nat -> R) (n k1 : nat) :
  (k1 < n)%nat ->
  (forall k, (k < n)%nat -> k <> k1 -> f k = 0) ->
  for_range 0 n (fun k y => y + f k) 0 = f k1.
Proof.
  intros Hk Hz.
  rewrite (for_range_split 0 k1 n) by lia.
  rewrite sum_loop_zero by (intros k Hlt; apply Hz; lia).
  rewrite (for_range_first k1) by lia.
  replace (for_range (S k1) n (fun k y => y + f k) (0 + f k1)) with (0 + f k1); [lra|].
  symmetry. apply (for_range_ind (fun _ t => t = 0 + f k1)); [lia|reflexivity|].
  intros k t Hlt ->. rewrite (Hz k) by lia. lra.
Qed.

Lemma nlms_power_nonneg (b : list R) : 0 <= nlms_power b.
Proof.
  unfold nlms_power. apply (sum_loop_nonneg (fun k => b !!! k * b !!! k)).
  intros k _. nra.
Qed.

Lemma copyWithin_1_0_length (a : list R) : length (copyWithin_1_0 a) = length a.
Proof.
  destruct a as [|a0 r]; [reflexivity|]. unfold copyWithin_1_0.
  cbn [length]. rewrite length_take. cbn [length]. lia.
Qed.

Lemma copyWithin_1_0_lookup_S (a : list R) (k : nat) :
  (S k < length a)%nat -> copyWithin_1_0 a !!! S k = a !!! k.
Proof.
  destruct a as [|a0 r]; cbn [length]; [lia|]. intros Hk.
  unfold copyWithin_1_0.
  change ((a0 :: take (length (a0 :: r) - 1) (a0 :: r)) !!! S k)
    with (take (length (a0 :: r) - 1) (a0 :: r) !!! k).
  apply lookup_total_take_lt. cbn [length]. lia.
Qed.

Lemma shifted_buffer_length (st : NLMS) (j : nat) :
  length (shifted_buffer st j) = length (buffer st).
Proof. unfold shifted_buffer. rewrite length_insert. apply copyWithin_1_0_length. Qed.

Lemma shifted_buffer_lookup_0 (st : NLMS) (j : nat) :
  (0 < length (buffer st))%nat ->
  shifted_buffer st j !!! 0%nat = processingBuffer st !!! j.
Proof.
  intros Hlen. unfold shifted_buffer.
  apply list_lookup_total_insert_eq. rewrite copyWithin_1_0_length. exact Hlen.
Qed.

Lemma shifted_buffer_lookup_S (st : NLMS) (j k : nat) :
  (S k < length (buffer st))%nat ->
  shifted_buffer st j !!! S k = buffer st !!! k.
Proof.
  intros Hlen. unfold shifted_buffer.
  rewrite list_lookup_total_insert_ne by lia.
  apply copyWithin_1_0_lookup_S, Hlen.
Qed.

Lemma lookup_total_beyond (l : list R) (k : nat) :
  (length l <= k)%nat -> l !!! k = 0.
Proof.
  intros Hk. rewrite list_lookup_total_alt.
  rewrite (proj2 (lookup_ge_None l k)) by exact Hk. reflexivity.
Qed.

Lemma nlms_adapt_spec (c e : R) (b w : list R) :
  length (nlms_adapt c e b w) = length w /\
  forall k, nlms_adapt c e b w !!! k =
            if decide (k < filterLength)%nat
            then w !!! k + (if decide (k < length w)%nat then c * e * b !!! k else 0)
            else w !!! k.
Proof.
  unfold nlms_adapt.
  pose (P := fun (m : nat) (t : list R) =>
    length t = length w /\
    forall k, t !!! k =
              if decide (k < m)%nat
              then w !!! k + (if decide (k < length w)%nat then c * e * b !!! k else 0)
              else w !!! k).
  apply (for_range_ind P 0 filterLength); subst P; cbv beta; [lia| |].
  - split; [reflexivity|]. intros k. destruct (decide (k < 0)%nat); [lia|reflexivity].
  - intros m t Hm [Hlen Hval]. rewrite length_insert. split; [exact Hlen|].
    intros k. destruct (decide (k = m)) as [->|Hne].
    + destruct (decide (m < S m)%nat); [|lia].
      destruct (decide (m < length w)%nat) as [Hin|Hout].
      * rewrite list_lookup_total_insert_eq by lia.
        rewrite Hval. destruct (decide (m < m)%nat); [lia|reflexivity].
      * rewrite list_insert_ge by lia. rewrite Hval.
        destruct (decide (m < m)%nat); [lia|lra].
    + rewrite list_lookup_total_insert_ne by congruence. rewrite Hval.
      destruct (decide (k < m)%nat), (decide (k < S m)%nat); try lia; reflexivity.
Qed.

(** The fields of the state after one per-sample step. *)
Lemma nlms_sample_fields (now : nat -> R) (t : R) (i j : nat) (st : NLMS) :
  output (nlms_sample now t i j st) = <[(i + j)%nat := sample_y st j]> (output st) /\
  weights (nlms_sample now t i j st) =
    nlms_adapt (nlmsStepSize / sample_denominator st j) (sample_error st j)
               (shifted_buffer st j) (weights st) /\
  buffer (nlms_sample now t i j st) = shifted_buffer st j /\
  processingBuffer (nlms_sample now t i j st) = processingBuffer st.
Proof.
  unfold nlms_sample.
  destruct (negb (converged st) && bool_decide (Rabs (sample_error st j) < convergenceThreshold));
    repeat split.
Qed.

(** ** NLMS canceller: the run *)

Lemma fill_processingBuffer_spec (input : list R) (i end_ : nat) (pb : list R) :
  (end_ - i <= length pb)%nat ->
  length (fill_processingBuffer input i end_ pb) = length pb /\
  forall k, fill_processingBuffer input i end_ pb !!! k =
            if decide (k < end_ - i)%nat then input !!! (i + k)%nat else 0.
Proof.
  intros Hfit. unfold fill_processingBuffer.
  pose (P := fun (m : nat) (t : list R) =>
    length t = length pb /\
    forall k, t !!! k = if decide (k < m)%nat then input !!! (i + k)%nat else 0).
  apply (for_range_ind P 0 (end_ - i)); subst P; cbv beta; [lia| |].
  - rewrite length_replicate. split; [reflexivity|]. intros k.
    destruct (decide (k < 0)%nat); [lia|].
    destruct (le_lt_dec (length pb) k).
    + apply lookup_total_beyond. rewrite length_replicate. lia.
    + apply lookup_total_replicate_2. lia.
  - intros m t Hm [Hlen Hval]. rewrite length_insert. split; [exact Hlen|].
    intros k. destruct (decide (k = m)) as [->|Hne].
    + rewrite list_lookup_total_insert_eq by lia.
      destruct (decide (m < S m)%nat); [reflexivity|lia].
    + rewrite list_lookup_total_insert_ne by congruence. rewrite Hval.
      destruct (decide (k < m)%nat), (decide (k < S m)%nat); try lia; reflexivity.
Qed.

Section Run.
Variable now : nat -> R.
Variable startTime : R.

(** What every per-sample step preserves, every pass of the outer loop
    preserves, provided refilling the processing buffer does. *)
Lemma nlms_chunk_ind (P : NLMS -> Prop) (input : list R) (i : nat) (st : NLMS) :
  P (mkNLMS (output st) (weights st) (buffer st) (converged st)
       (fill_processingBuffer input i (Nat.min (i + chunkSize) (length input))
          (processingBuffer st))
       (nlms_rt st)) ->
  (forall j t, (j < chunkSize)%nat -> P t -> P (nlms_sample now startTime i j t)) ->
  P (nlms_chunk now startTime input i st).
Proof.
  intros H0 Hstep. unfold nlms_chunk.
  apply (for_range_ind (fun _ t => P t)); [lia|exact H0|].
  intros j t Hj. apply Hstep. lia.
Qed.

Lemma nlms_run_ind (P : NLMS -> Prop) (input : list R) (rt : Runtime) :
  P (nlms_init input rt) ->
  (forall i t, (i < length input)%nat -> P t -> P (nlms_chunk now startTime input i t)) ->
  P (nlms_run now startTime input rt).
Proof.
  intros H0 Hstep. unfold nlms_run. apply for_stride_ind; [exact H0|].
  intros i t Hi. apply Hstep. lia.
Qed.

Lemma nlms_sample_shape n i j st :
  nlms_shape n st -> nlms_shape n (nlms_sample now startTime i j st).
Proof.
  intros (Ho & Hw & Hb & Hp). unfold nlms_shape.
  destruct (nlms_sample_fields now startTime i j st) as (-> & -> & -> & ->).
  repeat split.
  - rewrite length_insert. exact Ho.
  - rewrite (proj1 (nlms_adapt_spec _ _ _ _)). exact Hw.
  - rewrite shifted_buffer_length. exact Hb.
  - exact Hp.
Qed.

Lemma nlms_chunk_shape input i st :
  nlms_shape (length input) st ->
  nlms_shape (length input) (nlms_chunk now startTime input i st).
Proof.
  intros (Ho & Hw & Hb & Hp). apply nlms_chunk_ind.
  - repeat split; cbn [weights buffer output processingBuffer]; try assumption.
    destruct (fill_processingBuffer_spec input i
                (Nat.min (i + chunkSize) (length input)) (processingBuffer st))
      as [-> _]; [lia|exact Hp].
  - intros j t _. apply nlms_sample_shape.
Qed.

Lemma nlms_init_shape input rt : nlms_shape (length input) (nlms_init input rt).
Proof.
  repeat split; cbn [nlms_init weights buffer output processingBuffer];
    unfold new_Float32Array; apply length_replicate.
Qed.

Lemma nlms_run_shape input rt :
  nlms_shape (length input) (nlms_run now startTime input rt).
Proof.
  apply nlms_run_ind; [apply nlms_init_shape|].
  intros i t _. apply nlms_chunk_shape.
Qed.
End Run.

(** The outer loop of the canceller leaves through its test: any fuel of
    at least the length of the input gives the same state. *)
Lemma nlms_run_fuel (now : nat -> R) (t : R) (input : list R) (rt : Runtime) (fuel : nat) :
  (length input <= fuel)%nat ->
  for_stride fuel 0 (length input) (chunkSize - chunkSize / overlapFactor)
    (nlms_chunk now t input) (nlms_init input rt) =
  nlms_run now t input rt.
Proof.
  intros Hfuel. unfold nlms_run. apply for_stride_fuel; [|lia..].
  change (chunkSize - chunkSize / overlapFactor)%nat with 96%nat. lia.
Qed.

Lemma applyNLMSFilter_output (now : nat -> R) (input : list R) (rt : Runtime) :
  (applyNLMSFilter now input rt).1 =
  output (nlms_run now (now (perf_reads rt)) input
            (mkRuntime (this rt) (S (perf_reads rt)))).
Proof.
  unfold applyNLMSFilter. cbv beta iota zeta delta [performance_now].
  reflexivity.
Qed.

(** ** What the top-level operations return *)

Lemma removeEcho_result (now : nat -> R) (audioData : list R) (rt : Runtime) :
  (removeEcho now audioData rt).1 =
    applyPostProcessing
      (applyNLMSFilter now (applyPreProcessing audioData) (performance_now now rt).2).1 /\
  erle (getMetrics (removeEcho now audioData rt).2)
    = calculateERLE audioData (removeEcho now audioData rt).1 /\
  rea (getMetrics (removeEcho now audioData rt).2)
    = calculateREA audioData (removeEcho now audioData rt).1.
Proof.
  cbv beta iota zeta delta [removeEcho performance_now snd].
  destruct (applyNLMSFilter now _ _) as [out rt1]. repeat split.
Qed.

Lemma processNoiseAndEcho_result (now : nat -> R) (audioData : list R) (rt : Runtime) :
  (processNoiseAndEcho now audioData rt).1 =
    applyPostProcessing
      (applyNLMSFilter now (applyKalmanFilter (applyPreProcessing audioData))
         (performance_now now rt).2).1 /\
  snr (getMetrics (processNoiseAndEcho now audioData rt).2)
    = calculateSNR audioData /\
  erle (getMetrics (processNoiseAndEcho now audioData rt).2)
    = calculateERLE audioData (processNoiseAndEcho now audioData rt).1 /\
  rea (getMetrics (processNoiseAndEcho now audioData rt).2)
    = calculateREA audioData (processNoiseAndEcho now audioData rt).1.
Proof.
  cbv beta iota zeta delta [processNoiseAndEcho performance_now snd].
  destruct (applyNLMSFilter now _ _) as [out rt1]. repeat split.
Qed.

(** ** Silence *)

Lemma all_zero_replicate (n : nat) : all_zero (replicate n 0).
Proof.
  intros k. destruct (le_lt_dec n k).
  - apply lookup_total_beyond. rewrite length_replicate. lia.
  - apply lookup_total_replicate_2. lia.
Qed.

Lemma all_zero_eq (v : list R) : all_zero v -> v = replicate (length v) 0.
Proof.
  intros Hz. apply list_eq_total; [rewrite length_replicate; reflexivity|].
  intros i _. rewrite Hz. symmetry. apply all_zero_replicate.
Qed.

Lemma all_zero_insert (v : list R) (i : nat) :
  all_zero v -> all_zero (<[i := 0]> v).
Proof.
  intros Hz k. destruct (decide (k = i)) as [->|Hne].
  - destruct (le_lt_dec (length v) i).
    + rewrite list_insert_ge by lia. apply Hz.
    + apply list_lookup_total_insert_eq. lia.
  - rewrite list_lookup_total_insert_ne by congruence. apply Hz.
Qed.

Lemma applyPreProcessing_zero (n : nat) :
  applyPreProcessing (replicate n 0) = replicate n 0.
Proof.
  destruct (applyPreProcessing_spec (replicate n 0)) as [Hlen Hval].
  rewrite length_replicate in Hlen, Hval.
  apply list_eq_total; [rewrite Hlen, length_replicate; reflexivity|].
  rewrite Hlen. intros i Hi. rewrite (Hval i Hi).
  rewrite (all_zero_replicate n i).
  destruct i as [|i']; rewrite !(all_zero_replicate n); lra.
Qed.

Lemma applyPostProcessing_zero (n : nat) :
  applyPostProcessing (replicate n 0) = replicate n 0.
Proof.
  rewrite <- (length_replicate n 0) at 2.
  rewrite <- (applyPostProcessing_length (replicate n 0)).
  apply all_zero_eq. unfold applyPostProcessing.
  rewrite length_replicate.
  assert (H0 : all_zero (<[0%nat := replicate n 0 !!! 0%nat]> (new_Float32Array n))).
  { rewrite (all_zero_replicate n). apply all_zero_insert, all_zero_replicate. }
  destruct (le_lt_dec 1 n) as [Hn|Hn].
  - apply (for_range_ind (fun _ out => all_zero out)); [lia|exact H0|].
    intros k t _ Ht. rewrite (all_zero_replicate n), Ht.
    replace (0 + alpha * 0) with 0 by lra. apply all_zero_insert, Ht.
  - rewrite for_range_empty by lia. exact H0.
Qed.

Lemma applyKalmanFilter_zero (n : nat) :
  applyKalmanFilter (replicate n 0) = replicate n 0.
Proof.
  unfold applyKalmanFilter. rewrite kalman_run_flat, length_replicate.
  pose (P := fun (_ : nat) (st : Kalman) =>
    estimate st = 0 /\ all_zero (k_output st) /\ length (k_output st) = n).
  assert (HP : P n (for_range 0 n (kalman_sample (replicate n 0))
                      (kalman_init (replicate n 0)))).
  { apply (for_range_ind P 0 n); subst P; cbv beta; [lia| |].
    - cbn. rewrite length_replicate. unfold new_Float32Array.
      rewrite length_replicate. split; [reflexivity|].
      split; [apply all_zero_replicate|reflexivity].
    - intros k t _ (He & Hz & Hlen). cbn. rewrite He, (all_zero_replicate n).
      replace (0 + _ * (0 - 0)) with 0 by lra.
      split; [reflexivity|]. split; [apply all_zero_insert, Hz|].
      rewrite length_insert. exact Hlen. }
  destruct HP as (_ & Hz & Hlen). apply all_zero_eq in Hz.
  rewrite Hlen in Hz. exact Hz.
Qed.

Lemma energy_sums_zero (original processed : list R) :
  all_zero original -> all_zero processed ->
  energy_sums original processed = (0, 0).
Proof.
  intros Ho Hp. unfold energy_sums.
  apply (for_range_ind (fun _ t => t = (0, 0))); [lia|reflexivity|].
  intros k t _ ->. rewrite Ho, Hp. f_equal; lra.
Qed.

Lemma calculateERLE_zero (original processed : list R) :
  all_zero original -> all_zero processed ->
  calculateERLE original processed = 0.
Proof.
  intros Ho Hp. rewrite calculateERLE_sums, (energy_sums_zero _ _ Ho Hp).
  cbn [fst snd]. rewrite log10_floor_ratio by lra. lra.
Qed.

Lemma calculateSNR_empty : calculateSNR [] = 0.
Proof.
  unfold calculateSNR. cbn [length for_stride].
  rewrite log10_floor_ratio by lra. lra.
Qed.

Lemma filterLength_pos : (0 < filterLength)%nat.
Proof. unfold filterLength. lia. Qed.

(** With zero weights the prediction is zero, whatever the buffer. *)
Lemma sample_y_zero_weights (st : NLMS) (j : nat) :
  all_zero (weights st) -> sample_y st j = 0.
Proof.
  intros Hw. unfold sample_y, nlms_predict.
  apply (sum_loop_zero (fun k => weights st !!! k * shifted_buffer st j !!! k)).
  intros k _. rewrite Hw. lra.
Qed.

Lemma shifted_buffer_zero (st : NLMS) (j : nat) :
  all_zero (buffer st) -> processingBuffer st !!! j = 0 ->
  all_zero (shifted_buffer st j).
Proof.
  intros Hb Hx k.
  destruct (le_lt_dec (length (buffer st)) k) as [Hout|Hin].
  - apply lookup_total_beyond. rewrite shifted_buffer_length. exact Hout.
  - destruct k as [|k'].
    + rewrite shifted_buffer_lookup_0 by lia. exact Hx.
    + rewrite shifted_buffer_lookup_S by lia. apply Hb.
Qed.

Lemma nlms_sample_silent (now : nat -> R) (t : R) (n i j : nat) (st : NLMS) :
  nlms_silent n st -> nlms_silent n (nlms_sample now t i j st).
Proof.
  intros (Hshape & Hw & Hb & Ho & Hp).
  split; [apply nlms_sample_shape, Hshape|].
  pose proof (shifted_buffer_zero st j Hb (Hp j)) as Hsb.
  pose proof (sample_y_zero_weights st j Hw) as Hy.
  destruct (nlms_sample_fields now t i j st) as (-> & -> & -> & ->).
  repeat split.
  - intros k. rewrite (proj2 (nlms_adapt_spec _ _ _ _)), Hw, Hsb.
    destruct (decide (k < filterLength)%nat); [|reflexivity].
    destruct (decide (k < length (weights st))%nat); lra.
  - exact Hsb.
  - rewrite Hy. apply all_zero_insert, Ho.
  - exact Hp.
Qed.

Lemma nlms_run_silent (now : nat -> R) (t : R) (input : list R) (rt : Runtime) :
  all_zero input ->
  output (nlms_run now t input rt) = replicate (length input) 0.
Proof.
  intros Hin.
  assert (Hs : nlms_silent (length input) (nlms_run now t input rt)).
  { apply nlms_run_ind.
    - split; [apply nlms_init_shape|].
      repeat split; cbn [nlms_init weights buffer output processingBuffer];
        apply all_zero_replicate.
    - intros i st _ (Hshape & Hw & Hb & Ho & Hp). apply nlms_chunk_ind.
      + destruct Hshape as (Hlo & Hlw & Hlb & Hlp).
        destruct (fill_processingBuffer_spec input i
                    (Nat.min (i + chunkSize) (length input)) (processingBuffer st))
          as [Hlen Hval]; [lia|].
        repeat split; cbn [weights buffer output processingBuffer];
          try assumption; [lia|].
        intros k. rewrite Hval. destruct (decide _); [apply Hin|reflexivity].
      + intros j st' _. apply nlms_sample_silent. }
  destruct Hs as ((Hlen & _) & _ & _ & Ho & _).
  apply all_zero_eq in Ho. rewrite Hlen in Ho. exact Ho.
Qed.

Lemma applyNLMSFilter_zero (now : nat -> R) (n : nat) (rt : Runtime) :
  (applyNLMSFilter now (replicate n 0) rt).1 = replicate n 0.
Proof.
  rewrite applyNLMSFilter_output, nlms_run_silent by apply all_zero_replicate.
  rewrite length_replicate. reflexivity.
Qed.

Lemma addEcho_output_zero (delay : R) (n : nat) :
  addEcho_output delay (replicate n 0) = replicate n 0.
Proof.
  destruct (addEcho_output_spec delay (replicate n 0)) as [Hlen Hval].
  rewrite length_replicate in Hlen, Hval.
  apply list_eq_total; [rewrite Hlen, length_replicate; reflexivity|].
  rewrite Hlen. intros i Hi. rewrite (Hval i Hi).
  rewrite !(all_zero_replicate n). destruct (_ <=? _)%Z; lra.
Qed.

(** C5. With a non-negative echo delay, an all-zero signal of any length
    comes out of [addEcho], [removeEcho] and [processNoiseAndEcho] as the
    all-zero signal of that length, and after [removeEcho] and after
    [processNoiseAndEcho] the metrics [erle] and [rea] are both [0]. *)
Theorem silence_invariance (now : nat -> R) (n : nat) (rt : Runtime) :
  0 <= echoDelay (this rt) ->
  let silence := replicate n 0 in
  (addEcho now silence rt).1 = silence /\
  (removeEcho now silence rt).1 = silence /\
  erle (getMetrics (removeEcho now silence rt).2) = 0 /\
  rea (getMetrics (removeEcho now silence rt).2) = 0 /\
  (processNoiseAndEcho now silence rt).1 = silence /\
  erle (getMetrics (processNoiseAndEcho now silence rt).2) = 0 /\
  rea (getMetrics (processNoiseAndEcho now silence rt).2) = 0.
Proof.
  intros _ silence.
  destruct (removeEcho_result now silence rt) as (Hr & Hre & Hra).
  destruct (processNoiseAndEcho_result now silence rt) as (Hp & _ & Hpe & Hpa).
  assert (Hrz : (removeEcho now silence rt).1 = silence).
  { rewrite Hr. subst silence.
    rewrite applyPreProcessing_zero, applyNLMSFilter_zero.
    apply applyPostProcessing_zero. }
  assert (Hpz : (processNoiseAndEcho now silence rt).1 = silence).
  { rewrite Hp. subst silence.
    rewrite applyPreProcessing_zero, applyKalmanFilter_zero, applyNLMSFilter_zero.
    apply applyPostProcessing_zero. }
  assert (He : calculateERLE silence silence = 0)
    by (apply calculateERLE_zero; apply all_zero_replicate).
  split; [apply addEcho_output_zero|].
  split; [exact Hrz|].
  rewrite Hre, Hra, Hpe, Hpa, Hrz, Hpz, calculateREA_twice_ERLE, He.
  repeat split; try reflexivity; lra.
Qed.

Lemma silence_invariance_witness :
  let silence := replicate 3 0 in
  (addEcho (fun _ => 0) silence fresh_runtime).1 = silence /\
  (removeEcho (fun _ => 0) silence fresh_runtime).1 = silence /\
  erle (getMetrics (removeEcho (fun _ => 0) silence fresh_runtime).2) = 0 /\
  rea (getMetrics (removeEcho (fun _ => 0) silence fresh_runtime).2) = 0 /\
  (processNoiseAndEcho (fun _ => 0) silence fresh_runtime).1 = silence /\
  erle (getMetrics (processNoiseAndEcho (fun _ => 0) silence fresh_runtime).2) = 0 /\
  rea (getMetrics (processNoiseAndEcho (fun _ => 0) silence fresh_runtime).2) = 0.
Proof.
  apply (silence_invariance (fun _ => 0) 3 fresh_runtime).
  simpl. lra.
Defined.

(** C9. On the empty signal [addEcho], [removeEcho] and
    [processNoiseAndEcho] return the empty signal (the model is total: no
    step of it can fault), and the metrics the call computes from the
    signals are [0]: [erle] and [rea] after [removeEcho], and [snr], [erle]
    and [rea] after [processNoiseAndEcho]. *)
Theorem empty_signal (now : nat -> R) (rt : Runtime) :
  (addEcho now [] rt).1 = [] /\
  (removeEcho now [] rt).1 = [] /\
  erle (getMetrics (removeEcho now [] rt).2) = 0 /\
  rea (getMetrics (removeEcho now [] rt).2) = 0 /\
  (processNoiseAndEcho now [] rt).1 = [] /\
  snr (getMetrics (processNoiseAndEcho now [] rt).2) = 0 /\
  erle (getMetrics (processNoiseAndEcho now [] rt).2) = 0 /\
  rea (getMetrics (processNoiseAndEcho now [] rt).2) = 0.
Proof.
  destruct (removeEcho_result now [] rt) as (Hr & Hre & Hra).
  destruct (processNoiseAndEcho_result now [] rt) as (Hp & Hps & Hpe & Hpa).
  assert (Hrz : (removeEcho now [] rt).1 = []).
  { rewrite Hr. change (applyPreProcessing []) with (replicate 0 0).
    rewrite applyNLMSFilter_zero. reflexivity. }
  assert (Hpz : (processNoiseAndEcho now [] rt).1 = []).
  { rewrite Hp. change (applyKalmanFilter (applyPreProcessing [])) with (replicate 0 0).
    rewrite applyNLMSFilter_zero. reflexivity. }
  assert (He : calculateERLE [] [] = 0)
    by (apply calculateERLE_zero; apply (all_zero_replicate 0)).
  split; [reflexivity|]. split; [exact Hrz|].
  rewrite Hre, Hra, Hps, Hpe, Hpa, Hrz, Hpz, calculateREA_twice_ERLE, He,
    calculateSNR_empty.
  repeat split; try reflexivity; lra.
Qed.

(** ** The canceller's step and the recursion of the specification *)

Lemma foldr_Rplus_acc (a : R) (l : list R) :
  foldr Rplus a l = foldr Rplus 0 l + a.
Proof. induction l as [|x l IH]; cbn [foldr]; [lra|]. rewrite IH. lra. Qed.

Lemma sum_loop_list (l : list R) :
  for_range 0 (length l) (fun k y => y + l !!! k) 0 = foldr Rplus 0 l.
Proof.
  induction l as [|x l IH] using rev_ind; [reflexivity|].
  rewrite length_app. cbn [length]. replace (length l + 1)%nat with (S (length l)) by lia.
  rewrite for_range_last by lia.
  rewrite (for_range_ext 0 (length l) _ (fun k y => y + l !!! k)).
  - rewrite IH, foldr_app. cbn [foldr]. rewrite (foldr_Rplus_acc (x + 0)).
    rewrite lookup_total_app_r by lia.
    replace (length l - length l)%nat with 0%nat by lia.
    change ([x] !!! 0%nat) with x. lra.
  - intros k t Hk. rewrite lookup_total_app_l by lia. reflexivity.
Qed.

Lemma lookup_total_zip_with (f : R -> R -> R) (u v : list R) (k : nat) :
  (k < length u)%nat -> (k < length v)%nat ->
  zip_with f u v !!! k = f (u !!! k) (v !!! k).
Proof.
  intros Hu Hv. apply list_lookup_total_correct.
  rewrite lookup_zip_with.
  rewrite (list_lookup_lookup_total_lt u k Hu), (list_lookup_lookup_total_lt v k Hv).
  reflexivity.
Qed.

Lemma nlms_predict_dot (w b : list R) :
  length w = filterLength -> length b = filterLength ->
  nlms_predict w b = dot w b.
Proof.
  intros Hw Hb. unfold nlms_predict, dot.
  rewrite <- sum_loop_list. rewrite length_zip_with, Hw, Hb, Nat.min_id.
  apply for_range_ext. intros k t Hk.
  rewrite lookup_total_zip_with by lia. reflexivity.
Qed.

Lemma nlms_power_dot (b : list R) :
  length b = filterLength -> nlms_power b = dot b b.
Proof. intros Hb. apply (nlms_predict_dot b b Hb Hb). Qed.

Lemma nlms_adapt_zip (c e : R) (b w : list R) :
  length w = filterLength -> length b = filterLength ->
  nlms_adapt c e b w = zip_with (fun wk bk => wk + c * e * bk) w b.
Proof.
  intros Hw Hb. destruct (nlms_adapt_spec c e b w) as [Hlen Hval].
  apply list_eq_total.
  - rewrite Hlen, length_zip_with. lia.
  - rewrite Hlen. intros k Hk. rewrite Hval.
    rewrite lookup_total_zip_with by lia.
    destruct (decide (k < filterLength)%nat); [|lia].
    destruct (decide (k < length w)%nat); [reflexivity|lia].
Qed.

Lemma shifted_buffer_cons (st : NLMS) (j : nat) :
  (0 < length (buffer st))%nat ->
  shifted_buffer st j =
  processingBuffer st !!! j :: take (length (buffer st) - 1) (buffer st).
Proof.
  unfold shifted_buffer. destruct (buffer st) as [|b0 r]; cbn [length]; [lia|].
  intros _. reflexivity.
Qed.

(** One per-sample step of the canceller is one step of the recursion on
    the sample [processingBuffer[j]]. *)
Lemma nlms_sample_lms_step (now : nat -> R) (t : R) (n i j : nat) (st : NLMS) :
  nlms_shape n st ->
  let r := lms_step (processingBuffer st !!! j) (adaptive_state st) in
  sample_y st j = p_y r.1 /\
  sample_error st j = p_error r.1 /\
  adaptive_state (nlms_sample now t i j st) = r.2.
Proof.
  intros (Ho & Hw & Hb & Hp) r.
  pose proof filterLength_pos as HL.
  assert (Hsb : shifted_buffer st j =
                processingBuffer st !!! j :: take (length (buffer st) - 1) (buffer st))
    by (apply shifted_buffer_cons; lia).
  assert (Hsl : length (shifted_buffer st j) = filterLength)
    by (rewrite shifted_buffer_length; exact Hb).
  assert (Hy : sample_y st j = p_y r.1).
  { unfold sample_y. rewrite nlms_predict_dot by assumption.
    rewrite Hsb. reflexivity. }
  assert (He : sample_error st j = p_error r.1).
  { unfold sample_error. rewrite Hy. reflexivity. }
  split; [exact Hy|]. split; [exact He|].
  destruct (nlms_sample_fields now t i j st) as (_ & Hw' & Hb' & _).
  unfold adaptive_state. rewrite Hw', Hb'.
  rewrite nlms_adapt_zip by assumption.
  unfold sample_denominator. rewrite nlms_power_dot by assumption.
  rewrite He. rewrite Hsb. reflexivity.
Qed.

Lemma lms_recursion_length (emit : Prediction -> R) (s : AdaptiveFilterState) (xs : list R) :
  length (lms_recursion emit s xs) = length xs.
Proof.
  revert s. induction xs as [|x xs IH]; intros s; cbn [lms_recursion length];
    [reflexivity|]. rewrite IH. reflexivity.
Qed.

Lemma lms_state_app (s : AdaptiveFilterState) (xs ys : list R) :
  lms_state s (xs ++ ys) = lms_state (lms_state s xs) ys.
Proof. unfold lms_state. apply fold_left_app. Qed.

Lemma lms_state_take_S (s : AdaptiveFilterState) (xs : list R) (k : nat) :
  (k < length xs)%nat ->
  lms_state s (take (S k) xs) = (lms_step (xs !!! k) (lms_state s (take k xs))).2.
Proof.
  intros Hk.
  rewrite (take_S_r xs k (xs !!! k)) by (apply list_lookup_lookup_total_lt, Hk).
  rewrite lms_state_app. reflexivity.
Qed.

(** The [k]-th sample emitted is that of the step on [xs[k]] from the state
    after the [k] samples before it. *)
Lemma lms_recursion_lookup (emit : Prediction -> R) (s : AdaptiveFilterState)
      (xs : list R) (k : nat) :
  (k < length xs)%nat ->
  lms_recursion emit s xs !!! k =
  emit (lms_step (xs !!! k) (lms_state s (take k xs))).1.
Proof.
  revert s k. induction xs as [|x xs IH]; intros s k Hk; cbn [length] in Hk; [lia|].
  destruct k as [|k']; [reflexivity|].
  cbn [lms_recursion]. rewrite lookup_total_cons_ne_0 by lia. cbn [pred].
  rewrite IH by lia. rewrite lookup_total_cons_ne_0 by lia. reflexivity.
Qed.

Lemma window_length (input : list R) (i : nat) : length (window input i) = chunkSize.
Proof.
  unfold window. rewrite length_take, length_app, length_replicate. lia.
Qed.

Lemma window_lookup (input : list R) (i j : nat) :
  (j < chunkSize)%nat ->
  window input i !!! j =
  if decide (j < length input - i)%nat then input !!! (i + j)%nat else 0.
Proof.
  intros Hj. unfold window. rewrite lookup_total_take_lt by exact Hj.
  destruct (decide (j < length input - i)%nat) as [Hin|Hout].
  - rewrite lookup_total_app_l by (rewrite length_drop; exact Hin).
    apply lookup_total_drop.
  - rewrite lookup_total_app_r by (rewrite length_drop; lia).
    apply all_zero_replicate.
Qed.

Lemma fill_processingBuffer_window (input : list R) (i j : nat) (pb : list R) :
  (chunkSize <= length pb)%nat -> (j < chunkSize)%nat ->
  fill_processingBuffer input i (Nat.min (i + chunkSize) (length input)) pb !!! j =
  window input i !!! j.
Proof.
  intros Hpb Hj.
  destruct (fill_processingBuffer_spec input i
              (Nat.min (i + chunkSize) (length input)) pb) as [_ ->]; [lia|].
  rewrite window_lookup by exact Hj.
  destruct (decide (j < Nat.min (i + chunkSize) (length input) - i)%nat),
           (decide (j < length input - i)%nat); try lia; reflexivity.
Qed.

(** One pass of the outer loop is the recursion run over the window at
    [i], from the state the pass starts in: it leaves the state the
    recursion ends in, and has written the predictions to the output
    indices [i .. i + chunkSize) that exist. *)
Lemma nlms_chunk_lms (now : nat -> R) (t : R) (input : list R) (i : nat) (st : NLMS) :
  nlms_shape (length input) st ->
  adaptive_state (nlms_chunk now t input i st) =
    lms_state (adaptive_state st) (window input i) /\
  forall k,
    output (nlms_chunk now t input i st) !!! k =
    if decide ((i <= k < i + chunkSize)%nat /\ (k < length input)%nat)
    then lms_recursion p_y (adaptive_state st) (window input i) !!! (k - i)%nat
    else output st !!! k.
Proof.
  intros Hshape. set (n := length input) in *.
  set (w := window input i). set (s0 := adaptive_state st).
  set (pbf := fill_processingBuffer input i (Nat.min (i + chunkSize) n)
                (processingBuffer st)).
  pose (P := fun (m : nat) (u : NLMS) =>
    nlms_shape n u /\ processingBuffer u = pbf /\
    adaptive_state u = lms_state s0 (take m w) /\
    forall k, output u !!! k =
              if decide ((i <= k < i + m)%nat /\ (k < n)%nat)
              then lms_recursion p_y s0 w !!! (k - i)%nat
              else output st !!! k).
  assert (HP : P chunkSize (nlms_chunk now t input i st)).
  { unfold nlms_chunk. fold n. fold pbf.
    apply (for_range_ind P 0 chunkSize); subst P; cbv beta; [lia| |].
    - split.
      { destruct Hshape as (Ho & Hw & Hb & Hp).
        repeat split; cbn [weights buffer output processingBuffer]; try assumption.
        subst pbf.
        destruct (fill_processingBuffer_spec input i
                    (Nat.min (i + chunkSize) n) (processingBuffer st))
          as [-> _]; [lia|exact Hp]. }
      split; [reflexivity|]. split; [reflexivity|].
      intros k. cbn [output]. destruct (decide _); [lia|reflexivity].
    - intros m u Hm (Hsh & Hpb & Hst & Hout).
      pose proof (nlms_sample_lms_step now t n i m u Hsh) as (Hy & _ & Hnext).
      assert (Hx : processingBuffer u !!! m = w !!! m).
      { rewrite Hpb. subst pbf w. apply fill_processingBuffer_window; [|lia].
        destruct Hshape as (_ & _ & _ & ->). lia. }
      rewrite Hx, Hst in Hy, Hnext.
      destruct (nlms_sample_fields now t i m u) as (Ho' & _ & _ & Hpb').
      split; [apply nlms_sample_shape, Hsh|].
      split; [rewrite Hpb'; exact Hpb|].
      split.
      { rewrite Hnext. symmetry. apply lms_state_take_S.
        subst w. rewrite window_length. lia. }
      intros k. rewrite Ho'.
      destruct (decide (k = (i + m)%nat)) as [->|Hne].
      + destruct (le_lt_dec n (i + m)) as [Hbig|Hsmall].
        * rewrite list_insert_ge by (destruct Hsh as (-> & _); exact Hbig).
          rewrite Hout. destruct (decide _), (decide _); try lia; reflexivity.
        * rewrite list_lookup_total_insert_eq
            by (destruct Hsh as (-> & _); exact Hsmall).
          destruct (decide _); [|lia].
          replace (i + m - i)%nat with m by lia.
          rewrite lms_recursion_lookup by (subst w; rewrite window_length; lia).
          exact Hy.
      + rewrite list_lookup_total_insert_ne by congruence. rewrite Hout.
        destruct (decide _), (decide _); try lia; reflexivity. }
  destruct HP as (_ & _ & Hst & Hout). split.
  - rewrite Hst. subst w. rewrite take_ge by (rewrite window_length; lia).
    reflexivity.
  - exact Hout.
Qed.

(** ** The whole run and the recursion *)

Lemma adaptive_state_init (input : list R) (rt : Runtime) :
  adaptive_state (nlms_init input rt) = adaptive_init.
Proof. reflexivity. Qed.

Lemma stride_value : (chunkSize - chunkSize / overlapFactor)%nat = 96%nat.
Proof. reflexivity. Qed.

(** A pass of the outer loop at [i] leaves the output below [i] alone. *)
Lemma nlms_chunk_below (now : nat -> R) (t : R) (input : list R) (i k : nat) (st : NLMS) :
  nlms_shape (length input) st -> (k < i)%nat ->
  output (nlms_chunk now t input i st) !!! k = output st !!! k.
Proof.
  intros Hshape Hk.
  rewrite (proj2 (nlms_chunk_lms now t input i st Hshape) k).
  destruct (decide _); [lia|reflexivity].
Qed.

(** The first pass writes the predictions of the recursion, and below the
    stride no later pass touches them. *)
Lemma nlms_run_first_pass (now : nat -> R) (t : R) (input : list R) (rt : Runtime) (k : nat) :
  (k < 96)%nat -> (k < length input)%nat ->
  output (nlms_run now t input rt) !!! k = recursion_predictions input !!! k.
Proof.
  intros Hk Hn. unfold nlms_run. rewrite stride_value.
  set (n := length input) in *.
  destruct n as [|n'] eqn:En; [lia|].
  rewrite for_stride_step by lia. rewrite <- En. cbn [Nat.add].
  set (s1 := nlms_chunk now t input 0 (nlms_init input rt)).
  assert (Hs1 : nlms_shape (length input) s1)
    by apply nlms_chunk_shape, nlms_init_shape.
  assert (H1 : output s1 !!! k = recursion_predictions input !!! k).
  { subst s1.
    rewrite (proj2 (nlms_chunk_lms now t input 0 _ (nlms_init_shape input rt)) k).
    destruct (decide _) as [_|Hno]; [|unfold chunkSize in Hno; lia].
    rewrite adaptive_state_init. replace (k - 0)%nat with k by lia.
    unfold recursion_predictions.
    rewrite !lms_recursion_lookup by (rewrite ?window_length; unfold chunkSize; lia).
    rewrite window_lookup by (unfold chunkSize; lia).
    destruct (decide _); [|lia]. cbn [Nat.add].
    unfold window. rewrite take_take, drop_0.
    replace (Nat.min k chunkSize) with k by (unfold chunkSize; lia).
    rewrite take_app_le by lia. reflexivity. }
  rewrite <- H1.
  apply (for_stride_ind
           (fun u => nlms_shape (length input) u /\ output u !!! k = output s1 !!! k)).
  - split; [exact Hs1|reflexivity].
  - intros i u Hi [Hsh Hout]. split; [apply nlms_chunk_shape, Hsh|].
    rewrite nlms_chunk_below by (assumption || lia). exact Hout.
Qed.

Lemma applyNLMSFilter_length (now : nat -> R) (input : list R) (rt : Runtime) :
  length (applyNLMSFilter now input rt).1 = length input.
Proof. rewrite applyNLMSFilter_output. apply nlms_run_shape. Qed.

Lemma applyNLMSFilter_short (now : nat -> R) (input : list R) (rt : Runtime) :
  (length input <= 96)%nat ->
  (applyNLMSFilter now input rt).1 = recursion_predictions input.
Proof.
  intros Hshort. apply list_eq_total.
  - rewrite applyNLMSFilter_length. unfold recursion_predictions.
    rewrite lms_recursion_length. reflexivity.
  - rewrite applyNLMSFilter_length. intros k Hk.
    rewrite applyNLMSFilter_output. apply nlms_run_first_pass; lia.
Qed.

(** C2 (as amended). The chunked loop of the NLMS stage is the per-sample
    recursion (shift, prediction, error, power, normalized step, weight
    update) only up to the stride [chunkSize - overlapSize = 96]: the output
    has the length of the input, its samples below index 96 are those the
    recursion emits when it is run once over the input and emits the
    prediction [y], and so is the whole output of an input of at most 96
    samples. *)
Theorem nlms_recursion_up_to_stride (now : nat -> R) (input : list R) (rt : Runtime) :
  let out := (applyNLMSFilter now input rt).1 in
  length out = length input /\
  (forall k, (k < chunkSize - chunkSize / overlapFactor)%nat -> (k < length input)%nat ->
     out !!! k = recursion_predictions input !!! k) /\
  ((length input <= chunkSize - chunkSize / overlapFactor)%nat ->
     out = recursion_predictions input).
Proof.
  intros out. subst out. rewrite stride_value.
  split; [apply applyNLMSFilter_length|]. split.
  - intros k Hk Hn. rewrite applyNLMSFilter_output.
    apply nlms_run_first_pass; assumption.
  - apply applyNLMSFilter_short.
Qed.

(** ** An impulse at the stride *)

Lemma dot_zero_l (n : nat) (v : list R) : dot (replicate n 0) v = 0.
Proof.
  unfold dot. revert v. induction n as [|n IH]; intros v; [reflexivity|].
  destruct v as [|x v]; [reflexivity|].
  cbn [replicate zip_with foldr]. rewrite IH. lra.
Qed.

Lemma dot_cons (a x : R) (u v : list R) : dot (a :: u) (x :: v) = a * x + dot u v.
Proof. reflexivity. Qed.

Lemma zip_with_keep (f : R -> R -> R) (u v : list R) :
  (length u <= length v)%nat -> (forall a b, f a b = a) -> zip_with f u v = u.
Proof.
  intros Hlen Hf. revert v Hlen.
  induction u as [|a u IH]; intros v Hlen; [reflexivity|].
  destruct v as [|b v]; cbn [length] in Hlen; [lia|].
  cbn [zip_with]. rewrite Hf, IH by lia. reflexivity.
Qed.

Lemma filterLength_S : filterLength = S (filterLength - 1).
Proof. pose proof filterLength_pos. lia. Qed.

Lemma adaptive_init_zero_state : adaptive_init = zero_state (S (filterLength - 1)).
Proof. unfold adaptive_init, zero_state. rewrite <- filterLength_S. reflexivity. Qed.

Lemma lms_step_zero_state (m : nat) :
  (lms_step 0 (zero_state (S m))).2 = zero_state (S m).
Proof.
  unfold lms_step, zero_state. cbn [snd af_weights af_buffer].
  rewrite length_replicate, take_replicate.
  replace (Nat.min (S m - 1) (S m)) with m by lia.
  change (0 :: replicate m 0) with (replicate (S m) 0).
  rewrite zip_with_replicate. f_equal. f_equal. ring.
Qed.

Lemma lms_step_zero : (lms_step 0 adaptive_init).2 = adaptive_init.
Proof. rewrite adaptive_init_zero_state. apply lms_step_zero_state. Qed.

Lemma lms_state_zeros (m : nat) : lms_state adaptive_init (replicate m 0) = adaptive_init.
Proof.
  induction m as [|m IH]; [reflexivity|].
  change (replicate (S m) 0) with ([0] ++ replicate m 0).
  rewrite lms_state_app. change (lms_state adaptive_init [0]) with (lms_step 0 adaptive_init).2.
  rewrite lms_step_zero. exact IH.
Qed.

Lemma lms_step_impulse_zero_state (m : nat) :
  p_y (lms_step 1 (zero_state (S m))).1 = 0 /\
  p_error (lms_step 1 (zero_state (S m))).1 = 1 /\
  (lms_step 1 (zero_state (S m))).2 =
    mkAdaptive (unit_step_size :: replicate m 0) (1 :: replicate m 0).
Proof.
  unfold lms_step, zero_state. cbn [fst snd p_y p_error af_weights af_buffer].
  rewrite length_replicate, take_replicate.
  replace (Nat.min (S m - 1) (S m)) with m by lia.
  rewrite dot_zero_l. split; [reflexivity|]. split; [lra|].
  rewrite dot_cons, dot_zero_l. cbn [replicate zip_with].
  rewrite zip_with_replicate. unfold unit_step_size.
  replace (1 * 1 + 0 + stabilityFactor) with (1 + stabilityFactor) by lra.
  f_equal. f_equal; [lra|]. f_equal. lra.
Qed.

Lemma lms_step_impulse :
  p_y (lms_step 1 adaptive_init).1 = 0 /\
  p_error (lms_step 1 adaptive_init).1 = 1 /\
  (lms_step 1 adaptive_init).2 = after_impulse (1 :: replicate (filterLength - 1) 0).
Proof. rewrite adaptive_init_zero_state. apply lms_step_impulse_zero_state. Qed.

(** A zero sample after the impulse is predicted exactly: the weights stay. *)
Lemma lms_step_after_impulse_zero (b : list R) :
  length b = filterLength ->
  exists b', length b' = filterLength /\ (lms_step 0 (after_impulse b)).2 = after_impulse b'.
Proof.
  intros Hb. exists (0 :: take (filterLength - 1) b). split.
  - cbn [length]. rewrite length_take. pose proof filterLength_pos. lia.
  - unfold lms_step, after_impulse. cbn [snd af_weights af_buffer]. rewrite Hb.
    rewrite (dot_cons unit_step_size), dot_zero_l. f_equal.
    apply zip_with_keep.
    + cbn [length]. rewrite length_replicate, length_take. lia.
    + intros a c. ring.
Qed.

Lemma lms_state_after_impulse_zeros (m : nat) (b : list R) :
  length b = filterLength ->
  exists b', length b' = filterLength /\
             lms_state (after_impulse b) (replicate m 0) = after_impulse b'.
Proof.
  revert b. induction m as [|m IH]; intros b Hb; [exists b; split; [exact Hb|reflexivity]|].
  change (replicate (S m) 0) with ([0] ++ replicate m 0).
  rewrite lms_state_app.
  change (lms_state (after_impulse b) [0]) with (lms_step 0 (after_impulse b)).2.
  destruct (lms_step_after_impulse_zero b Hb) as (b1 & Hb1 & ->).
  apply IH, Hb1.
Qed.

Lemma lms_step_after_impulse_one (b : list R) :
  p_y (lms_step 1 (after_impulse b)).1 = unit_step_size.
Proof.
  unfold lms_step, after_impulse. cbn [fst p_y af_weights af_buffer].
  rewrite dot_cons, dot_zero_l. lra.
Qed.

Lemma unit_step_size_bounds : 0 < unit_step_size < 1.
Proof.
  unfold unit_step_size, nlmsStepSize, stabilityFactor. split.
  - apply Rdiv_lt_0_compat; lra.
  - apply (Rmult_lt_reg_r (1 + 1e-8)); [lra|].
    unfold Rdiv. rewrite Rmult_assoc, Rinv_l; lra.
Qed.

Lemma impulse_window_0 :
  window impulse_at_stride 0 = replicate 96 0 ++ [1] ++ replicate 31 0.
Proof. reflexivity. Qed.

Lemma impulse_window_96 : window impulse_at_stride 96 !!! 0%nat = 1.
Proof. reflexivity. Qed.

(** On the impulse the outer loop makes two passes, and the second one
    predicts the impulse with the weight the first one has learnt. *)
Lemma nlms_run_impulse (now : nat -> R) (t : R) (rt : Runtime) :
  output (nlms_run now t impulse_at_stride rt) !!! 96%nat = unit_step_size.
Proof.
  unfold nlms_run. rewrite stride_value.
  change (length impulse_at_stride) with 97%nat.
  rewrite for_stride_step by lia. cbn [Nat.add].
  rewrite for_stride_step by lia. rewrite for_stride_done by lia.
  set (s1 := nlms_chunk now t impulse_at_stride 0 (nlms_init impulse_at_stride rt)).
  assert (Hs1 : nlms_shape (length impulse_at_stride) s1)
    by apply nlms_chunk_shape, nlms_init_shape.
  rewrite (proj2 (nlms_chunk_lms now t impulse_at_stride 96 s1 Hs1) 96%nat).
  destruct (decide _) as [_|Hno];
    [|change (length impulse_at_stride) with 97%nat in Hno; unfold chunkSize in Hno; lia].
  replace (96 - 96)%nat with 0%nat by lia.
  rewrite lms_recursion_lookup by (rewrite window_length; unfold chunkSize; lia).
  rewrite take_0, impulse_window_96. change (lms_state (adaptive_state s1) []) with (adaptive_state s1).
  subst s1.
  rewrite (proj1 (nlms_chunk_lms now t impulse_at_stride 0 _
                    (nlms_init_shape impulse_at_stride rt))).
  rewrite adaptive_state_init, impulse_window_0, !lms_state_app, lms_state_zeros.
  change (lms_state adaptive_init [1]) with (lms_step 1 adaptive_init).2.
  rewrite (proj2 (proj2 lms_step_impulse)).
  destruct (lms_state_after_impulse_zeros 31 (1 :: replicate (filterLength - 1) 0))
    as (b & _ & ->).
  - cbn [length]. rewrite length_replicate. pose proof filterLength_pos. lia.
  - apply lms_step_after_impulse_one.
Qed.

Lemma recursion_impulse (emit : Prediction -> R) :
  lms_recursion emit adaptive_init impulse_at_stride !!! 96%nat =
  emit (lms_step 1 adaptive_init).1.
Proof.
  rewrite lms_recursion_lookup by (change (length impulse_at_stride) with 97%nat; lia).
  change (impulse_at_stride !!! 96%nat) with 1.
  change (take 96 impulse_at_stride) with (replicate 96 0).
  rewrite lms_state_zeros. reflexivity.
Qed.

(** C2, counterexample. On ninety-six zeros followed by a one the NLMS
    stage emits [0.8 / (1 + 1e-8)] at index 96, where the recursion run
    once over the signal has the error [1] and the prediction [0]: the
    second pass of the outer loop has met the sample again. *)
Lemma chunked_loop_counterexample :
  let out := (applyNLMSFilter (fun _ => 0) impulse_at_stride fresh_runtime).1 in
  out !!! 96%nat = 0.8 / (1 + 1e-8) /\
  recursion_errors impulse_at_stride !!! 96%nat = 1 /\
  recursion_predictions impulse_at_stride !!! 96%nat = 0 /\
  out <> recursion_errors impulse_at_stride /\
  out <> recursion_predictions impulse_at_stride.
Proof.
  intros out.
  assert (Hout : out !!! 96%nat = unit_step_size).
  { subst out. rewrite applyNLMSFilter_output. apply nlms_run_impulse. }
  assert (He : recursion_errors impulse_at_stride !!! 96%nat = 1).
  { unfold recursion_errors. rewrite recursion_impulse. apply lms_step_impulse. }
  assert (Hp : recursion_predictions impulse_at_stride !!! 96%nat = 0).
  { unfold recursion_predictions. rewrite recursion_impulse. apply lms_step_impulse. }
  pose proof unit_step_size_bounds as Hb.
  split; [exact Hout|]. split; [exact He|]. split; [exact Hp|]. split.
  - intros Heq. rewrite Heq, He in Hout. lra.
  - intros Heq. rewrite Heq, Hp in Hout. lra.
Qed.

(** ** What a per-sample step emits *)

Lemma applyNLMSFilter_first_sample (now : nat -> R) (x : R) (rest : list R) (rt : Runtime) :
  (applyNLMSFilter now (x :: rest) rt).1 !!! 0%nat = 0.
Proof.
  rewrite applyNLMSFilter_output.
  rewrite nlms_run_first_pass by (cbn [length]; lia).
  unfold recursion_predictions. cbn [lms_recursion].
  change ((?a :: ?l) !!! 0%nat) with a.
  unfold lms_step. cbn [fst p_y]. apply dot_zero_l.
Qed.

(** C1 (as amended). Every per-sample step of the NLMS stage writes to
    [output[i + j]] the filter prediction [y] it has computed from the
    weights and the shifted delay line, and no other sample; the error
    [x - y] is not what is emitted.  In particular the first sample of
    every output is [0], the prediction of the zero weights. *)
Theorem nlms_emits_prediction (now : nat -> R) (startTime : R) (i j : nat) (st : NLMS) :
  (i + j < length (output st))%nat ->
  let st' := nlms_sample now startTime i j st in
  output st' !!! (i + j)%nat = sample_y st j /\
  sample_y st j = nlms_predict (weights st) (shifted_buffer st j) /\
  sample_error st j = processingBuffer st !!! j - sample_y st j /\
  (forall k, k <> (i + j)%nat -> output st' !!! k = output st !!! k) /\
  (forall x rest rt, (applyNLMSFilter now (x :: rest) rt).1 !!! 0%nat = 0).
Proof.
  intros Hin st'. subst st'.
  destruct (nlms_sample_fields now startTime i j st) as (-> & _).
  split; [apply list_lookup_total_insert_eq, Hin|].
  split; [reflexivity|]. split; [reflexivity|]. split.
  - intros k Hne. apply list_lookup_total_insert_ne. congruence.
  - intros x rest rt. apply applyNLMSFilter_first_sample.
Qed.

Lemma nlms_emits_prediction_witness :
  let st := first_step_state [1] fresh_runtime in
  let st' := nlms_sample (fun _ => 0) 0 0 0 st in
  output st' !!! (0 + 0)%nat = sample_y st 0 /\
  sample_y st 0 = nlms_predict (weights st) (shifted_buffer st 0) /\
  sample_error st 0 = processingBuffer st !!! 0%nat - sample_y st 0 /\
  (forall k, k <> (0 + 0)%nat -> output st' !!! k = output st !!! k) /\
  (forall x rest rt, (applyNLMSFilter (fun _ => 0) (x :: rest) rt).1 !!! 0%nat = 0).
Proof.
  apply (nlms_emits_prediction (fun _ => 0) 0 0 0 (first_step_state [1] fresh_runtime)).
  cbn [first_step_state nlms_init output new_Float32Array length replicate Nat.add].
  lia.
Defined.

(** C1, counterexample. On the one-sample signal [[1]] the first step has
    the error [1 - 0 = 1] and writes the prediction [0]: the stage returns
    [[0]], where the recursion that emits the error has [[1]]. *)
Lemma nlms_emits_error_counterexample :
  let st := first_step_state [1] fresh_runtime in
  let st' := nlms_sample (fun _ => 0) 0 0 0 st in
  sample_error st 0 = 1 /\
  output st' !!! 0%nat = 0 /\
  output st' !!! 0%nat <> sample_error st 0 /\
  (applyNLMSFilter (fun _ => 0) [1] fresh_runtime).1 = [0] /\
  recursion_errors [1] = [1].
Proof.
  intros st st'.
  assert (Hy : sample_y st 0 = 0).
  { apply sample_y_zero_weights. apply all_zero_replicate. }
  assert (Hx : processingBuffer st !!! 0%nat = 1).
  { subst st. cbn [first_step_state processingBuffer nlms_init].
    rewrite fill_processingBuffer_window;
      [reflexivity| |unfold chunkSize; lia].
    unfold new_Float32Array. rewrite length_replicate. lia. }
  assert (He : sample_error st 0 = 1).
  { unfold sample_error. rewrite Hx, Hy. lra. }
  assert (Ho : output st' !!! 0%nat = 0).
  { subst st'.
    destruct (nlms_sample_fields (fun _ => 0) 0 0 0 st) as (-> & _).
    rewrite Hy. reflexivity. }
  split; [exact He|]. split; [exact Ho|]. split; [rewrite Ho, He; lra|].
  destruct lms_step_impulse as (Hpy & Hpe & _).
  split.
  - rewrite applyNLMSFilter_short by (cbn [length]; lia).
    unfold recursion_predictions. cbn [lms_recursion]. rewrite Hpy. reflexivity.
  - unfold recursion_errors. cbn [lms_recursion]. rewrite Hpe. reflexivity.
Qed.

(** ** Small runs *)

(** A delay of 0.05 ms is two samples: the echo starts at the third. *)
Example addEcho_small :
  addEcho_output 0.05 [1; 2; 3; 4] = [1; 2; 3 + 1 * 0.5; 4 + 2 * 0.5].
Proof.
  destruct (addEcho_output_spec 0.05 [1; 2; 3; 4]) as [Hlen Hval].
  assert (Hd : delayInSamples 0.05 = 2%Z)
    by (unfold delayInSamples; apply Zfloor_eq; lra).
  rewrite Hd in Hval. apply list_eq_total; [exact Hlen|].
  rewrite Hlen. intros i Hi. rewrite (Hval i Hi).
  do 4 (destruct i as [|i]; [simpl; unfold echoIntensity; lra|]).
  cbn [length] in Hi. lia.
Qed.

(** Pre-emphasis of a three-sample signal, and back. *)
Example emphasis_small :
  applyPreProcessing [1; 2; 3] = [1; 2 - 0.95 * 1; 3 - 0.95 * 2] /\
  applyPostProcessing [1; 2 - 0.95 * 1; 3 - 0.95 * 2] = [1; 2; 3].
Proof.
  split; [reflexivity|].
  unfold applyPostProcessing, for_range. simpl. unfold alpha.
  f_equal. f_equal; [lra|]. f_equal. lra.
Qed.

(** * Further properties of the code *)

(** ** Metrics engine: energies and the sign of ERLE *)

Lemma sum_loop_shift (f : nat -> R) (lo hi : nat) (a : R) :
  for_range lo hi (fun k y => y + f k) a = a + for_range lo hi (fun k y => y + f k) 0.
Proof.
  destruct (le_lt_dec lo hi) as [Hle|Hlt].
  - induction hi as [|hi IH].
    + rewrite !for_range_empty by lia. lra.
    + destruct (decide (lo = S hi)) as [->|Hne].
      * rewrite !for_range_empty by lia. lra.
      * rewrite !for_range_last by lia. rewrite IH by lia. lra.
  - rewrite !for_range_empty by lia. lra.
Qed.

Lemma partial_energy_nonneg (signal : list R) (lo hi : nat) :
  0 <= partial_energy signal lo hi.
Proof.
  unfold partial_energy. destruct (le_lt_dec lo hi) as [Hle|Hlt].
  - apply (for_range_ind (fun _ t => 0 <= t)); [lia|lra|].
    intros k t _ Ht. nra.
  - rewrite for_range_empty by lia. lra.
Qed.

Lemma partial_energy_split (signal : list R) (lo mid hi : nat) :
  (lo <= mid)%nat -> (mid <= hi)%nat ->
  partial_energy signal lo hi =
  partial_energy signal lo mid + partial_energy signal mid hi.
Proof.
  intros H1 H2. unfold partial_energy.
  rewrite (for_range_split lo mid hi) by lia.
  apply (sum_loop_shift (fun j => signal !!! j * signal !!! j)).
Qed.

Lemma partial_energy_ext (u v : list R) (lo hi : nat) :
  (forall k, (lo <= k < hi)%nat -> u !!! k = v !!! k) ->
  partial_energy u lo hi = partial_energy v lo hi.
Proof.
  intros Heq. unfold partial_energy. apply for_range_ext.
  intros k t Hk. rewrite Heq by exact Hk. reflexivity.
Qed.

Lemma partial_energy_total (l : list R) :
  partial_energy l 0 (length l) = energy l.
Proof.
  unfold partial_energy, energy. rewrite <- sum_loop_list, length_fmap.
  apply for_range_ext. intros k t Hk.
  rewrite (list_lookup_total_fmap (fun x : R => x * x) l k) by lia. reflexivity.
Qed.

Lemma energy_nonneg (l : list R) : 0 <= energy l.
Proof. rewrite <- partial_energy_total. apply partial_energy_nonneg. Qed.

Lemma energy_sums_partial (original processed : list R) :
  energy_sums original processed =
  (partial_energy original 0 (length original),
   partial_energy processed 0 (length original)).
Proof.
  unfold energy_sums, partial_energy.
  apply (for_range_ind
    (fun k t => t = (for_range 0 k (fun j fp => fp + original !!! j * original !!! j) 0,
                     for_range 0 k (fun j fp => fp + processed !!! j * processed !!! j) 0)));
    [lia|reflexivity|].
  intros k t _ ->. rewrite !for_range_last by lia. reflexivity.
Qed.

Lemma energy_sums_energy (original processed : list R) :
  length processed = length original ->
  energy_sums original processed = (energy original, energy processed).
Proof.
  intros Hlen. rewrite energy_sums_partial. rewrite <- Hlen at 2.
  rewrite !partial_energy_total. reflexivity.
Qed.

Lemma ln_10_pos : 0 < ln 10.
Proof. rewrite <- ln_1. apply ln_increasing; lra. Qed.

Lemma log10_Rinv (x : R) : 0 < x -> log10 (/ x) = - log10 x.
Proof. intros Hx. unfold log10. rewrite ln_Rinv by exact Hx. field. pose proof ln_10_pos. lra. Qed.

Lemma guarded_ratio_pos (a b e : R) : 0 <= a -> 0 <= b -> 0 < e -> 0 < (a + e) / (b + e).
Proof. intros Ha Hb He. apply Rdiv_lt_0_compat; lra. Qed.

Lemma log10_nonneg (x : R) : 1 <= x -> 0 <= log10 x.
Proof.
  intros Hx. pose proof ln_10_pos as H10. unfold log10.
  assert (Hln : 0 <= ln x).
  { destruct (Req_dec x 1) as [->|Hne]; [rewrite ln_1; lra|].
    rewrite <- ln_1. apply Rlt_le, ln_increasing; lra. }
  pose proof (Rinv_0_lt_compat _ H10) as Hinv. unfold Rdiv. nra.
Qed.

Lemma energy_cons (a : R) (l : list R) : energy (a :: l) = a * a + energy l.
Proof. reflexivity. Qed.

(** Samples that are no larger in magnitude carry no more energy. *)
Lemma energy_le (processed original : list R) :
  length processed = length original ->
  (forall j, (j < length original)%nat ->
     Rabs (processed !!! j) <= Rabs (original !!! j)) ->
  energy processed <= energy original.
Proof.
  revert original. induction processed as [|a p IH]; intros original Hlen Hsmall.
  - destruct original; [lra|discriminate].
  - destruct original as [|b o]; [discriminate|].
    rewrite !energy_cons.
    assert (Hab : a * a <= b * b).
    { apply (Rsqr_le_abs_1 a b). apply (Hsmall 0%nat). cbn [length]. lia. }
    assert (Hrest : energy p <= energy o).
    { apply IH; [cbn [length] in Hlen; lia|].
      intros j Hj. apply (Hsmall (S j)). cbn [length]. lia. }
    lra.
Qed.

(** X1. On signals of equal length ERLE is ten times the decimal
    logarithm of the guarded ratio of the two energies, and attenuation is
    never reported as gain: if no processed sample is larger in magnitude
    than the original sample at its place, the processed signal has no
    more energy and neither ERLE nor REA is negative. *)
Theorem erle_attenuation (original processed : list R) :
  length processed = length original ->
  (forall j, (j < length original)%nat ->
     Rabs (processed !!! j) <= Rabs (original !!! j)) ->
  calculateERLE original processed
    = 10 * log10 ((energy original + 1e-12) / (energy processed + 1e-12)) /\
  energy processed <= energy original /\
  0 <= calculateERLE original processed /\
  0 <= calculateREA original processed.
Proof.
  intros Hlen Hsmall.
  assert (He : calculateERLE original processed
               = 10 * log10 ((energy original + 1e-12) / (energy processed + 1e-12))).
  { rewrite calculateERLE_sums, (energy_sums_energy _ _ Hlen). reflexivity. }
  pose proof (energy_le processed original Hlen Hsmall) as Hle.
  pose proof (energy_nonneg processed) as Hp.
  assert (Hratio : 1 <= (energy original + 1e-12) / (energy processed + 1e-12)).
  { apply (Rmult_le_reg_r (energy processed + 1e-12)); [lra|].
    unfold Rdiv. rewrite Rmult_assoc, Rinv_l by lra. lra. }
  pose proof (log10_nonneg _ Hratio) as Hlog.
  split; [exact He|]. split; [exact Hle|].
  assert (0 <= calculateERLE original processed) by (rewrite He; lra).
  split; [assumption|]. rewrite calculateREA_twice_ERLE. lra.
Qed.

Lemma erle_attenuation_witness :
  calculateERLE [1; -2] [0.5; 1]
    = 10 * log10 ((energy [1; -2] + 1e-12) / (energy [0.5; 1] + 1e-12)) /\
  energy [0.5; 1] <= energy [1; -2] /\
  0 <= calculateERLE [1; -2] [0.5; 1] /\
  0 <= calculateREA [1; -2] [0.5; 1].
Proof.
  apply (erle_attenuation [1; -2] [0.5; 1]); [reflexivity|].
  intros j Hj. cbn [length] in Hj.
  destruct j as [|[|j]]; [| |lia];
    cbn [lookup_total list_lookup_total]; unfold Rabs;
    repeat destruct (Rcase_abs _); lra.
Defined.

(** X2. Exchanging the two signals of equal length negates ERLE and REA:
    what one direction counts as attenuation the other counts as gain. *)
Theorem erle_antisymmetric (a b : list R) :
  length a = length b ->
  calculateERLE a b = - calculateERLE b a /\
  calculateREA a b = - calculateREA b a.
Proof.
  intros Hlen.
  assert (He : calculateERLE a b = - calculateERLE b a).
  { rewrite !calculateERLE_sums.
    rewrite (energy_sums_energy a b) by congruence.
    rewrite (energy_sums_energy b a) by congruence. cbn [fst snd].
    pose proof (energy_nonneg a) as Ha. pose proof (energy_nonneg b) as Hb.
    replace ((energy a + 1e-12) / (energy b + 1e-12))
      with (/ ((energy b + 1e-12) / (energy a + 1e-12))) by (field; lra).
    rewrite log10_Rinv by (apply guarded_ratio_pos; lra). lra. }
  split; [exact He|]. rewrite !calculateREA_twice_ERLE, He. lra.
Qed.

Lemma erle_antisymmetric_witness :
  calculateERLE [1; 2] [0; 1] = - calculateERLE [0; 1] [1; 2] /\
  calculateREA [1; 2] [0; 1] = - calculateREA [0; 1] [1; 2].
Proof. apply (erle_antisymmetric [1; 2] [0; 1]). reflexivity. Defined.

(** ** Metrics engine: the frame classifier of SNR *)

Section StrideIndexed.
Context {St : Type}.

(** The invariant rule of the strided loop with the counter in the
    invariant: with enough fuel the loop ends at a counter of at least
    [hi]. *)
Lemma for_stride_ind_idx (P : nat -> St -> Prop) fuel i hi stride
      (body : nat -> St -> St) (s : St) :
  (0 < stride)%nat -> (hi - i <= fuel)%nat ->
  P i s ->
  (forall k t, (i <= k < hi)%nat -> P k t -> P (k + stride)%nat (body k t)) ->
  exists i', (hi <= i')%nat /\ P i' (for_stride fuel i hi stride body s).
Proof.
  intros Hs. revert i s. induction fuel as [|fuel IH]; intros i s Hf H0 Hstep.
  - exists i. split; [lia|exact H0].
  - simpl. destruct (Nat.ltb_spec i hi) as [Hlt|Hge].
    + apply IH; [lia|apply Hstep; [lia|exact H0]|].
      intros k t Hk. apply Hstep. lia.
    + exists i. split; [lia|exact H0].
Qed.
End StrideIndexed.

Lemma calculateSNR_powers (signal : list R) :
  calculateSNR signal =
  10 * log10 (((snr_powers signal).1 + 1e-10) / ((snr_powers signal).2 + 1e-10)).
Proof.
  unfold calculateSNR, snr_powers.
  destruct (for_stride _ _ _ _ _ _) as [signalPower noisePower]. reflexivity.
Qed.

Lemma log10_nonpos (x : R) : 0 < x -> x <= 1 -> log10 x <= 0.
Proof.
  intros Hx Hle. pose proof ln_10_pos as H10. unfold log10.
  assert (Hln : ln x <= 0).
  { destruct (Req_dec x 1) as [->|Hne]; [rewrite ln_1; lra|].
    rewrite <- ln_1. apply Rlt_le, ln_increasing; lra. }
  pose proof (Rinv_0_lt_compat _ H10) as Hinv. unfold Rdiv. nra.
Qed.

(** X3. The frame classifier of [calculateSNR] splits the energy of the
    signal: the signal power and the noise power are non-negative and add
    up to the energy of the whole signal, so the guarded ratio under the
    logarithm is positive. *)
Theorem snr_partition (signal : list R) :
  0 <= (snr_powers signal).1 /\
  0 <= (snr_powers signal).2 /\
  (snr_powers signal).1 + (snr_powers signal).2 = energy signal /\
  0 < ((snr_powers signal).1 + 1e-10) / ((snr_powers signal).2 + 1e-10) /\
  calculateSNR signal =
    10 * log10 (((snr_powers signal).1 + 1e-10) / ((snr_powers signal).2 + 1e-10)).
Proof.
  set (n := length signal).
  pose (P := fun (k : nat) (t : R * R) =>
    0 <= t.1 /\ 0 <= t.2 /\ t.1 + t.2 = partial_energy signal 0 (Nat.min k n)).
  destruct (for_stride_ind_idx P n 0 n 128
              (fun i '(signalPower, noisePower) =>
                 let end_ := Nat.min (i + 128) n in
                 let framePower :=
                   for_range i end_ (fun j fp => fp + signal !!! j * signal !!! j) 0 in
                 if bool_decide (framePower > 0.005)
                 then (signalPower + framePower, noisePower)
                 else (signalPower, noisePower + framePower))
              (0, 0)) as (i' & Hi' & HP); [lia|lia| | |].
  - subst P. cbn [fst snd]. unfold partial_energy.
    rewrite for_range_empty by lia. lra.
  - subst P. intros k [sp np] Hk (Hs & Hn & Hsum). cbn [fst snd] in *.
    fold (partial_energy signal k (Nat.min (k + 128) n)).
    pose proof (partial_energy_nonneg signal k (Nat.min (k + 128) n)) as Hfp.
    rewrite (partial_energy_split signal 0 k (Nat.min (k + 128) n)) by lia.
    replace (Nat.min k n) with k in Hsum by lia.
    destruct (bool_decide _); cbn [fst snd]; repeat split; lra.
  - change (P i' (snr_powers signal)) in HP. destruct HP as (H1 & H2 & H3).
    replace (Nat.min i' n) with n in H3 by lia.
    unfold n in H3. rewrite partial_energy_total in H3.
    repeat split; try assumption.
    + apply Rdiv_lt_0_compat; lra.
    + apply calculateSNR_powers.
Qed.

(** X4. A signal whose whole energy is at most [0.004], clear of the frame
    threshold [0.005], has no frame classified as signal: its signal power
    is [0], its noise power is its energy, and its SNR is at most [0] dB. *)
Theorem snr_quiet (signal : list R) :
  energy signal <= 0.004 ->
  snr_powers signal = (0, energy signal) /\
  calculateSNR signal = 10 * log10 (1e-10 / (energy signal + 1e-10)) /\
  calculateSNR signal <= 0.
Proof.
  intros Hquiet. set (n := length signal).
  pose (P := fun (k : nat) (t : R * R) =>
    t = (0, partial_energy signal 0 (Nat.min k n))).
  assert (Hpow : snr_powers signal = (0, energy signal)).
  { destruct (for_stride_ind_idx P n 0 n 128
              (fun i '(signalPower, noisePower) =>
                 let end_ := Nat.min (i + 128) n in
                 let framePower :=
                   for_range i end_ (fun j fp => fp + signal !!! j * signal !!! j) 0 in
                 if bool_decide (framePower > 0.005)
                 then (signalPower + framePower, noisePower)
                 else (signalPower, noisePower + framePower))
              (0, 0)) as (i' & Hi' & HP); [lia|lia| | |].
    - subst P. cbv beta. unfold partial_energy.
      rewrite for_range_empty by lia. reflexivity.
    - subst P. intros k t Hk ->. cbv beta iota zeta.
      fold (partial_energy signal k (Nat.min (k + 128) n)).
      replace (Nat.min k n) with k by lia.
      assert (Hfp : partial_energy signal k (Nat.min (k + 128) n) <= 0.005).
      { rewrite <- partial_energy_total in Hquiet. fold n in Hquiet.
        rewrite (partial_energy_split signal 0 k n) in Hquiet by lia.
        rewrite (partial_energy_split signal k (Nat.min (k + 128) n) n) in Hquiet by lia.
        pose proof (partial_energy_nonneg signal 0 k).
        pose proof (partial_energy_nonneg signal (Nat.min (k + 128) n) n).
        lra. }
      rewrite bool_decide_eq_false_2 by (unfold Rgt; lra).
      f_equal. symmetry.
      apply partial_energy_split; lia.
    - change (P i' (snr_powers signal)) in HP. subst P. cbv beta in HP. rewrite HP.
      replace (Nat.min i' n) with n by lia.
      unfold n. rewrite partial_energy_total. reflexivity. }
  assert (Hsnr : calculateSNR signal = 10 * log10 (1e-10 / (energy signal + 1e-10))).
  { rewrite calculateSNR_powers, Hpow. cbn [fst snd].
    replace (0 + 1e-10) with 1e-10 by lra. reflexivity. }
  split; [exact Hpow|]. split; [exact Hsnr|].
  rewrite Hsnr. pose proof (energy_nonneg signal) as He.
  assert (Hr : 0 < 1e-10 / (energy signal + 1e-10)) by (apply Rdiv_lt_0_compat; lra).
  assert (Hr1 : 1e-10 / (energy signal + 1e-10) <= 1).
  { apply (Rmult_le_reg_r (energy signal + 1e-10)); [lra|].
    unfold Rdiv. rewrite Rmult_assoc, Rinv_l by lra. lra. }
  pose proof (log10_nonpos _ Hr Hr1). lra.
Qed.

Lemma snr_quiet_witness :
  snr_powers [0.05; 0] = (0, energy [0.05; 0]) /\
  calculateSNR [0.05; 0] = 10 * log10 (1e-10 / (energy [0.05; 0] + 1e-10)) /\
  calculateSNR [0.05; 0] <= 0.
Proof. apply (snr_quiet [0.05; 0]). unfold energy. simpl. lra. Defined.

(** ** Echo synthesizer: edge delays and superposition *)

Lemma float_list_eq (l1 l2 : list IEEE.float) :
  length l1 = length l2 ->
  (forall i, (i < length l1)%nat -> l1 !!! i = l2 !!! i) ->
  l1 = l2.
Proof.
  intros Hlen Hval. apply (list_eq_same_length l1 l2 (length l1)); [lia..|].
  intros i x y Hi Hx Hy. specialize (Hval i Hi).
  rewrite (list_lookup_total_correct _ _ _ Hx) in Hval.
  rewrite (list_lookup_total_correct _ _ _ Hy) in Hval. exact Hval.
Qed.

(** A read past the end of the array. *)
Lemma float_lookup_undefined (l : list IEEE.float) (k : nat) :
  (length l <= k)%nat -> @eq IEEE.float (l !!! k) S754_nan.
Proof.
  revert k. induction l as [|a l IH]; intros k Hk.
  - destruct k; reflexivity.
  - destruct k as [|k]; cbn [length] in Hk; [lia|].
    change ((a :: l) !!! S k) with (l !!! k). apply IH. lia.
Qed.

(** X5. At the edges of the delay range [addEcho] degenerates, bit for
    bit: a [Float32Array] no longer than the delay comes back unchanged; a
    delay of less than one sample makes sample [i] the binary32 rounding of
    [input[i] + input[i] * 0.5]; and an echo delay that is NaN, or so large
    that the product overflows, adds no echo at all. *)
Theorem addEcho_edge_delays (echoDelay : IEEE.float) (audioData : list IEEE.float) :
  Forall IEEE.float32 audioData ->
  (forall delaySamples : nat,
     IEEE.delayInSamples echoDelay = IEEE.delay_samples (Z.of_nat delaySamples) ->
     (length audioData <= delaySamples)%nat ->
     IEEE.addEcho_output echoDelay audioData = audioData) /\
  (IEEE.delayInSamples echoDelay = IEEE.delay_samples 0 ->
   IEEE.addEcho_output echoDelay audioData =
   (fun x => IEEE.fround (IEEE.add (IEEE.widen x) (IEEE.mul (IEEE.widen x) IEEE.half)))
     <$> audioData) /\
  (IEEE.delayInSamples echoDelay = IEEE.delay_nan \/
   IEEE.delayInSamples echoDelay = IEEE.delay_infinite false ->
   IEEE.addEcho_output echoDelay audioData = audioData).
Proof.
  intros Hf32.
  destruct (ieee_addEcho_output_spec echoDelay audioData) as [Hlen Hval].
  cbv zeta in Hlen, Hval.
  split; [|split].
  - intros d Hd Hshort. rewrite Hd in Hval.
    apply float_list_eq; [exact Hlen|].
    rewrite Hlen. intros i Hi. rewrite Hval by exact Hi. cbn [IEEE.reached].
    destruct (Z.leb_spec (Z.of_nat d) (Z.of_nat i)); [lia|].
    apply float32_lookup; assumption.
  - intros Hd. rewrite Hd in Hval.
    apply float_list_eq; [rewrite Hlen, length_fmap; reflexivity|].
    rewrite Hlen. intros i Hi. rewrite Hval by exact Hi.
    rewrite (list_lookup_total_fmap
               (fun x => IEEE.fround (IEEE.add (IEEE.widen x)
                                        (IEEE.mul (IEEE.widen x) IEEE.half)))
               audioData i) by exact Hi.
    cbn [IEEE.reached IEEE.delayed].
    destruct (Z.leb_spec 0 (Z.of_nat i)); [|lia].
    rewrite float32_lookup by assumption.
    replace (Z.to_nat (Z.of_nat i - 0)) with i by lia. reflexivity.
  - intros Hd. apply float_list_eq; [exact Hlen|].
    rewrite Hlen. intros i Hi. rewrite Hval by exact Hi.
    destruct Hd as [-> | ->]; cbn [IEEE.reached]; apply float32_lookup; assumption.
Qed.

Lemma addEcho_edge_delays_witness :
  let audioData := [IEEE.fround (IEEE.decimal 3 1); IEEE.fround (IEEE.decimal 1 1)] in
  IEEE.addEcho_output (IEEE.of_Z 100) audioData = audioData /\
  IEEE.addEcho_output (IEEE.decimal 1 2) audioData
    = [S754_finite false 15099495 (-25); S754_finite false 10066330 (-26)] /\
  IEEE.addEcho_output (IEEE.div (IEEE.of_Z 0) (IEEE.of_Z 0)) audioData = audioData.
Proof.
  intros audioData.
  assert (Hf32 : Forall IEEE.float32 audioData)
    by (repeat constructor; vm_compute; reflexivity).
  split; [|split].
  - apply (proj1 (addEcho_edge_delays (IEEE.of_Z 100) audioData Hf32) 4410%nat).
    + vm_compute. reflexivity.
    + cbn. lia.
  - rewrite (proj1 (proj2 (addEcho_edge_delays (IEEE.decimal 1 2) audioData Hf32)))
      by (vm_compute; reflexivity).
    vm_compute. reflexivity.
  - apply (proj2 (proj2 (addEcho_edge_delays (IEEE.div (IEEE.of_Z 0) (IEEE.of_Z 0))
                           audioData Hf32))).
    left. vm_compute. reflexivity.
Defined.

Lemma ieee_add_nan (x : IEEE.float) : IEEE.add x S754_nan = S754_nan.
Proof. destruct x; reflexivity. Qed.

(** X22. A negative echo delay, which [setParameters] does not refuse,
    takes the echo from the samples to come and reads past the end of the
    input: with [floor(echoDelay * 44.1) = - advance], sample [i] is the
    binary32 rounding of [input[i] + input[i + advance] * 0.5] as long as
    [i + advance] is an index of the input, and NaN from there to the
    end. *)
Theorem addEcho_negative_delay (echoDelay : IEEE.float) (advance : nat)
        (audioData : list IEEE.float) :
  Forall IEEE.float32 audioData ->
  IEEE.delayInSamples echoDelay = IEEE.delay_samples (- Z.of_nat advance) ->
  let out := IEEE.addEcho_output echoDelay audioData in
  length out = length audioData /\
  (forall i, (i + advance < length audioData)%nat ->
     out !!! i =
     IEEE.fround
       (IEEE.add (IEEE.widen (audioData !!! i))
                 (IEEE.mul (IEEE.widen (audioData !!! (i + advance)%nat)) IEEE.half))) /\
  (forall i, (i < length audioData)%nat -> (length audioData <= i + advance)%nat ->
     out !!! i = S754_nan).
Proof.
  intros Hf32 Hd out.
  destruct (ieee_addEcho_output_spec echoDelay audioData) as [Hlen Hval].
  fold out in Hlen, Hval. rewrite Hd in Hval.
  assert (Hreach : forall i, IEEE.reached i (IEEE.delay_samples (- Z.of_nat advance)) = true).
  { intros i. cbn [IEEE.reached]. apply Z.leb_le. lia. }
  split; [exact Hlen|]. split.
  - intros i Hi. rewrite Hval by lia. rewrite Hreach. cbn [IEEE.delayed].
    rewrite float32_lookup by (assumption || lia).
    replace (Z.to_nat (Z.of_nat i - - Z.of_nat advance)) with (i + advance)%nat by lia.
    reflexivity.
  - intros i Hi Hpast. rewrite Hval by exact Hi. rewrite Hreach. cbn [IEEE.delayed].
    replace (Z.to_nat (Z.of_nat i - - Z.of_nat advance)) with (i + advance)%nat by lia.
    rewrite (float_lookup_undefined audioData (i + advance)) by exact Hpast.
    change (IEEE.mul (IEEE.widen S754_nan) IEEE.half) with S754_nan.
    rewrite ieee_add_nan. reflexivity.
Qed.

Lemma addEcho_negative_delay_witness :
  let audioData := [IEEE.fround (IEEE.decimal 3 1); IEEE.fround (IEEE.decimal 1 1);
                    IEEE.fround (IEEE.decimal 2 1)] in
  let out := IEEE.addEcho_output (SFopp (IEEE.decimal 3 2)) audioData in
  length out = 3%nat /\
  (forall i, (i + 2 < 3)%nat ->
     out !!! i =
     IEEE.fround
       (IEEE.add (IEEE.widen (audioData !!! i))
                 (IEEE.mul (IEEE.widen (audioData !!! (i + 2)%nat)) IEEE.half))) /\
  (forall i, (i < 3)%nat -> (3 <= i + 2)%nat -> out !!! i = S754_nan).
Proof.
  apply (addEcho_negative_delay (SFopp (IEEE.decimal 3 2)) 2
           [IEEE.fround (IEEE.decimal 3 1); IEEE.fround (IEEE.decimal 1 1);
            IEEE.fround (IEEE.decimal 2 1)]).
  - repeat constructor; vm_compute; reflexivity.
  - vm_compute. reflexivity.
Defined.



(** ** Emphasis filter pair: the other direction *)

Lemma applyPostProcessing_spec (input : list R) :
  length (applyPostProcessing input) = length input /\
  forall i, (i < length input)%nat ->
    applyPostProcessing input !!! i =
    match i with
    | O => input !!! 0%nat
    | S i' => input !!! i + alpha * applyPostProcessing input !!! i'
    end.
Proof.
  split; [apply applyPostProcessing_length|].
  unfold applyPostProcessing. set (n := length input).
  destruct (decide (n = 0%nat)) as [Hn|Hn]; [intros i Hi; lia|].
  pose (P := fun (k : nat) (out : list R) =>
    length out = n /\
    forall i, (i < k)%nat ->
      out !!! i = match i with
                  | O => input !!! 0%nat
                  | S i' => input !!! i + alpha * out !!! i'
                  end).
  assert (HP : P n (for_range 1 n
                      (fun i output =>
                         <[i := input !!! i + alpha * output !!! (i - 1)%nat]> output)
                      (<[0%nat := input !!! 0%nat]> (new_Float32Array n)))).
  { apply (for_range_ind P 1 n); subst P; cbv beta; [lia| |].
    - rewrite length_insert. unfold new_Float32Array. rewrite length_replicate.
      split; [reflexivity|]. intros i Hi. replace i with 0%nat by lia.
      apply list_lookup_total_insert_eq. rewrite length_replicate. lia.
    - intros k t Hk [Hlen Hdone]. rewrite length_insert. split; [exact Hlen|].
      intros i Hi. destruct (decide (i = k)) as [->|Hne].
      + rewrite list_lookup_total_insert_eq by lia.
        destruct k as [|k']; [lia|]. replace (S k' - 1)%nat with k' by lia.
        rewrite list_lookup_total_insert_ne by lia. reflexivity.
      + rewrite list_lookup_total_insert_ne by congruence.
        rewrite Hdone by lia. destruct i as [|i']; [reflexivity|].
        rewrite list_lookup_total_insert_ne by lia. reflexivity. }
  destruct HP as [_ HP]. exact HP.
Qed.

(** X7. The emphasis pair is an inverse pair in the other order too:
    pre-emphasis of a de-emphasized signal is the signal, de-emphasis being
    the recursion [y[0] = x[0]], [y[i] = x[i] + 0.95 * y[i - 1]] on its own
    output. *)
Theorem emphasis_round_trip_reverse (x : list R) :
  applyPreProcessing (applyPostProcessing x) = x /\
  length (applyPostProcessing x) = length x /\
  (forall i, (S i < length x)%nat ->
     applyPostProcessing x !!! S i = x !!! S i + 0.95 * applyPostProcessing x !!! i).
Proof.
  destruct (applyPostProcessing_spec x) as [Hlen Hpost].
  destruct (applyPreProcessing_spec (applyPostProcessing x)) as [Hlen' Hpre].
  rewrite Hlen in Hlen', Hpre.
  split; [|split; [exact Hlen|]].
  - apply list_eq_total; [exact Hlen'|]. rewrite Hlen'. intros i Hi.
    rewrite (Hpre i Hi). destruct i as [|i'].
    + apply (Hpost 0%nat Hi).
    + rewrite (Hpost (S i') Hi). lra.
  - intros i Hi. rewrite (Hpost (S i) Hi). reflexivity.
Qed.

(** ** Kalman denoiser: gain schedule and boundedness *)

Lemma kalman_gain_range (p : R) :
  0 <= p ->
  0 < kalman_predict p / (kalman_predict p + kalmanGain) < 1.
Proof.
  intros Hp. apply kalman_predict_pos in Hp. unfold kalmanGain.
  set (q := kalman_predict p) in *. split.
  - apply Rdiv_lt_0_compat; lra.
  - apply (Rmult_lt_reg_r (q + 0.05)); [lra|].
    unfold Rdiv. rewrite Rmult_assoc, Rinv_l by lra. lra.
Qed.

Lemma kalman_sample_covariance_bound (input : list R) (j : nat) (st : Kalman) :
  0 <= errorCovariance st ->
  0 < errorCovariance (kalman_sample input j st) < kalmanGain.
Proof.
  intros Hp. apply kalman_predict_pos in Hp. simpl.
  set (p := kalman_predict (errorCovariance st)) in *.
  replace ((1 - p / (p + kalmanGain)) * p)
    with (kalmanGain * (p / (p + kalmanGain)))
    by (unfold kalmanGain; field; lra).
  assert (Hg : 0 < p / (p + kalmanGain) < 1).
  { unfold kalmanGain. split.
    - apply Rdiv_lt_0_compat; lra.
    - apply (Rmult_lt_reg_r (p + 0.05)); [lra|].
      unfold Rdiv. rewrite Rmult_assoc, Rinv_l by lra. lra. }
  unfold kalmanGain in *. nra.
Qed.

Lemma Rabs_bound_inv (a b : R) : Rabs a <= b -> - b <= a <= b.
Proof. unfold Rabs. destruct (Rcase_abs a); lra. Qed.

Lemma kalman_state_at_S (input : list R) (k : nat) :
  kalman_state_at input (S k) = kalman_sample input k (kalman_state_at input k).
Proof. unfold kalman_state_at. apply for_range_last. lia. Qed.

Lemma kalman_state_at_nonneg (input : list R) (k : nat) :
  0 <= errorCovariance (kalman_state_at input k).
Proof.
  induction k as [|k IH]; [simpl; lra|].
  rewrite kalman_state_at_S. apply kalman_sample_covariance, IH.
Qed.

(** X8. The gain of the Kalman denoiser follows a schedule that does not
    depend on the samples: the error covariance after [k] steps is the same
    for every signal, from the first step on it lies strictly between [0]
    and the measurement noise [0.05], and the gain of every step lies
    strictly between [0] and [1]. *)
Theorem kalman_gain_schedule (input input' : list R) (k : nat) :
  errorCovariance (kalman_state_at input k)
    = errorCovariance (kalman_state_at input' k) /\
  0 < errorCovariance (kalman_state_at input (S k)) < 0.05 /\
  0 < kalman_predict (errorCovariance (kalman_state_at input k))
      / (kalman_predict (errorCovariance (kalman_state_at input k)) + kalmanGain)
    < 1.
Proof.
  split; [|split].
  - induction k as [|k IH]; [reflexivity|].
    rewrite !kalman_state_at_S. cbn [kalman_sample errorCovariance]. rewrite IH.
    reflexivity.
  - rewrite kalman_state_at_S.
    apply (kalman_sample_covariance_bound input k), kalman_state_at_nonneg.
  - apply kalman_gain_range, kalman_state_at_nonneg.
Qed.

(** X9. The Kalman denoiser returns a signal of the length of its input
    whose samples are the successive estimates, and it never overshoots:
    if every input sample is at most [M] in magnitude, so is every output
    sample. *)
Theorem kalman_bounded (input : list R) (M : R) :
  (forall j, (j < length input)%nat -> Rabs (input !!! j) <= M) ->
  0 <= M ->
  length (applyKalmanFilter input) = length input /\
  (forall j, (j < length input)%nat ->
     applyKalmanFilter input !!! j = estimate (kalman_state_at input (S j))) /\
  (forall j, (j < length input)%nat -> Rabs (applyKalmanFilter input !!! j) <= M).
Proof.
  intros Hin HM. unfold applyKalmanFilter. rewrite kalman_run_flat.
  set (n := length input) in *.
  pose (P := fun (k : nat) (st : Kalman) =>
    st = kalman_state_at input k /\
    Rabs (estimate st) <= M /\
    length (k_output st) = n /\
    forall j, (j < k)%nat ->
      k_output st !!! j = estimate (kalman_state_at input (S j)) /\
      Rabs (k_output st !!! j) <= M).
  assert (HP : P n (for_range 0 n (kalman_sample input) (kalman_init input))).
  { apply (for_range_ind P 0 n); subst P; cbv beta; [lia| |].
    - split; [reflexivity|]. cbn [kalman_init estimate k_output].
      rewrite Rabs_R0. split; [exact HM|].
      split; [apply length_replicate|]. intros j Hj. lia.
    - intros k st Hk (Hst & Hest & Hlen & Hdone).
      assert (Hnext : Rabs (estimate (kalman_sample input k st)) <= M).
      { cbn [kalman_sample estimate].
        assert (Hcov : 0 <= errorCovariance st)
          by (rewrite Hst; apply kalman_state_at_nonneg).
        pose proof (kalman_gain_range _ Hcov) as Hg.
        set (g := kalman_predict (errorCovariance st)
                  / (kalman_predict (errorCovariance st) + kalmanGain)) in *.
        apply Rabs_le. apply Rabs_bound_inv in Hest.
        pose proof (Rabs_bound_inv _ _ (Hin k ltac:(lia))) as Hx.
        split; nra. }
      split; [rewrite kalman_state_at_S, <- Hst; reflexivity|].
      split; [exact Hnext|].
      split; [cbn [kalman_sample k_output]; rewrite length_insert; exact Hlen|].
      intros j Hj. destruct (decide (j = k)) as [->|Hne].
      + rewrite kalman_state_at_S, <- Hst.
        assert (Hw : k_output (kalman_sample input k st) !!! k
                     = estimate (kalman_sample input k st)).
        { cbn [kalman_sample k_output estimate].
          apply list_lookup_total_insert_eq. lia. }
        rewrite Hw. split; [reflexivity|exact Hnext].
      + assert (Hw : k_output (kalman_sample input k st) !!! j = k_output st !!! j).
        { cbn [kalman_sample k_output].
          apply list_lookup_total_insert_ne. congruence. }
        rewrite Hw. apply Hdone. lia. }
  destruct HP as (_ & _ & Hlen & Hdone).
  split; [exact Hlen|]. split; intros j Hj; apply (Hdone j Hj).
Qed.

Lemma kalman_bounded_witness :
  length (applyKalmanFilter [1; -1]) = length [1; -1] /\
  (forall j, (j < 2)%nat ->
     applyKalmanFilter [1; -1] !!! j = estimate (kalman_state_at [1; -1] (S j))) /\
  (forall j, (j < 2)%nat -> Rabs (applyKalmanFilter [1; -1] !!! j) <= 1).
Proof.
  apply (kalman_bounded [1; -1] 1); [|lra].
  intros j Hj. destruct j as [|[|j]]; simpl in *.
  - unfold Rabs. destruct (Rcase_abs 1); lra.
  - unfold Rabs. destruct (Rcase_abs (-1)); lra.
  - lia.
Defined.

(** ** NLMS canceller: what the weight update achieves *)

Lemma dot_zip_update (k : R) (w b : list R) :
  length w = length b ->
  dot (zip_with (fun wk bk => wk + k * bk) w b) b = dot w b + k * dot b b.
Proof.
  revert b. induction w as [|a w IH]; intros b Hlen.
  - destruct b; [|discriminate]. unfold dot. cbn. lra.
  - destruct b as [|x b]; [discriminate|]. cbn [zip_with].
    rewrite !dot_cons, IH by (cbn [length] in Hlen; lia). lra.
Qed.

(** X10. The normalized update never makes things worse on the sample it
    has just seen: predicting that sample again with the updated weights
    leaves the error [e * (1 - 0.8 * P / (P + 1e-8))], where [P] is the
    power of the delay line; this is [e] scaled by a factor in (0.2, 1],
    so it has the sign of [e] and at most its magnitude. *)
Theorem nlms_update_shrinks_error (now : nat -> R) (startTime : R) (n i j : nat) (st : NLMS) :
  nlms_shape n st ->
  let st' := nlms_sample now startTime i j st in
  let b := shifted_buffer st j in
  let e := sample_error st j in
  let P := nlms_power b in
  let factor := 1 - nlmsStepSize * P / (P + stabilityFactor) in
  processingBuffer st !!! j - nlms_predict (weights st') b = e * factor /\
  0.2 < factor <= 1 /\
  Rabs (processingBuffer st !!! j - nlms_predict (weights st') b) <= Rabs e.
Proof.
  intros Hshape st' b e P factor.
  destruct Hshape as (Ho & Hw & Hb & Hp).
  assert (Hbl : length b = filterLength)
    by (subst b; rewrite shifted_buffer_length; exact Hb).
  pose proof (nlms_power_nonneg b) as HP. fold P in HP.
  assert (Hpost : processingBuffer st !!! j - nlms_predict (weights st') b = e * factor).
  { subst st'. destruct (nlms_sample_fields now startTime i j st) as (_ & -> & _ & _).
    fold b e. unfold sample_denominator. fold b P.
    rewrite nlms_adapt_zip by assumption.
    rewrite nlms_predict_dot by (rewrite ?length_zip_with; lia).
    rewrite (dot_zip_update (nlmsStepSize / (P + stabilityFactor) * e))
      by congruence.
    rewrite <- (nlms_predict_dot (weights st) b) by assumption.
    rewrite <- (nlms_power_dot b) by assumption. fold P.
    change (nlms_predict (weights st) b) with (sample_y st j).
    subst e factor. unfold sample_error.
    assert (Hs : 0 < stabilityFactor) by (unfold stabilityFactor; lra).
    clearbody P. set (x := processingBuffer st !!! j). set (y := sample_y st j).
    clearbody x y. field. lra. }
  assert (Hf : 0.2 < factor <= 1).
  { subst factor. unfold nlmsStepSize, stabilityFactor. clearbody P.
    assert (Hr : 0 < / (P + 1e-8)) by (apply Rinv_0_lt_compat; lra).
    assert (Hone : (P + 1e-8) * / (P + 1e-8) = 1) by (apply Rinv_r; lra).
    set (r := / (P + 1e-8)) in *.
    change (0.8 * P / (P + 1e-8)) with (0.8 * P * r).
    assert (Hpr : 0 <= P * r) by (apply Rmult_le_pos; lra).
    assert (Hsum : P * r + 1e-8 * r = 1) by lra.
    split; lra. }
  split; [exact Hpost|]. split; [exact Hf|].
  rewrite Hpost, Rabs_mult. rewrite (Rabs_right factor) by lra.
  pose proof (Rabs_pos e). nra.
Qed.

Lemma nlms_update_shrinks_error_witness :
  let st := first_step_state [1] fresh_runtime in
  let st' := nlms_sample (fun _ => 0) 0 0 0 st in
  let b := shifted_buffer st 0 in
  let e := sample_error st 0 in
  let P := nlms_power b in
  let factor := 1 - nlmsStepSize * P / (P + stabilityFactor) in
  processingBuffer st !!! 0%nat - nlms_predict (weights st') b = e * factor /\
  0.2 < factor <= 1 /\
  Rabs (processingBuffer st !!! 0%nat - nlms_predict (weights st') b) <= Rabs e.
Proof.
  apply (nlms_update_shrinks_error (fun _ => 0) 0 1 0 0 (first_step_state [1] fresh_runtime)).
  repeat split;
    cbn [first_step_state nlms_init output weights buffer processingBuffer length
         new_Float32Array];
    rewrite ?length_replicate; reflexivity.
Defined.

(** ** NLMS canceller: the whole run as one recursion *)

Section StrideStarts.
Context {St : Type}.

Lemma stride_count_step (a d : nat) :
  (0 < a)%nat -> (0 < d)%nat ->
  ((a + d - 1) / d = S ((a - d + d - 1) / d))%nat.
Proof.
  intros Ha Hd. destruct (le_lt_dec d a) as [Hge|Hlt].
  - replace (a + d - 1)%nat with ((a - d + d - 1) + 1 * d)%nat by lia.
    rewrite Nat.div_add by lia. lia.
  - replace (a - d + d - 1)%nat with (d - 1)%nat by lia.
    rewrite (Nat.div_small (d - 1) d) by lia.
    symmetry. apply (Nat.div_unique (a + d - 1) d 1 (a - 1)); lia.
Qed.

(** A strided loop with enough fuel runs its body at [stride_starts], in
    order. *)
Lemma for_stride_starts fuel i hi stride (body : nat -> St -> St) (s : St) :
  (0 < stride)%nat -> (hi - i <= fuel)%nat ->
  for_stride fuel i hi stride body s =
  fold_left (fun acc k => body k acc) (stride_starts i hi stride) s.
Proof.
  intros Hs. revert i s. induction fuel as [|fuel IH]; intros i s Hf.
  - unfold stride_starts. replace (hi - i)%nat with 0%nat by lia.
    rewrite Nat.div_small by lia. reflexivity.
  - destruct (le_lt_dec hi i) as [Hle|Hlt].
    + rewrite for_stride_done by lia. unfold stride_starts.
      replace (hi - i)%nat with 0%nat by lia.
      rewrite Nat.div_small by lia. reflexivity.
    + rewrite for_stride_step by lia. rewrite IH by lia.
      unfold stride_starts.
      rewrite (stride_count_step (hi - i) stride) by lia.
      replace (hi - i - stride)%nat with (hi - (i + stride))%nat by lia.
      cbn [seq fmap list_fmap fold_left].
      replace (i + 0 * stride)%nat with i by lia.
      rewrite <- seq_shift, <- list_fmap_compose.
      f_equal. apply list_fmap_ext. intros _ q _. cbn. lia.
Qed.
End StrideStarts.

Lemma lms_recursion_app (emit : Prediction -> R) (s : AdaptiveFilterState) (xs ys : list R) :
  lms_recursion emit s (xs ++ ys) =
  lms_recursion emit s xs ++ lms_recursion emit (lms_state s xs) ys.
Proof.
  revert s. induction xs as [|x xs IH]; intros s; [reflexivity|].
  cbn [app lms_recursion]. rewrite IH. reflexivity.
Qed.

(** The state, the feed and the output after the first [m] passes. *)
Lemma nlms_passes (now : nat -> R) (t : R) (input : list R) (rt : Runtime) (m : nat) :
  let starts := (fun q => (0 + q * 96)%nat) <$> seq 0 m in
  let st := fold_left (fun acc k => nlms_chunk now t input k acc) starts
              (nlms_init input rt) in
  let feed := concat (window input <$> starts) in
  nlms_shape (length input) st /\
  adaptive_state st = lms_state adaptive_init feed /\
  length feed = (128 * m)%nat /\
  forall k, (k < length input)%nat -> (k < 96 * m)%nat ->
    output st !!! k =
    lms_recursion p_y adaptive_init feed !!! (128 * (k / 96) + k mod 96)%nat.
Proof.
  induction m as [|m IH]; cbv zeta in *.
  - cbn [seq fmap list_fmap fold_left concat].
    split; [apply nlms_init_shape|]. split; [reflexivity|]. split; [reflexivity|].
    intros k _ Hk. lia.
  - rewrite seq_S, fmap_app, fold_left_app, fmap_app, concat_app.
    cbn [fmap list_fmap fold_left concat]. rewrite app_nil_r.
    change (0 + (0 + m) * 96)%nat with (m * 96)%nat.
    set (starts := (fun q => (0 + q * 96)%nat) <$> seq 0 m) in *.
    set (st := fold_left (fun acc k => nlms_chunk now t input k acc) starts
                 (nlms_init input rt)) in *.
    set (feed := concat (window input <$> starts)) in *.
    destruct IH as (Hshape & Hstate & Hlen & Hout).
    destruct (nlms_chunk_lms now t input (m * 96) st Hshape) as [Hst' Hout'].
    split; [apply nlms_chunk_shape, Hshape|].
    split; [rewrite Hst', Hstate, lms_state_app; reflexivity|].
    split; [rewrite length_app, window_length, Hlen; unfold chunkSize; lia|].
    intros k Hk Hm. rewrite Hout'.
    pose proof (Nat.div_mod_eq k 96) as Hdm.
    pose proof (Nat.mod_upper_bound k 96 ltac:(lia)) as Hmod.
    rewrite lms_recursion_app.
    destruct (decide _) as [[Hin _]|Hno].
    + assert (Hq : (k / 96 = m)%nat) by (unfold chunkSize in Hin; lia).
      rewrite lookup_total_app_r by (rewrite lms_recursion_length, Hlen; lia).
      rewrite lms_recursion_length, Hlen, <- Hstate.
      f_equal. lia.
    + assert (Hlow : (k < 96 * m)%nat) by (unfold chunkSize in Hno; lia).
      rewrite lookup_total_app_l by (rewrite lms_recursion_length, Hlen; lia).
      apply Hout; assumption.
Qed.

Lemma nlms_run_passes (now : nat -> R) (t : R) (input : list R) (rt : Runtime) :
  nlms_run now t input rt =
  fold_left (fun acc k => nlms_chunk now t input k acc)
    ((fun q => (0 + q * 96)%nat) <$> seq 0 ((length input + 95) / 96))
    (nlms_init input rt).
Proof.
  unfold nlms_run. rewrite for_stride_starts by (rewrite ?stride_value; lia).
  unfold stride_starts. rewrite stride_value.
  replace (length input - 0 + 96 - 1)%nat with (length input + 95)%nat by lia.
  reflexivity.
Qed.

Lemma nlms_feed_passes (input : list R) :
  nlms_feed input =
  concat (window input <$>
            ((fun q => (0 + q * 96)%nat) <$> seq 0 ((length input + 95) / 96))).
Proof.
  unfold nlms_feed, stride_starts. rewrite stride_value.
  replace (length input - 0 + 96 - 1)%nat with (length input + 95)%nat by lia.
  reflexivity.
Qed.

Lemma applyNLMSFilter_feed_lookup (now : nat -> R) (input : list R) (rt : Runtime) (k : nat) :
  (k < length input)%nat ->
  (applyNLMSFilter now input rt).1 !!! k =
  lms_recursion p_y adaptive_init (nlms_feed input)
    !!! (128 * (k / 96) + k mod 96)%nat.
Proof.
  intros Hk. rewrite applyNLMSFilter_output, nlms_run_passes, nlms_feed_passes.
  apply (nlms_passes now _ input _ ((length input + 95) / 96)); [exact Hk|].
  pose proof (Nat.div_mod_eq (length input + 95) 96) as Hdm.
  pose proof (Nat.mod_upper_bound (length input + 95) 96 ltac:(lia)) as Hmod.
  lia.
Qed.

(** ** NLMS canceller: the weights stay bounded *)







(** X11. What the chunked loop of the NLMS stage computes, exactly: it
    is the per-sample recursion run once over the feed, the concatenation
    of the zero-padded 128-sample windows at 0, 96, 192, ... (one for each
    of its [ceil(n / 96)] passes).  The weights and the delay line it ends
    with are those of that recursion, and output sample [k] is the
    prediction the recursion emits at position [128 * (k / 96) + k mod 96]
    of the feed. *)
Theorem nlms_is_recursion_over_feed (now : nat -> R) (input : list R) (rt : Runtime) :
  (forall t, adaptive_state (nlms_run now t input rt)
             = lms_state adaptive_init (nlms_feed input)) /\
  length (nlms_feed input) = (128 * ((length input + 95) / 96))%nat /\
  forall k, (k < length input)%nat ->
    (applyNLMSFilter now input rt).1 !!! k =
    lms_recursion p_y adaptive_init (nlms_feed input)
      !!! (128 * (k / 96) + k mod 96)%nat.
Proof.
  split; [|split].
  - intros t. rewrite nlms_run_passes, nlms_feed_passes.
    apply (nlms_passes now t input rt ((length input + 95) / 96)).
  - rewrite nlms_feed_passes.
    apply (nlms_passes now 0 input rt ((length input + 95) / 96)).
  - intros k Hk. apply applyNLMSFilter_feed_lookup, Hk.
Qed.

(** ** The clock and the metrics record *)

(** The run reads the clock once more if and when it detects convergence. *)
Lemma nlms_run_clock (now : nat -> R) (t : R) (input : list R) (rt : Runtime) :
  let st := nlms_run now t input rt in
  (converged st = false /\ nlms_rt st = rt) \/
  (converged st = true /\
   nlms_rt st = update_metrics (set_convergence (now (perf_reads rt) - t))
                  (mkRuntime (this rt) (S (perf_reads rt)))).
Proof.
  cbv zeta. apply nlms_run_ind.
  - left. split; reflexivity.
  - intros i st _ Hst. apply nlms_chunk_ind; [exact Hst|].
    intros j u _ Hu. unfold nlms_sample.
    destruct Hu as [[Hc Hrt]|[Hc Hrt]]; rewrite Hc; cbn [negb andb].
    + destruct (bool_decide _); cbn [converged nlms_rt performance_now].
      * right. rewrite Hrt. split; reflexivity.
      * left. split; [reflexivity|exact Hrt].
    + right. cbn [converged nlms_rt]. split; [reflexivity|exact Hrt].
Qed.

Lemma applyNLMSFilter_runtime (now : nat -> R) (input : list R) (rt : Runtime) :
  (applyNLMSFilter now input rt).2 =
  update_metrics
    (set_convergence (now (S (perf_reads rt)) - now (perf_reads rt)))
    (mkRuntime (this rt) (S (S (perf_reads rt)))).
Proof.
  unfold applyNLMSFilter. cbv beta iota zeta delta [performance_now snd].
  destruct (nlms_run_clock now (now (perf_reads rt)) input
              (mkRuntime (this rt) (S (perf_reads rt)))) as [[Hc Hrt]|[Hc Hrt]];
    rewrite Hc, Hrt; reflexivity.
Qed.

(** The output of the stage depends on the signal only. *)
Lemma applyNLMSFilter_stateless (now now' : nat -> R) (input : list R) (rt rt' : Runtime) :
  (applyNLMSFilter now input rt).1 = (applyNLMSFilter now' input rt').1.
Proof.
  apply list_eq_total; [rewrite !applyNLMSFilter_length; reflexivity|].
  rewrite applyNLMSFilter_length. intros k Hk.
  rewrite !applyNLMSFilter_feed_lookup by exact Hk. reflexivity.
Qed.

Lemma removeEcho_runtime_eq (now : nat -> R) (audioData : list R) (rt : Runtime) :
  let r := perf_reads rt in
  let out := (removeEcho now audioData rt).1 in
  (removeEcho now audioData rt).2 =
    mkRuntime
      (mkAudioProcessor (echoDelay (this rt))
         (mkMetrics (calculateERLE audioData out)
                    (snr (metrics (this rt)))
                    (calculateREA audioData out)
                    (now (3 + r)%nat - now r)
                    (now (2 + r)%nat - now (1 + r)%nat)))
      (4 + r).
Proof.
  intros r out. subst out r. unfold removeEcho.
  cbv beta iota zeta delta [performance_now].
  pose proof (applyNLMSFilter_runtime now (applyPreProcessing audioData)
                (mkRuntime (this rt) (S (perf_reads rt)))) as Hn.
  destruct (applyNLMSFilter now _ _) as [processed rt1].
  cbn [snd] in Hn. subst rt1. reflexivity.
Qed.

(** X12. [removeEcho] in full: it reads the clock four times, leaves the
    echo delay and the [snr] metric as they were, sets [erle] and [rea]
    from the input and its output, [convergence] to the time between the
    second and the third reading and [latency] to the time between the
    first and the fourth; under a clock that never runs backwards the
    convergence time is non-negative and at most the latency. *)
Theorem removeEcho_runtime (now : nat -> R) (audioData : list R) (rt : Runtime) :
  let r := perf_reads rt in
  let out := (removeEcho now audioData rt).1 in
  (removeEcho now audioData rt).2 =
    mkRuntime
      (mkAudioProcessor (echoDelay (this rt))
         (mkMetrics (calculateERLE audioData out)
                    (snr (metrics (this rt)))
                    (calculateREA audioData out)
                    (now (3 + r)%nat - now r)
                    (now (2 + r)%nat - now (1 + r)%nat)))
      (4 + r) /\
  ((forall a b, (a <= b)%nat -> now a <= now b) ->
   0 <= convergence (getMetrics (removeEcho now audioData rt).2)
     <= latency (getMetrics (removeEcho now audioData rt).2)).
Proof.
  intros r out.
  pose proof (removeEcho_runtime_eq now audioData rt) as Hrt. cbv zeta in Hrt.
  fold r out in Hrt.
  split; [exact Hrt|]. intros Hmono. rewrite Hrt.
  cbn [getMetrics this metrics convergence latency].
  pose proof (Hmono r (1 + r)%nat ltac:(lia)).
  pose proof (Hmono (1 + r)%nat (2 + r)%nat ltac:(lia)).
  pose proof (Hmono (2 + r)%nat (3 + r)%nat ltac:(lia)). lra.
Qed.

Lemma processNoiseAndEcho_runtime_eq (now : nat -> R) (audioData : list R) (rt : Runtime) :
  let r := perf_reads rt in
  let out := (processNoiseAndEcho now audioData rt).1 in
  (processNoiseAndEcho now audioData rt).2 =
    mkRuntime
      (mkAudioProcessor (echoDelay (this rt))
         (mkMetrics (calculateERLE audioData out)
                    (calculateSNR audioData)
                    (calculateREA audioData out)
                    (now (3 + r)%nat - now r)
                    (now (2 + r)%nat - now (1 + r)%nat)))
      (4 + r).
Proof.
  intros r out. subst out r. unfold processNoiseAndEcho.
  cbv beta iota zeta delta [performance_now].
  pose proof (applyNLMSFilter_runtime now
                (applyKalmanFilter (applyPreProcessing audioData))
                (mkRuntime (this rt) (S (perf_reads rt)))) as Hn.
  destruct (applyNLMSFilter now _ _) as [processed rt1].
  cbn [snd] in Hn. subst rt1. reflexivity.
Qed.

(** X13. [processNoiseAndEcho] in full: as [removeEcho], except that it
    also sets [snr], from the input alone; only the echo delay is left as
    it was. *)
Theorem processNoiseAndEcho_runtime (now : nat -> R) (audioData : list R) (rt : Runtime) :
  let r := perf_reads rt in
  let out := (processNoiseAndEcho now audioData rt).1 in
  (processNoiseAndEcho now audioData rt).2 =
    mkRuntime
      (mkAudioProcessor (echoDelay (this rt))
         (mkMetrics (calculateERLE audioData out)
                    (calculateSNR audioData)
                    (calculateREA audioData out)
                    (now (3 + r)%nat - now r)
                    (now (2 + r)%nat - now (1 + r)%nat)))
      (4 + r) /\
  ((forall a b, (a <= b)%nat -> now a <= now b) ->
   0 <= convergence (getMetrics (processNoiseAndEcho now audioData rt).2)
     <= latency (getMetrics (processNoiseAndEcho now audioData rt).2)).
Proof.
  intros r out.
  pose proof (processNoiseAndEcho_runtime_eq now audioData rt) as Hrt. cbv zeta in Hrt.
  fold r out in Hrt.
  split; [exact Hrt|]. intros Hmono. rewrite Hrt.
  cbn [getMetrics this metrics convergence latency].
  pose proof (Hmono r (1 + r)%nat ltac:(lia)).
  pose proof (Hmono (1 + r)%nat (2 + r)%nat ltac:(lia)).
  pose proof (Hmono (2 + r)%nat (3 + r)%nat ltac:(lia)). lra.
Qed.

Lemma applyKalmanFilter_length (input : list R) :
  length (applyKalmanFilter input) = length input.
Proof.
  unfold applyKalmanFilter. rewrite kalman_run_flat.
  apply (for_range_ind (fun _ st => length (k_output st) = length input)); [lia| |].
  - apply length_replicate.
  - intros k st _ Hlen. cbn [kalman_sample k_output].
    rewrite length_insert. exact Hlen.
Qed.

Lemma postprocessed_first_sample (now : nat -> R) (input : list R) (rt0 : Runtime) :
  applyPostProcessing (applyNLMSFilter now input rt0).1 !!! 0%nat = 0.
Proof.
  destruct input as [|x rest].
  - change (applyNLMSFilter now [] rt0).1 with (applyNLMSFilter now (replicate 0 0) rt0).1.
    rewrite applyNLMSFilter_zero. reflexivity.
  - destruct (applyPostProcessing_spec (applyNLMSFilter now (x :: rest) rt0).1)
      as [_ Hpost].
    rewrite (Hpost 0%nat) by (rewrite applyNLMSFilter_length; cbn [length]; lia).
    apply applyNLMSFilter_first_sample.
Qed.

(** X14. No filter state survives a call: what [removeEcho] and
    [processNoiseAndEcho] return depends on the signal only, not on the
    clock, the metrics, the echo delay or the calls made before; the output
    has the length of the input, and its first sample is always [0]. *)
Theorem operations_stateless (now now' : nat -> R) (audioData : list R) (rt rt' : Runtime) :
  (removeEcho now audioData rt).1 = (removeEcho now' audioData rt').1 /\
  (processNoiseAndEcho now audioData rt).1 = (processNoiseAndEcho now' audioData rt').1 /\
  length (removeEcho now audioData rt).1 = length audioData /\
  length (processNoiseAndEcho now audioData rt).1 = length audioData /\
  ((0 < length audioData)%nat ->
   (removeEcho now audioData rt).1 !!! 0%nat = 0 /\
   (processNoiseAndEcho now audioData rt).1 !!! 0%nat = 0).
Proof.
  destruct (removeEcho_result now audioData rt) as (Hr & _).
  destruct (removeEcho_result now' audioData rt') as (Hr' & _).
  destruct (processNoiseAndEcho_result now audioData rt) as (Hp & _).
  destruct (processNoiseAndEcho_result now' audioData rt') as (Hp' & _).
  assert (Hlr : length (removeEcho now audioData rt).1 = length audioData).
  { rewrite Hr, applyPostProcessing_length, applyNLMSFilter_length.
    apply applyPreProcessing_spec. }
  assert (Hlk : length (applyKalmanFilter (applyPreProcessing audioData))
                = length audioData).
  { rewrite applyKalmanFilter_length. apply applyPreProcessing_spec. }
  assert (Hlp : length (processNoiseAndEcho now audioData rt).1 = length audioData).
  { rewrite Hp, applyPostProcessing_length, applyNLMSFilter_length. exact Hlk. }
  pose proof (postprocessed_first_sample now) as Hfirst.
  split; [rewrite Hr, Hr'; f_equal; apply applyNLMSFilter_stateless|].
  split; [rewrite Hp, Hp'; f_equal; apply applyNLMSFilter_stateless|].
  split; [exact Hlr|]. split; [exact Hlp|].
  intros _. split; [rewrite Hr|rewrite Hp]; apply Hfirst.
Qed.

(** ** The WAV encoder *)

Lemma audioBufferToWav_header (buffer : AudioBuffer) :
  audioBufferToWav buffer =
  Some (for_range 0 (length (channelData0 buffer))
          (fun i wav => Int16Array_set 44 i (pcm_scale (channelData0 buffer !!! i)) wav)
          (wav_header buffer
           ++ replicate (length (channelData0 buffer) * (numberOfChannels buffer * 2)) 0%Z)).
Proof.
  unfold audioBufferToWav, wav_header.
  change (16 / 8)%nat with 2%nat.
  set (m := (length (channelData0 buffer) * (numberOfChannels buffer * 2))%nat).
  set (v1 := IZR (Z.of_nat (36 + m))). set (v2 := IZR (Z.of_nat m)).
  set (v3 := IZR (Z.of_nat (numberOfChannels buffer * 2))).
  set (v4 := sampleRate buffer * v3). set (v5 := IZR (Z.of_nat (numberOfChannels buffer))).
  set (v6 := IZR (Z.of_nat 16)).
  assert (Hpar : ((m - 0) mod 2 =? 0)%nat = true).
  { apply Nat.eqb_eq. subst m.
    replace (length (channelData0 buffer) * (numberOfChannels buffer * 2) - 0)%nat
      with (length (channelData0 buffer) * numberOfChannels buffer * 2)%nat by lia.
    apply Nat.Div0.mod_mul. }
  cbn [Nat.add replicate].
  unfold writeString, for_range, string_bytes.
  cbn [String.length Nat.sub seq fold_left mbind option_bind DataView_set length Nat.leb Nat.add
       list_inserts fmap list_fmap insert list_insert charCodeAt String.get
       field_bytes le_bytes concat app].
  rewrite length_replicate, Hpar. reflexivity.
Qed.

Lemma Zfloor_IZR (z : Z) : Zfloor (IZR z) = z.
Proof. apply Zfloor_eq. lra. Qed.

Lemma truncate_IZR (z : Z) : truncate (IZR z) = z.
Proof.
  unfold truncate. destruct (Rlt_dec (IZR z) 0); [|apply Zfloor_IZR].
  rewrite <- opp_IZR, Zfloor_IZR. lia.
Qed.

Lemma truncate_bounds (x : R) : Rabs (IZR (truncate x) - x) < 1.
Proof.
  unfold truncate. destruct (Rlt_dec x 0) as [Hneg|Hpos].
  - pose proof (Zfloor_bound (- x)) as Hb. rewrite opp_IZR.
    apply Rabs_def1; lra.
  - pose proof (Zfloor_bound x) as Hb. apply Rabs_def1; lra.
Qed.

Lemma truncate_le (x y : R) : x <= y -> (truncate x <= truncate y)%Z.
Proof.
  intros Hxy. unfold truncate.
  destruct (Rlt_dec x 0) as [Hx|Hx], (Rlt_dec y 0) as [Hy|Hy].
  - pose proof (Zfloor_le (- y) (- x) ltac:(lra)). lia.
  - pose proof (Zfloor_lub 0 (- x) ltac:(simpl; lra)).
    pose proof (Zfloor_lub 0 y ltac:(simpl; lra)). lia.
  - lra.
  - apply Zfloor_le, Hxy.
Qed.

Lemma truncate_range (x : R) (lo hi : Z) :
  IZR lo <= x <= IZR hi -> (lo <= truncate x <= hi)%Z.
Proof.
  intros [Hlo Hhi]. rewrite <- (truncate_IZR lo), <- (truncate_IZR hi).
  split; apply truncate_le; assumption.
Qed.

Lemma ToUint_IZR (bits z : Z) : ToUint bits (IZR z) = (z mod 2 ^ bits)%Z.
Proof. unfold ToUint. rewrite truncate_IZR. reflexivity. Qed.

Lemma ToUint_range (bits : Z) (x : R) :
  (0 <= bits)%Z -> (0 <= ToUint bits x < 2 ^ bits)%Z.
Proof. intros Hb. unfold ToUint. apply Z.mod_pos_bound. apply Z.pow_pos_nonneg; lia. Qed.

Lemma le_bytes_length (count : nat) (u : Z) : length (le_bytes count u) = count.
Proof. unfold le_bytes. rewrite length_fmap, length_seq. reflexivity. Qed.

Lemma le_bytes_is_byte (count : nat) (u : Z) : Forall is_byte (le_bytes count u).
Proof.
  unfold le_bytes. apply Forall_fmap, Forall_forall. intros k _.
  unfold is_byte. cbn. apply Z.mod_pos_bound. lia.
Qed.

Lemma le_value_le_bytes_2 (u : Z) : le_value (le_bytes 2 u) = (u mod 65536)%Z.
Proof.
  unfold le_value, le_bytes. cbn [seq fmap list_fmap foldr].
  change (256 ^ Z.of_nat 0)%Z with 1%Z. change (256 ^ Z.of_nat 1)%Z with 256%Z.
  Z.div_mod_to_equations. lia.
Qed.

Lemma le_value_le_bytes_4 (u : Z) : le_value (le_bytes 4 u) = (u mod 4294967296)%Z.
Proof.
  unfold le_value, le_bytes. cbn [seq fmap list_fmap foldr].
  change (256 ^ Z.of_nat 0)%Z with 1%Z. change (256 ^ Z.of_nat 1)%Z with 256%Z.
  change (256 ^ Z.of_nat 2)%Z with 65536%Z. change (256 ^ Z.of_nat 3)%Z with 16777216%Z.
  Z.div_mod_to_equations. lia.
Qed.

Lemma field_bytes_length (size : nat) (v : R) : length (field_bytes size v) = size.
Proof. apply le_bytes_length. Qed.

Lemma wav_header_length (buffer : AudioBuffer) : length (wav_header buffer) = 44%nat.
Proof. reflexivity. Qed.

Lemma wav_header_is_byte (buffer : AudioBuffer) : Forall is_byte (wav_header buffer).
Proof.
  unfold wav_header, string_bytes.
  cbn [String.length seq fmap list_fmap concat].
  repeat (apply Forall_app; split); try apply le_bytes_is_byte.
  all: apply Forall_nil_2.
Qed.

Lemma wav_samples_length (buffer : AudioBuffer) :
  length (wav_samples buffer) = (2 * length (channelData0 buffer))%nat.
Proof.
  unfold wav_samples. induction (channelData0 buffer) as [|x l IH]; [reflexivity|].
  cbn [fmap list_fmap concat]. rewrite length_app, le_bytes_length.
  cbn [fmap] in IH. rewrite IH. cbn [length]. lia.
Qed.

Lemma wav_samples_is_byte (buffer : AudioBuffer) : Forall is_byte (wav_samples buffer).
Proof.
  unfold wav_samples. induction (channelData0 buffer) as [|x l IH]; [constructor|].
  cbn [fmap list_fmap concat]. apply Forall_app. split; [apply le_bytes_is_byte|exact IH].
Qed.

Lemma sample_bytes_take_length (f : R -> list Z) (data : list R) (k : nat) :
  (forall x, length (f x) = 2%nat) -> (k <= length data)%nat ->
  length (concat (f <$> take k data)) = (2 * k)%nat.
Proof.
  intros Hf. revert k. induction data as [|x data IH]; intros k Hk.
  - cbn [length] in Hk. replace k with 0%nat by lia. reflexivity.
  - destruct k as [|k]; [reflexivity|].
    cbn [take fmap list_fmap concat]. rewrite length_app, Hf.
    cbn [fmap] in IH. rewrite IH by (cbn [length] in Hk; lia). lia.
Qed.

(** The loop over the samples fills the bytes after the header, two for
    each sample of channel 0, and leaves the rest of the buffer zero. *)
Lemma int16_loop (hdr : list Z) (data : list R) (c : nat) :
  length hdr = 44%nat -> (1 <= c)%nat ->
  for_range 0 (length data)
    (fun i wav => Int16Array_set 44 i (pcm_scale (data !!! i)) wav)
    (hdr ++ replicate (length data * (c * 2)) 0%Z) =
  hdr ++ concat ((fun x => le_bytes 2 (ToInt16 (pcm_scale x) mod 65536)%Z) <$> data)
      ++ replicate ((c - 1) * (2 * length data)) 0%Z.
Proof.
  intros Hhdr Hc. set (n := length data). set (m := (n * (c * 2))%nat).
  set (f := fun x => le_bytes 2 (ToInt16 (pcm_scale x) mod 65536)%Z).
  assert (Hf : forall x, length (f x) = 2%nat) by (intros x; apply le_bytes_length).
  pose (P := fun (k : nat) (buf : list Z) =>
    buf = (hdr ++ concat (f <$> take k data)) ++ replicate (m - 2 * k) 0%Z).
  assert (HP : P n (for_range 0 n
                      (fun i wav => Int16Array_set 44 i (pcm_scale (data !!! i)) wav)
                      (hdr ++ replicate m 0%Z))).
  { apply (for_range_ind P 0 n); subst P; cbv beta; [lia| |].
    - rewrite take_0. cbn [fmap list_fmap concat]. rewrite app_nil_r.
      replace (m - 2 * 0)%nat with m by lia. reflexivity.
    - intros k buf Hk ->.
      assert (Hlen : length (concat (f <$> take k data)) = (2 * k)%nat)
        by (apply sample_bytes_take_length; [exact Hf|lia]).
      assert (Hm : (2 * n <= m)%nat) by (subst m; nia).
      unfold Int16Array_set.
      rewrite !length_app, Hhdr, Hlen, length_replicate.
      replace (44 + 2 * k + (m - 2 * k) - 44)%nat with ((n * c) * 2)%nat
        by (subst m; lia).
      rewrite Nat.div_mul by lia.
      destruct (Nat.ltb_spec k (n * c)) as [_|Hbad]; [|nia].
      replace (44 + 2 * k)%nat
        with (length (hdr ++ concat (f <$> take k data)) + 0)%nat
        by (rewrite length_app, Hhdr, Hlen; lia).
      rewrite list_inserts_app_r.
      replace (m - 2 * k)%nat with (2 + (m - 2 * S k))%nat by lia.
      change (replicate (2 + (m - 2 * S k)) 0%Z)
        with ([0%Z; 0%Z] ++ replicate (m - 2 * S k) 0%Z).
      rewrite list_inserts_0_r by (rewrite le_bytes_length; reflexivity).
      rewrite (take_S_r data k (data !!! k))
        by (apply list_lookup_lookup_total_lt; lia).
      rewrite fmap_app, concat_app. cbn [fmap list_fmap concat].
      rewrite app_nil_r. rewrite <- !app_assoc. reflexivity. }
  subst P. cbv beta in HP. fold n m. rewrite HP.
  rewrite take_ge by lia. rewrite <- app_assoc.
  replace (m - 2 * n)%nat with ((c - 1) * (2 * n))%nat by (subst m; nia).
  reflexivity.
Qed.

Lemma int16_loop_no_channels (hdr : list Z) (data : list R) :
  length hdr = 44%nat ->
  for_range 0 (length data)
    (fun i wav => Int16Array_set 44 i (pcm_scale (data !!! i)) wav)
    (hdr ++ replicate (length data * (0 * 2)) 0%Z) = hdr.
Proof.
  intros Hhdr. replace (length data * (0 * 2))%nat with 0%nat by lia.
  cbn [replicate]. rewrite app_nil_r.
  apply (for_range_ind (fun _ buf => buf = hdr)); [lia|reflexivity|].
  intros k buf _ ->. unfold Int16Array_set. rewrite Hhdr. reflexivity.
Qed.

Lemma audioBufferToWav_closed_form (buffer : AudioBuffer) :
  (1 <= numberOfChannels buffer)%nat ->
  audioBufferToWav buffer =
    Some (wav_header buffer ++ wav_samples buffer
          ++ replicate ((numberOfChannels buffer - 1)
                        * (2 * length (channelData0 buffer))) 0%Z).
Proof.
  intros Hc. rewrite audioBufferToWav_header.
  rewrite (int16_loop (wav_header buffer) (channelData0 buffer)
             (numberOfChannels buffer) (wav_header_length buffer) Hc).
  reflexivity.
Qed.

Lemma audioBufferToWav_result (buffer : AudioBuffer) :
  exists wav,
    audioBufferToWav buffer = Some wav /\
    length wav
      = (44 + length (channelData0 buffer) * (numberOfChannels buffer * 2))%nat /\
    take 44 wav = wav_header buffer.
Proof.
  destruct (numberOfChannels buffer) as [|c] eqn:Hc.
  - exists (wav_header buffer). rewrite audioBufferToWav_header, Hc.
    rewrite int16_loop_no_channels by apply wav_header_length.
    split; [reflexivity|]. split; [rewrite wav_header_length; lia|].
    apply take_ge. rewrite wav_header_length. lia.
  - eexists. split; [apply audioBufferToWav_closed_form; lia|].
    rewrite Hc. split.
    + rewrite !length_app, wav_header_length, wav_samples_length, length_replicate.
      lia.
    + apply take_app_length'. rewrite wav_header_length. reflexivity.
Qed.

(** X15. The layout of the file [audioBufferToWav] writes for a buffer
    with at least one channel: the 44 bytes of the header, then the two
    bytes of each sample of channel 0, then zeros.  A buffer of [c]
    channels is announced as such in the header, yet only channel 0 is
    stored, as the first [length] samples of the data, and the other
    [(c - 1) * length] samples of the data are zero. *)
Theorem audioBufferToWav_layout (buffer : AudioBuffer) :
  (1 <= numberOfChannels buffer)%nat ->
  audioBufferToWav buffer =
    Some (wav_header buffer ++ wav_samples buffer
          ++ replicate ((numberOfChannels buffer - 1)
                        * (2 * length (channelData0 buffer))) 0%Z) /\
  length (wav_header buffer) = 44%nat /\
  length (wav_samples buffer) = (2 * length (channelData0 buffer))%nat.
Proof.
  intros Hc. split; [|split].
  - apply audioBufferToWav_closed_form, Hc.
  - apply wav_header_length.
  - apply wav_samples_length.
Qed.

Lemma audioBufferToWav_layout_witness :
  let buffer := mkAudioBuffer 1 44100 [1; 0] in
  audioBufferToWav buffer =
    Some (wav_header buffer ++ wav_samples buffer
          ++ replicate ((numberOfChannels buffer - 1)
                        * (2 * length (channelData0 buffer))) 0%Z) /\
  length (wav_header buffer) = 44%nat /\
  length (wav_samples buffer) = (2 * length (channelData0 buffer))%nat.
Proof.
  apply (audioBufferToWav_layout (mkAudioBuffer 1 44100 [1; 0])). simpl. lia.
Defined.

(** X16. [audioBufferToWav] never fails: no header write passes the end
    of the buffer and the sample view is aligned, for every buffer, even
    an empty one.  The file has [44 + length * numberOfChannels * 2] bytes,
    each of them in [0 .. 255]. *)
Theorem audioBufferToWav_total (buffer : AudioBuffer) :
  exists wav,
    audioBufferToWav buffer = Some wav /\
    length wav
      = (44 + length (channelData0 buffer) * (numberOfChannels buffer * 2))%nat /\
    Forall is_byte wav /\
    take 44 wav = wav_header buffer.
Proof.
  destruct (numberOfChannels buffer) as [|c] eqn:Hc.
  - exists (wav_header buffer). rewrite audioBufferToWav_header, Hc.
    rewrite int16_loop_no_channels by apply wav_header_length.
    split; [reflexivity|]. split; [rewrite wav_header_length; lia|].
    split; [apply wav_header_is_byte|].
    apply take_ge. rewrite wav_header_length. lia.
  - exists (wav_header buffer ++ wav_samples buffer
            ++ replicate ((S c - 1) * (2 * length (channelData0 buffer))) 0%Z).
    rewrite audioBufferToWav_header, Hc.
    rewrite (int16_loop (wav_header buffer) (channelData0 buffer) (S c)
               (wav_header_length buffer)) by lia.
    split; [reflexivity|]. split; [|split].
    + rewrite !length_app, wav_header_length, wav_samples_length, length_replicate.
      lia.
    + apply Forall_app. split; [apply wav_header_is_byte|].
      apply Forall_app. split; [apply wav_samples_is_byte|].
      apply Forall_replicate. unfold is_byte. lia.
    + apply take_app_length'. rewrite wav_header_length. reflexivity.
Qed.

Lemma wav_field_header (offset size : nat) (wav hdr : list Z) :
  (offset + size <= 44)%nat -> take 44 wav = hdr ->
  wav_field offset size wav = wav_field offset size hdr.
Proof.
  intros Hfit <-. unfold wav_field.
  rewrite !take_drop_commute, take_take.
  replace (Nat.min (offset + size) 44) with (offset + size)%nat by lia.
  reflexivity.
Qed.

Lemma le_value_field_4 (v : R) : le_value (field_bytes 4 v) = ToUint 32 v.
Proof.
  unfold field_bytes. change (8 * Z.of_nat 4)%Z with 32%Z.
  rewrite le_value_le_bytes_4. apply Z.mod_small.
  apply (ToUint_range 32 v). lia.
Qed.

Lemma le_value_field_2 (v : R) : le_value (field_bytes 2 v) = ToUint 16 v.
Proof.
  unfold field_bytes. change (8 * Z.of_nat 2)%Z with 16%Z.
  rewrite le_value_le_bytes_2. apply Z.mod_small.
  apply (ToUint_range 16 v). lia.
Qed.

Lemma string_bytes_tags :
  string_bytes "RIFF" = [82; 73; 70; 70]%Z /\
  string_bytes "WAVE" = [87; 65; 86; 69]%Z /\
  string_bytes "fmt " = [102; 109; 116; 32]%Z /\
  string_bytes "data" = [100; 97; 116; 97]%Z.
Proof.
  unfold string_bytes, field_bytes.
  cbn [String.length seq fmap list_fmap concat charCodeAt String.get app].
  rewrite !ToUint_IZR. repeat split; reflexivity.
Qed.

(** X17. The header [audioBufferToWav] writes is a well-formed RIFF/WAVE
    header for 16-bit PCM: it has the four tags in place, its two size
    fields are the size of the file less 8 and less 44 (modulo 2^32), the
    format chunk has length 16, format 1, the channel count, the sample
    rate truncated to an integer, the byte rate, the block alignment
    [2 * numberOfChannels] and 16 bits per sample. *)
Theorem audioBufferToWav_header_fields (buffer : AudioBuffer) :
  exists wav,
    audioBufferToWav buffer = Some wav /\
    wav_field 0 4 wav = [82; 73; 70; 70]%Z /\
    le_value (wav_field 4 4 wav) = ((Z.of_nat (length wav) - 8) mod 2 ^ 32)%Z /\
    wav_field 8 4 wav = [87; 65; 86; 69]%Z /\
    wav_field 12 4 wav = [102; 109; 116; 32]%Z /\
    le_value (wav_field 16 4 wav) = 16%Z /\
    le_value (wav_field 20 2 wav) = 1%Z /\
    le_value (wav_field 22 2 wav) = (Z.of_nat (numberOfChannels buffer) mod 2 ^ 16)%Z /\
    le_value (wav_field 24 4 wav) = (truncate (sampleRate buffer) mod 2 ^ 32)%Z /\
    le_value (wav_field 28 4 wav)
      = (truncate (sampleRate buffer * IZR (Z.of_nat (numberOfChannels buffer * 2)))
         mod 2 ^ 32)%Z /\
    le_value (wav_field 32 2 wav) = (Z.of_nat (numberOfChannels buffer * 2) mod 2 ^ 16)%Z /\
    le_value (wav_field 34 2 wav) = 16%Z /\
    wav_field 36 4 wav = [100; 97; 116; 97]%Z /\
    le_value (wav_field 40 4 wav) = ((Z.of_nat (length wav) - 44) mod 2 ^ 32)%Z.
Proof.
  destruct (audioBufferToWav_result buffer) as (wav & Hwav & Hlen & Hhdr).
  destruct string_bytes_tags as (Hriff & Hwave & Hfmt & Hdata).
  exists wav. split; [exact Hwav|].
  rewrite !(fun o k H => wav_field_header o k wav _ H Hhdr) by lia.
  rewrite Hlen.
  set (m := (length (channelData0 buffer) * (numberOfChannels buffer * 2))%nat).
  change (wav_field 0 4 (wav_header buffer)) with (string_bytes "RIFF").
  change (wav_field 4 4 (wav_header buffer))
    with (field_bytes 4 (IZR (Z.of_nat (36 + m)))).
  change (wav_field 8 4 (wav_header buffer)) with (string_bytes "WAVE").
  change (wav_field 12 4 (wav_header buffer)) with (string_bytes "fmt ").
  change (wav_field 16 4 (wav_header buffer)) with (field_bytes 4 16).
  change (wav_field 20 2 (wav_header buffer)) with (field_bytes 2 1).
  change (wav_field 22 2 (wav_header buffer))
    with (field_bytes 2 (IZR (Z.of_nat (numberOfChannels buffer)))).
  change (wav_field 24 4 (wav_header buffer)) with (field_bytes 4 (sampleRate buffer)).
  change (wav_field 28 4 (wav_header buffer))
    with (field_bytes 4 (sampleRate buffer * IZR (Z.of_nat (numberOfChannels buffer * 2)))).
  change (wav_field 32 2 (wav_header buffer))
    with (field_bytes 2 (IZR (Z.of_nat (numberOfChannels buffer * 2)))).
  change (wav_field 34 2 (wav_header buffer)) with (field_bytes 2 (IZR (Z.of_nat 16))).
  change (wav_field 36 4 (wav_header buffer)) with (string_bytes "data").
  change (wav_field 40 4 (wav_header buffer)) with (field_bytes 4 (IZR (Z.of_nat m))).
  rewrite !le_value_field_4, !le_value_field_2, !ToUint_IZR.
  rewrite Hriff, Hwave, Hfmt, Hdata.
  repeat split; try reflexivity.
  - f_equal. lia.
  - f_equal. lia.
Qed.

(** ** The WAV encoder: quantization *)

Lemma pcm_scale_range (x : R) : -32768 <= pcm_scale x <= 32767.
Proof.
  unfold pcm_scale.
  assert (Hc : -1 <= Rmax (-1) (Rmin 1 x) <= 1).
  { split; [apply Rmax_l|]. apply Rmax_lub; [lra|apply Rmin_l]. }
  destruct (Rlt_dec _ 0); lra.
Qed.

Lemma clip_le (x y : R) : x <= y -> Rmax (-1) (Rmin 1 x) <= Rmax (-1) (Rmin 1 y).
Proof.
  intros Hxy. unfold Rmax, Rmin.
  repeat (destruct (Rle_dec _ _)); lra.
Qed.

Lemma clip_inside (x : R) : -1 <= x <= 1 -> Rmax (-1) (Rmin 1 x) = x.
Proof.
  intros Hx. unfold Rmax, Rmin. repeat (destruct (Rle_dec _ _)); lra.
Qed.

Lemma pcm_scale_le (x y : R) : x <= y -> pcm_scale x <= pcm_scale y.
Proof.
  intros Hxy. apply clip_le in Hxy. unfold pcm_scale.
  destruct (Rlt_dec _ 0), (Rlt_dec _ 0); lra.
Qed.

Lemma ToInt16_in_range (v : R) :
  -32768 <= v <= 32767 -> ToInt16 v = truncate v.
Proof.
  intros Hv. pose proof (truncate_range v (-32768) 32767 Hv) as Ht.
  unfold ToInt16, ToUint. change (2 ^ 16)%Z with 65536%Z.
  destruct (Z.ltb_spec (truncate v mod 65536) 32768);
    Z.div_mod_to_equations; lia.
Qed.

Lemma pcm16_truncate (x : R) : pcm16 x = truncate (pcm_scale x).
Proof. unfold pcm16. apply ToInt16_in_range, pcm_scale_range. Qed.

(** X18. The quantizer of [audioBufferToWav] clips before it scales, so a
    sample never wraps around: every stored sample lies in
    [-32768 .. 32767], a sample of [1] or more is stored as [32767], one of
    [-1] or less as [-32768] and [0] as [0]; the quantizer is monotone, and
    it is off from the scaled sample by less than one step, the scale being
    [32768] below zero and [32767] from zero on. *)
Theorem pcm16_quantizer (x y : R) :
  (-32768 <= pcm16 x <= 32767)%Z /\
  (1 <= x -> pcm16 x = 32767%Z) /\
  (x <= -1 -> pcm16 x = (-32768)%Z) /\
  pcm16 0 = 0%Z /\
  (x <= y -> (pcm16 x <= pcm16 y)%Z) /\
  (-1 <= x < 0 -> Rabs (IZR (pcm16 x) - x * 32768) < 1) /\
  (0 <= x <= 1 -> Rabs (IZR (pcm16 x) - x * 32767) < 1).
Proof.
  rewrite !pcm16_truncate.
  split; [apply truncate_range, pcm_scale_range|].
  split; [|split; [|split; [|split; [|split]]]].
  - intros Hx. unfold pcm_scale.
    replace (Rmax (-1) (Rmin 1 x)) with 1
      by (unfold Rmax, Rmin; repeat (destruct (Rle_dec _ _)); lra).
    destruct (Rlt_dec 1 0); [lra|].
    replace (1 * 32767) with (IZR 32767) by lra. apply truncate_IZR.
  - intros Hx. unfold pcm_scale.
    replace (Rmax (-1) (Rmin 1 x)) with (-1)
      by (unfold Rmax, Rmin; repeat (destruct (Rle_dec _ _)); lra).
    destruct (Rlt_dec (-1) 0); [|lra].
    replace (-1 * 32768) with (IZR (-32768)) by lra. apply truncate_IZR.
  - unfold pcm_scale. rewrite clip_inside by lra.
    destruct (Rlt_dec 0 0); [lra|].
    replace (0 * 32767) with (IZR 0) by lra. apply truncate_IZR.
  - intros Hxy. apply truncate_le, pcm_scale_le, Hxy.
  - intros Hx. replace (x * 32768) with (pcm_scale x); [apply truncate_bounds|].
    unfold pcm_scale. rewrite clip_inside by lra.
    destruct (Rlt_dec x 0); lra.
  - intros Hx. replace (x * 32767) with (pcm_scale x); [apply truncate_bounds|].
    unfold pcm_scale. rewrite clip_inside by lra.
    destruct (Rlt_dec x 0); lra.
Qed.

Lemma sample_bytes_field (f : R -> list Z) (data : list R) (rest : list Z) (i : nat) :
  (forall x, length (f x) = 2%nat) -> (i < length data)%nat ->
  wav_field (2 * i) 2 (concat (f <$> data) ++ rest) = f (data !!! i).
Proof.
  intros Hf. unfold wav_field. revert i.
  induction data as [|x data IH]; intros i Hi; cbn [length] in Hi; [lia|].
  cbn [fmap list_fmap concat]. rewrite <- app_assoc.
  destruct i as [|i].
  - replace (2 * 0)%nat with 0%nat by lia. rewrite drop_0.
    rewrite take_app_length' by (rewrite Hf; reflexivity). reflexivity.
  - replace (2 * S i)%nat with (length (f x) + 2 * i)%nat by (rewrite Hf; lia).
    rewrite drop_app_add. cbn [fmap] in IH. rewrite IH by lia.
    rewrite lookup_total_cons_ne_0 by lia. reflexivity.
Qed.

(** X19. Reading a sample back from the file gives the quantized sample:
    for a buffer with at least one channel, the two bytes at
    [44 + 2 * i] are the little-endian two's complement of
    [pcm16 (channelData[i])], so a 16-bit PCM reader recovers channel 0 up
    to the quantization. *)
Theorem audioBufferToWav_sample (buffer : AudioBuffer) (i : nat) :
  (1 <= numberOfChannels buffer)%nat ->
  (i < length (channelData0 buffer))%nat ->
  exists wav,
    audioBufferToWav buffer = Some wav /\
    wav_field (44 + 2 * i) 2 wav
      = le_bytes 2 (pcm16 (channelData0 buffer !!! i) mod 65536)%Z /\
    int16_value (wav_field (44 + 2 * i) 2 wav) = pcm16 (channelData0 buffer !!! i) /\
    Rabs (IZR (int16_value (wav_field (44 + 2 * i) 2 wav))
          - pcm_scale (channelData0 buffer !!! i)) < 1.
Proof.
  intros Hc Hi.
  pose proof (audioBufferToWav_closed_form buffer Hc) as Hwav.
  pose proof (wav_header_length buffer) as Hlh.
  eexists. split; [exact Hwav|].
  assert (Hfield :
    wav_field (44 + 2 * i) 2
      (wav_header buffer ++ wav_samples buffer
       ++ replicate ((numberOfChannels buffer - 1)
                     * (2 * length (channelData0 buffer))) 0%Z)
    = le_bytes 2 (pcm16 (channelData0 buffer !!! i) mod 65536)%Z).
  { unfold wav_field at 1. rewrite <- Hlh at 1. rewrite drop_app_add.
    apply (sample_bytes_field
             (fun x => le_bytes 2 (ToInt16 (pcm_scale x) mod 65536)%Z)).
    - intros x. apply le_bytes_length.
    - exact Hi. }
  rewrite Hfield. split; [reflexivity|].
  pose proof (pcm16_truncate (channelData0 buffer !!! i)) as Ht.
  pose proof (truncate_range _ (-32768) 32767
                (pcm_scale_range (channelData0 buffer !!! i))) as Hr.
  rewrite <- Ht in Hr.
  assert (Hval : int16_value
                   (le_bytes 2 (pcm16 (channelData0 buffer !!! i) mod 65536)%Z)
                 = pcm16 (channelData0 buffer !!! i)).
  { unfold int16_value. rewrite le_value_le_bytes_2.
    destruct (Z.ltb_spec ((pcm16 (channelData0 buffer !!! i) mod 65536) mod 65536) 32768);
      Z.div_mod_to_equations; lia. }
  split; [exact Hval|]. rewrite Hval, Ht. apply truncate_bounds.
Qed.

Lemma audioBufferToWav_sample_witness :
  let buffer := mkAudioBuffer 1 44100 [1; 0] in
  exists wav,
    audioBufferToWav buffer = Some wav /\
    wav_field (44 + 2 * 1) 2 wav
      = le_bytes 2 (pcm16 (channelData0 buffer !!! 1%nat) mod 65536)%Z /\
    int16_value (wav_field (44 + 2 * 1) 2 wav) = pcm16 (channelData0 buffer !!! 1%nat) /\
    Rabs (IZR (int16_value (wav_field (44 + 2 * 1) 2 wav))
          - pcm_scale (channelData0 buffer !!! 1%nat)) < 1.
Proof.
  apply (audioBufferToWav_sample (mkAudioBuffer 1 44100 [1; 0]) 1); simpl; lia.
Defined.

(** ** The handlers *)


Lemma wav_sample_field (buffer : AudioBuffer) (i : nat) :
  (i < length (channelData0 buffer))%nat ->
  wav_field (44 + 2 * i) 2
    (wav_header buffer ++ wav_samples buffer
     ++ replicate ((numberOfChannels buffer - 1)
                   * (2 * length (channelData0 buffer))) 0%Z)
  = le_bytes 2 (pcm16 (channelData0 buffer !!! i) mod 65536)%Z.
Proof.
  intros Hi. unfold wav_field at 1.
  rewrite <- (wav_header_length buffer) at 1. rewrite drop_app_add.
  apply (sample_bytes_field
           (fun x => le_bytes 2 (ToInt16 (pcm_scale x) mod 65536)%Z)).
  - intros x. apply le_bytes_length.
  - exact Hi.
Qed.


Lemma pcm16_0 : pcm16 0 = 0%Z.
Proof.
  rewrite pcm16_truncate. unfold pcm_scale. rewrite clip_inside by lra.
  destruct (Rlt_dec 0 0); [lra|].
  replace (0 * 32767) with (IZR 0) by lra. apply truncate_IZR.
Qed.

(** X21. Processing from the interface always succeeds and yields a mono
    16-bit file of [44 + 2 * length] bytes.  The processor being new, the
    SNR shown in echo mode is always [0] (only the combined mode computes
    it, from the input), the REA shown is twice the ERLE shown, and the
    first sample of the file of a non-empty signal is always silence. *)
Theorem handleProcess_result (now : nat -> R) (reads : nat) (mode : Mode)
        (audioBuffer : AudioBuffer) :
  let input := channelData0 audioBuffer in
  exists wav newMetrics,
    handleProcess now reads mode audioBuffer = Some (wav, newMetrics) /\
    length wav = (44 + 2 * length input)%nat /\
    snr newMetrics = match mode with
                     | mode_echo => 0
                     | mode_noise_echo => calculateSNR input
                     end /\
    rea newMetrics = 2 * erle newMetrics /\
    latency newMetrics = now (3 + reads)%nat - now reads /\
    convergence newMetrics = now (2 + reads)%nat - now (1 + reads)%nat /\
    ((0 < length input)%nat -> wav_field 44 2 wav = [0; 0]%Z).
Proof.
  intros input. set (rt0 := mkRuntime new_AudioProcessor reads).
  assert (Hcore : forall (processedData : list R) (processor : Runtime) (s : R),
    length processedData = length input ->
    processedData !!! 0%nat = 0 ->
    getMetrics processor
      = mkMetrics (calculateERLE input processedData) s
                  (calculateREA input processedData)
                  (now (3 + reads)%nat - now reads)
                  (now (2 + reads)%nat - now (1 + reads)%nat) ->
    exists wav newMetrics,
      (processedWav ← audioBufferToWav
                        (mkAudioBuffer 1 (sampleRate audioBuffer) processedData);
       Some (processedWav, getMetrics processor)) = Some (wav, newMetrics) /\
      length wav = (44 + 2 * length input)%nat /\
      snr newMetrics = s /\
      rea newMetrics = 2 * erle newMetrics /\
      latency newMetrics = now (3 + reads)%nat - now reads /\
      convergence newMetrics = now (2 + reads)%nat - now (1 + reads)%nat /\
      ((0 < length input)%nat -> wav_field 44 2 wav = [0; 0]%Z)).
  { intros processedData processor s Hlen Hzero Hm.
    set (buf := mkAudioBuffer 1 (sampleRate audioBuffer) processedData).
    rewrite (audioBufferToWav_closed_form buf) by (cbn; lia).
    cbn [mbind option_bind]. eexists. eexists. split; [reflexivity|].
    rewrite Hm. cbn [snr rea erle latency convergence].
    split; [|split; [reflexivity|split; [apply calculateREA_twice_ERLE|]]].
    - rewrite !length_app, wav_header_length, wav_samples_length, length_replicate.
      cbn [numberOfChannels channelData0 buf]. lia.
    - split; [reflexivity|]. split; [reflexivity|]. intros Hpos.
      change 44%nat with (44 + 2 * 0)%nat at 1.
      rewrite (wav_sample_field buf 0) by (cbn [channelData0 buf]; lia).
      cbn [channelData0 buf]. rewrite Hzero, pcm16_0. reflexivity. }
  unfold handleProcess. fold input rt0. destruct mode.
  - pose proof (removeEcho_runtime_eq now input rt0) as Hrt. cbv zeta in Hrt.
    destruct (removeEcho_result now input rt0) as (Hout & _).
    destruct (removeEcho now input rt0) as [processedData processor].
    cbn [fst snd] in Hrt, Hout. apply Hcore.
    + rewrite Hout, applyPostProcessing_length, applyNLMSFilter_length.
      apply applyPreProcessing_spec.
    + rewrite Hout. apply postprocessed_first_sample.
    + rewrite Hrt. reflexivity.
  - pose proof (processNoiseAndEcho_runtime_eq now input rt0) as Hrt. cbv zeta in Hrt.
    destruct (processNoiseAndEcho_result now input rt0) as (Hout & _).
    destruct (processNoiseAndEcho now input rt0) as [processedData processor].
    cbn [fst snd] in Hrt, Hout. apply Hcore.
    + rewrite Hout, applyPostProcessing_length, applyNLMSFilter_length,
        applyKalmanFilter_length.
      apply applyPreProcessing_spec.
    + rewrite Hout. apply postprocessed_first_sample.
    + rewrite Hrt. reflexivity.
Qed.
